(** * sbt (pbt-simple): install orchestration, dependency graph, start-up check

    A shallow embedding of [sbt/commands/install.py], [sbt/package/graph.py]
    and [sbt/__main__.py].  Python dictionaries keep insertion order, so they
    are association lists here; exceptions are an error type; the file system,
    the spawned processes and the log are an explicit world that a small
    state-and-error monad threads through the code. *)

From Stdlib Require Import Ascii String.
From stdpp Require Import base option list strings gmap relations.

Set Warnings "-register-all".

(** ** Data model *)

(** TOML values as the install command builds them with tomlkit.  The key of
    an inline table is [cast(str, spec.version_spec_field)], an [Optional]
    at run time, hence the optional key. *)
Inductive toml : Type :=
| TStr (s : string)
| TArr (multiline : bool) (xs : list toml)
| TInline (kv : list (option string * toml)).

(** [sbt.package.package.DepConstraint], built positionally in
    [find_common_specs] as (version_spec, constraint, version_spec_field,
    origin_spec). *)
Record DepConstraint : Type := mkDepConstraint {
  version_spec : string;
  constraint : option string;
  version_spec_field : option string;
  origin_spec : option (list (string * toml))
}.

Definition DepConstraints : Type := list DepConstraint.

Inductive PackageType : Type := Standard | NativeExtension.

Record Package : Type := mkPackage {
  name : string;
  version : string;
  location : string;
  include : list string;
  dependencies : list (string * DepConstraints);
  type : PackageType
}.

(** ** Exceptions and results *)

Inductive incompat_reason : Type :=
| DuplicatedSpecs
| DifferentNumberOfSpecs
| IncompatibleSpecs.

Inductive exn : Type :=
| IncompatibleDependencyError (why : incompat_reason) (a b : DepConstraints)
| InvalidVersionSpec (text : string)
| ExecProcessError (cmd : string)
| FileNotFoundError (dir file : string)
| KeyError (key : string)
| AssertionError
| CyclicDependencies (closing_edge : string * string)
| OtherError (msg : string).

Inductive result (A : Type) : Type :=
| Ok (a : A)
| Raise (e : exn).
Arguments Ok {A} a.
Arguments Raise {A} e.

#[global] Instance result_ret : MRet result := fun _ a => Ok a.
#[global] Instance result_bind : MBind result := fun _ _ f m =>
  match m with
  | Ok a => f a
  | Raise e => Raise e
  end.

Definition is_ok {A} (r : result A) : bool :=
  match r with Ok _ => true | Raise _ => false end.

(** A [for] loop that carries an accumulator and stops at the first raise. *)
Fixpoint foldlM {M : Type → Type} `{!MBind M, !MRet M} {A B : Type}
    (f : A → B → M A) (a : A) (l : list B) : M A :=
  match l with
  | [] => mret a
  | x :: l' => a' ← f a x; foldlM f a' l'
  end.

(** ** Insertion-ordered dictionaries *)

Section Dict.
Context {V : Type}.

Fixpoint dict_get (k : string) (d : list (string * V)) : option V :=
  match d with
  | [] => None
  | (k', v) :: d' => if decide (k = k') then Some v else dict_get k d'
  end.

(** [d[k] = v]: an existing key keeps its position, a new key goes last. *)
Fixpoint dict_set (k : string) (v : V) (d : list (string * V)) : list (string * V) :=
  match d with
  | [] => [(k, v)]
  | (k', v') :: d' =>
      if decide (k = k') then (k, v) :: d' else (k', v') :: dict_set k v d'
  end.

Definition dict_keys (d : list (string * V)) : list string := d.*1.

Definition dict_has (k : string) (d : list (string * V)) : bool :=
  bool_decide (k ∈ dict_keys d).
End Dict.

(** ** Version specifiers (sbt.package.discovery, not part of these files)

    [find_common_specs] only calls three operations of the version model;
    they are an interface here.  [parse_version_spec] may raise;
    [intersect] answering [None] is its [ValueError]. *)
Class VersionModel : Type := {
  VersionSpec : Type;
  parse_version_spec : string → result VersionSpec;
  intersect : VersionSpec → VersionSpec → option VersionSpec;
  to_pep508_string : VersionSpec → string
}.

(** ** find_common_specs *)

(** [x.constraint or ""] *)
Definition label (x : DepConstraint) : string :=
  match constraint x with
  | Some c => c
  | None => ""
  end.

(** [{x.constraint or "": x for x in depspecs}] *)
Definition specs_by_label (depspecs : DepConstraints) : list (string * DepConstraint) :=
  foldl (fun d x => dict_set (label x) x d) [] depspecs.

Definition key_set (d : list (string * DepConstraint)) : gset string :=
  list_to_set (dict_keys d).

Section FindCommonSpecs.
Context `{VM : VersionModel}.

(** One round of the loop over [specs.items()]. *)
Definition merge_entry (depspecs another_depspecs : DepConstraints)
    (anotherspecs : list (string * DepConstraint))
    (item : string * DepConstraint) : result DepConstraint :=
  let '(constraint, spec) := item in
  match dict_get constraint anotherspecs with
  | None => Raise (KeyError constraint)
  | Some anotherspec =>
      specver ← parse_version_spec (version_spec spec);
      anotherspecver ← parse_version_spec (version_spec anotherspec);
      match intersect specver anotherspecver with
      | None =>
          Raise (IncompatibleDependencyError IncompatibleSpecs depspecs another_depspecs)
      | Some specver' =>
          Ok (mkDepConstraint (to_pep508_string specver') (Some constraint)
                (version_spec_field spec) (origin_spec spec))
      end
  end.

Fixpoint merge_entries (depspecs another_depspecs : DepConstraints)
    (anotherspecs items : list (string * DepConstraint)) : result DepConstraints :=
  match items with
  | [] => Ok []
  | item :: rest =>
      new ← merge_entry depspecs another_depspecs anotherspecs item;
      news ← merge_entries depspecs another_depspecs anotherspecs rest;
      Ok (new :: news)
  end.

Definition find_common_specs (depspecs another_depspecs : DepConstraints)
    : result DepConstraints :=
  let specs := specs_by_label depspecs in
  let anotherspecs := specs_by_label another_depspecs in
  if negb (bool_decide (length specs = length depspecs)
           && bool_decide (length anotherspecs = length another_depspecs))
  then Raise (IncompatibleDependencyError DuplicatedSpecs depspecs another_depspecs)
  else if negb (bool_decide (key_set specs = key_set anotherspecs))
  then Raise (IncompatibleDependencyError DifferentNumberOfSpecs depspecs another_depspecs)
  else merge_entries depspecs another_depspecs anotherspecs specs.
End FindCommonSpecs.

(** The vocabulary of the merge: the labels of a requirement list, a
    repeated label, two lists with the same labels, and what one pair of
    entries with the same label gives. *)
Definition labels (l : DepConstraints) : list string := label <$> l.

Definition duplicated (l : DepConstraints) : Prop := ¬ NoDup (labels l).

Definition same_labels (d1 d2 : DepConstraints) : Prop :=
  ∀ k, k ∈ labels d1 ↔ k ∈ labels d2.

Definition by_label (l : DepConstraints) : list (string * DepConstraint) :=
  (fun x => (label x, x)) <$> l.

Section MergeVocabulary.
Context `{VM : VersionModel}.

Definition parses (x : DepConstraint) : Prop :=
  is_ok (parse_version_spec (version_spec x)) = true.

Definition contradictory (x y : DepConstraint) : Prop :=
  ∃ vx vy,
    parse_version_spec (version_spec x) = Ok vx
    ∧ parse_version_spec (version_spec y) = Ok vy
    ∧ intersect vx vy = None.

Definition merged_from (x y m : DepConstraint) : Prop :=
  ∃ vx vy v,
    parse_version_spec (version_spec x) = Ok vx
    ∧ parse_version_spec (version_spec y) = Ok vy
    ∧ intersect vx vy = Some v
    ∧ m = mkDepConstraint (to_pep508_string v) (Some (label x))
            (version_spec_field x) (origin_spec x).

Definition conflicting (d1 d2 : DepConstraints) : Prop :=
  ∃ x y, x ∈ d1 ∧ y ∈ d2 ∧ label x = label y ∧ contradictory x y.
End MergeVocabulary.

(** ** The world: files, spawned processes, log *)

(** A file path is a directory and a file name in it ([location / "name"]). *)
Abbreviation path := (string * string)%type.
Abbreviation FS := (gmap (string * string) string).

Inductive env_item : Type :=
| PassThrough (var : string)
| NewEnvVar (var value : string).

Record proc_call : Type := mkProc {
  cmd : string;
  cwd : string;
  env : list env_item;
  capture_stdout : bool
}.

Inductive level : Type := TRACE | DEBUG | INFO | WARNING | ERROR.

Inductive message : Type :=
| MsgIncompatibleDependency (depname : string) (locations : list string)
| MsgInstallingLocalPackages (names : list string)
| MsgLockInconsistent (pkg_name : string)
| MsgOutdated (latest_version running : string)
| MsgUpToDate.

Record World : Type := mkWorld {
  files : FS;
  procs : list proc_call;
  logs : list (level * message)
}.

Definition M (A : Type) : Type := World → result A * World.

#[global] Instance M_ret : MRet M := fun _ a w => (Ok a, w).
#[global] Instance M_bind : MBind M := fun _ _ f m w =>
  match m w with
  | (Ok a, w') => f a w'
  | (Raise e, w') => (Raise e, w')
  end.

Definition raise {A} (e : exn) : M A := fun w => (Raise e, w).

Definition lift {A} (r : result A) : M A := fun w => (r, w).

Definition set_files (fs : FS) (w : World) : World :=
  mkWorld fs (procs w) (logs w).

Definition logger (lv : level) (msg : message) : M unit := fun w =>
  (Ok (), mkWorld (files w) (procs w) (logs w ++ [(lv, msg)])).

(** [try: body finally: fin]: [fin] always runs; what it raises replaces the
    outcome of [body]. *)
Definition try_finally {A} (body : M A) (fin : M unit) : M A := fun w =>
  let '(r, w1) := body w in
  match fin w1 with
  | (Ok _, w2) => (r, w2)
  | (Raise e, w2) => (Raise e, w2)
  end.

(** [try: body except ExecProcessError: handler] *)
Definition except_ExecProcessError {A} (body handler : M A) : M A := fun w =>
  match body w with
  | (Raise (ExecProcessError _), w1) => handler w1
  | out => out
  end.

Definition path_exists (p : path) : M bool := fun w =>
  (Ok (bool_decide (is_Some (files w !! p))), w).

(** [os.rename(src, dst)]: replaces [dst] when it is there. *)
Definition os_rename (src dst : path) : M unit := fun w =>
  match files w !! src with
  | None => (Raise (FileNotFoundError src.1 src.2), w)
  | Some c => (Ok (), set_files (<[dst := c]> (delete src (files w))) w)
  end.

Definition shutil_copy (src dst : path) : M unit := fun w =>
  match files w !! src with
  | None => (Raise (FileNotFoundError src.1 src.2), w)
  | Some c => (Ok (), set_files (<[dst := c]> (files w)) w)
  end.

(** [with open(p, "w") as f: f.write(text)] *)
Definition write_file (p : path) (text : string) : M unit := fun w =>
  (Ok (), set_files (<[p := text]> (files w)) w).

(** Modelled from the spec: [sbt.misc.mask_file] is not among these files.
    "On entry it moves the file aside (if present) so a new file can be
    written at that path; on exit (success or failure) it restores the
    original file, removing the new file if no original existed." *)
Definition mask_file {A} (p : path) (body : M A) : M A := fun w =>
  let saved := files w !! p in
  let '(r, w1) := body (set_files (delete p (files w)) w) in
  (r, set_files (match saved with
                 | Some c => <[p := c]> (files w1)
                 | None => delete p (files w1)
                 end) w1).

(** A relation between the world before and the world after that every run
    of a computation satisfies. *)
Definition respects {A} (R : World → World → Prop) (m : M A) : Prop :=
  ∀ w, R w (m w).2.

(** The file at [p] is what it was. *)
Definition same_file (p : path) (w w' : World) : Prop :=
  files w' !! p = files w !! p.

(** No file changed and no process ran. *)
Definition untouched (w w' : World) : Prop :=
  files w' = files w ∧ procs w' = procs w.

(** The processes that ran in between all satisfy [P]. *)
Definition spawned (P : proc_call → Prop) (w w' : World) : Prop :=
  ∃ calls, procs w' = procs w ++ calls ∧ Forall P calls.

(** ** TOML documents *)

Inductive KeyType : Type := Bare | Basic.

Inductive doc_item : Type :=
| DocTable (key : string) (t : option KeyType) (tbl : list (string * toml))
| DocNl.

Abbreviation document := (list doc_item).

(** ** Configuration ([sbt.config.PBTConfig], not part of these files) *)
Record PBTConfig : Type := mkConfig {
  cfg_cwd : string;
  ignore_directories : list string;
  ignore_directory_names : list string;
  python_virtualenvs_path : string;
  get_python_path : string;
  pkg_cache_dir : Package → string
}.

(** ** What the command reaches outside these files: tomlkit's [dumps], the
    operating system and the processes behind [sbt.misc.exec], and the
    configuration and discovery modules. *)
Class Externals : Type := {
  dumps : document → string;
  (** exit status zero or not, and the files the process leaves behind *)
  run_process : proc_call → FS → bool * FS;
  venv_path : string → string → string → string → string;
  os_pathsep : string;
  os_environ : list (string * string);
  PBTConfig_from_dir : string → FS → result PBTConfig;
  discover_packages :
    string → list string → list string → bool → FS → result (list (string * Package))
}.

(** ** The install command *)

(** environment variables that will be passed to the subprocess *)
Definition PASSTHROUGH_ENVS : list string :=
  ["PATH"; "CC"; "CXX"; "LIBCLANG_PATH"; "LD_LIBRARY_PATH"; "C_INCLUDE_PATH";
   "CPLUS_INCLUDE_PATH"; "CARGO_HOME"; "RUSTUP_HOME"].

(** [sum(int(x != pkg.name) for x in pkg.include) > 0] *)
Definition needs_packages_entry (pkg : Package) : bool :=
  bool_decide (0 < sum_list ((fun x => if decide (x ≠ name pkg) then 1 else 0) <$> include pkg)).

(** The [tool.poetry] table both generated manifests start with. *)
Definition poetry_table (pkg : Package) : list (string * toml) :=
  [("name", TStr (name pkg)); ("version", TStr (version pkg));
   ("description", TStr ""); ("authors", TArr false [])]
  ++ (if needs_packages_entry pkg
      then [("packages",
             TArr false ((fun x => TInline [(Some "include", TStr x)]) <$> include pkg))]
      else []).

Definition build_system_table : list (string * toml) :=
  [("requires", TArr false [TStr "poetry-core>=1.0.0"]);
   ("build-backend", TStr "poetry.core.masonry.api")].

Definition serialize_dep_specs (specs : DepConstraints) : toml :=
  let items :=
    (fun spec =>
       match origin_spec spec with
       | None => TStr (version_spec spec)
       | Some origin =>
           TInline ((version_spec_field spec, TStr (version_spec spec))
                    :: ((fun kv => (Some kv.1, kv.2)) <$> origin))
       end) <$> specs in
  match items with
  | [item] => item
  | _ => TArr true items
  end.

(** The document [install_bare_pkg] writes. *)
Definition bare_manifest (pkg : Package) : document :=
  [DocTable "tool.poetry" (Some Bare) (poetry_table pkg);
   DocNl;
   DocTable "build-system" None build_system_table].

(** The document [install_pkg_dependencies] writes. *)
Definition merged_manifest (pkg : Package) (deps : list (string * DepConstraints)) : document :=
  [DocTable "tool.poetry" (Some Bare) (poetry_table pkg);
   DocNl;
   DocTable "tool.poetry.dependencies" (Some Bare)
     ((fun d => (d.1, serialize_dep_specs d.2)) <$> deps);
   DocNl;
   DocTable "build-system" None build_system_table].

Definition manifest_table (key : string) (doc : document) : option (list (string * toml)) :=
  head (omap (fun i => match i with
                       | DocTable k _ tbl => if decide (k = key) then Some tbl else None
                       | DocNl => None
                       end) doc).

Definition packages_entry (pkg : Package) : toml :=
  TArr false ((fun x => TInline [(Some "include", TStr x)]) <$> include pkg).

Section Install.
Context `{VM : VersionModel} `{EX : Externals}.

(** Modelled from the spec: [sbt.misc.exec] is not among these files.
    "Run an external command with a given working directory and an
    explicit list of environment variables ...  Fails with a
    ProcessExecution error ... when the external command exits
    non-zero." *)
Definition exec (command : string) (dir : string) (capture : bool)
    (vars : list env_item) : M unit := fun w =>
  let call := mkProc command dir vars capture in
  let '(ok, fs) := run_process call (files w) in
  (if ok then Ok () else Raise (ExecProcessError command),
   mkWorld fs (procs w ++ [call]) (logs w)).

Definition get_virtualenv_environment_variables (virtualenv : string)
    : list (string * string) :=
  [("VIRTUAL_ENV", virtualenv);
   ("PATH", (virtualenv +:+ "/bin") +:+ os_pathsep
            +:+ default "" (dict_get "PATH" os_environ))].

Definition quiet_flag (quiet : bool) : string := if quiet then " -q" else "".

(** The [env] list [install_poetry_package] builds for a virtual environment. *)
Definition env_of (virtualenv : string) : list env_item :=
  (PassThrough <$> filter (fun x => x ≠ "PATH") PASSTHROUGH_ENVS)
  ++ ((fun kv => NewEnvVar kv.1 kv.2)
        <$> get_virtualenv_environment_variables virtualenv).

Definition install_poetry_package (pkg : Package) (cfg : PBTConfig)
    (virtualenv : option string) (quiet : bool) : M unit :=
  let virtualenv :=
    match virtualenv with
    | Some v => v
    | None => venv_path (name pkg) (location pkg)
                (python_virtualenvs_path cfg) (get_python_path cfg)
    end in
  let vars := env_of virtualenv in
  has_lock ← path_exists (location pkg, "poetry.lock");
  (if has_lock : bool then
     except_ExecProcessError
       (exec ("poetry check --lock" +:+ quiet_flag quiet) (location pkg) true vars)
       (logger DEBUG (MsgLockInconsistent (name pkg));;
        exec ("poetry lock --no-update" +:+ quiet_flag quiet) (location pkg) false vars)
   else mret ());;
  exec ("poetry install" +:+ quiet_flag quiet) (location pkg) false vars.

(** Install a package without any dependencies in editable mode *)
Definition install_bare_pkg (pkg : Package) (cfg : PBTConfig)
    (virtualenv : option string) : M unit :=
  mask_file (location pkg, "pyproject.toml")
    (mask_file (location pkg, "poetry.lock")
       (write_file (location pkg, "pyproject.toml") (dumps (bare_manifest pkg));;
        install_poetry_package pkg cfg virtualenv true)).

(** The [try] block of [install_pkg_dependencies]. *)
Definition stage_and_install (pkg : Package) (cfg : PBTConfig)
    (virtualenv : option string) : M unit :=
  let cache := pkg_cache_dir cfg pkg in
  os_rename (location pkg, "pyproject.toml") (cache, "pyproject.origin.toml");;
  has_lock ← path_exists (location pkg, "poetry.lock");
  (if has_lock : bool
   then os_rename (location pkg, "poetry.lock") (cache, "poetry.origin.lock")
   else mret ());;
  shutil_copy (cache, "pyproject.modified.toml") (location pkg, "pyproject.toml");;
  has_modified ← path_exists (cache, "poetry.modified.lock");
  (if has_modified : bool
   then shutil_copy (cache, "poetry.modified.lock") (location pkg, "poetry.lock")
   else mret ());;
  install_poetry_package pkg cfg virtualenv false.

(** The [finally] block of [install_pkg_dependencies]. *)
Definition restore (pkg : Package) (cfg : PBTConfig) : M unit :=
  let cache := pkg_cache_dir cfg pkg in
  os_rename (cache, "pyproject.origin.toml") (location pkg, "pyproject.toml");;
  has_lock ← path_exists (location pkg, "poetry.lock");
  (if has_lock : bool
   then os_rename (location pkg, "poetry.lock") (cache, "poetry.modified.lock")
   else mret ());;
  has_origin ← path_exists (cache, "poetry.origin.lock");
  (if has_origin : bool
   then os_rename (cache, "poetry.origin.lock") (location pkg, "poetry.lock")
   else mret ()).

Definition install_pkg_dependencies (pkg : Package)
    (deps : list (string * DepConstraints)) (cfg : PBTConfig)
    (virtualenv : option string) : M unit :=
  write_file (pkg_cache_dir cfg pkg, "pyproject.modified.toml")
    (dumps (merged_manifest pkg deps));;
  try_finally (stage_and_install pkg cfg virtualenv) (restore pkg cfg).

(** The two dictionaries of step 1: [thirdparty_pkgs] and
    [invalid_thirdparty_pkgs]. *)
Record aggregation : Type := mkAgg {
  thirdparty_pkgs : list (string * (gset string * DepConstraints));
  invalid_thirdparty_pkgs : gset string
}.

(** One round of the inner loop, for the dependency [dep] of [pkg].  The
    set of requiring packages is updated in place before
    [find_common_specs] runs, so the update survives a raise. *)
Definition aggregate_dep (packages : list (string * Package))
    (ignore_invalid_dependency : bool) (pkg : Package)
    (st : aggregation) (dep : string * DepConstraints) : M aggregation :=
  let '(depname, depspecs) := dep in
  if dict_has depname packages
     || bool_decide (depname ∈ invalid_thirdparty_pkgs st)
  then mret st
  else
    match dict_get depname (thirdparty_pkgs st) with
    | None =>
        mret (mkAgg (dict_set depname ({[name pkg]}, depspecs) (thirdparty_pkgs st))
                (invalid_thirdparty_pkgs st))
    | Some (users, specs) =>
        let users := users ∪ {[name pkg]} in
        let touched := dict_set depname (users, specs) (thirdparty_pkgs st) in
        match find_common_specs specs depspecs with
        | Ok common =>
            mret (mkAgg (dict_set depname (users, common) touched)
                    (invalid_thirdparty_pkgs st))
        | Raise (IncompatibleDependencyError why a b) =>
            locations ← lift (mapM (M := result)
              (fun pkgname =>
                 match dict_get pkgname packages with
                 | Some p => Ok (location p)
                 | None => Raise (KeyError pkgname)
                 end) (elements users));
            logger ERROR (MsgIncompatibleDependency depname locations);;
            if ignore_invalid_dependency
            then mret (mkAgg touched ({[depname]} ∪ invalid_thirdparty_pkgs st))
            else raise (IncompatibleDependencyError why a b)
        | Raise e => raise e
        end
    end.

(** step 1: gather all dependencies in one file *)
Definition aggregate (packages : list (string * Package))
    (ignore_invalid_dependency : bool) : M aggregation :=
  foldlM (fun st pkg =>
            foldlM (aggregate_dep packages ignore_invalid_dependency pkg)
              st (dependencies pkg))
    (mkAgg [] ∅) (packages.*2).

(** [{depname: depspecs for depname, (_, depspecs) in thirdparty_pkgs.items()}] *)
Definition merged_deps (st : aggregation) : list (string * DepConstraints) :=
  (fun e => (e.1, e.2.2)) <$> thirdparty_pkgs st.

Definition getitem (packages : list (string * Package)) (key : string) : M Package :=
  match dict_get key packages with
  | Some p => mret p
  | None => raise (KeyError key)
  end.

(** The rest of the command once the target is installed: a bare editable
    install of every other local package, in the environment of the target. *)
Definition install_siblings (packages : list (string * Package)) (package : string)
    (cfg : PBTConfig) : M unit :=
  let local_dep_pkgs := filter (fun pkg => name pkg ≠ package) (packages.*2) in
  logger INFO (MsgInstallingLocalPackages (name <$> local_dep_pkgs));;
  target ← getitem packages package;
  let pkg_venv_path :=
    venv_path (name target) (location target)
      (python_virtualenvs_path cfg) (get_python_path cfg) in
  foldlM (fun _ pkg => install_bare_pkg pkg cfg (Some pkg_venv_path)) () local_dep_pkgs.

(** step 2 of the command: the target, then every other local package. *)
Definition install_packages (packages : list (string * Package)) (package : string)
    (cfg : PBTConfig) (st : aggregation) : M unit :=
  target ← getitem packages package;
  install_pkg_dependencies target (merged_deps st) cfg None;;
  install_siblings packages package cfg.

Definition install (package : string) (cwd : string)
    (ignore_invalid_pkg ignore_invalid_dependency verbose : bool) : M unit :=
  cfg ← (fun w => (PBTConfig_from_dir cwd (files w), w));
  packages ← (fun w =>
    (discover_packages (cfg_cwd cfg) (ignore_directories cfg)
       (ignore_directory_names cfg) ignore_invalid_pkg (files w), w));
  st ← aggregate packages ignore_invalid_dependency;
  install_packages packages package cfg st.
End Install.

(** The commands [install_poetry_package] may run for a package. *)
Definition toolchain_call (pkg : Package) (quiet : bool) (call : proc_call) : Prop :=
  cwd call = location pkg
  ∧ cmd call ∈ ["poetry check --lock" +:+ quiet_flag quiet;
                "poetry lock --no-update" +:+ quiet_flag quiet;
                "poetry install" +:+ quiet_flag quiet].

(** The process behind [exec] leaves the file at [p] alone. *)
Definition leaves_alone `{EX : Externals} (p : path) : Prop :=
  ∀ call fs, (run_process call fs).2 !! p = fs !! p.

(** The state keeps an entry for every name it has marked invalid. *)
Definition keeps_invalid (st : aggregation) : Prop :=
  ∀ k, k ∈ invalid_thirdparty_pkgs st → k ∈ dict_keys (thirdparty_pkgs st).

(** A command of the bare install of some local package other than the
    target. *)
Definition sibling_call (packages : list (string * Package)) (package : string)
    (call : proc_call) : Prop :=
  ∃ pkg, pkg ∈ packages.*2 ∧ name pkg ≠ package ∧ toolchain_call pkg true call.

(** The dependency names of the local packages that are not local packages
    themselves. *)
Definition third_party_name (packages : list (string * Package)) (d : string) : Prop :=
  ∃ pkg, pkg ∈ packages.*2 ∧ d ∈ dict_keys (dependencies pkg) ∧ d ∉ dict_keys packages.

(** ** The dependency graph *)

Record ThirdPartyPackage : Type := mkThirdParty {
  tp_name : string;
  tp_type : PackageType;
  (** mapping from source package that use this package to the version the
      source package depends on *)
  invert_dependencies : list (string * DepConstraints)
}.

(** The [pkg] attribute of a node. *)
Inductive node_pkg : Type :=
| LocalNode (p : Package)
| ThirdPartyNode (t : ThirdPartyPackage).

Definition node_name (a : node_pkg) : string :=
  match a with
  | LocalNode p => name p
  | ThirdPartyNode t => tp_name t
  end.

Definition is_third_party (a : node_pkg) : bool :=
  match a with ThirdPartyNode _ => true | LocalNode _ => false end.

Definition is_local (a : node_pkg) : bool :=
  match a with LocalNode _ => true | ThirdPartyNode _ => false end.

(** What the code uses of [networkx.DiGraph]: nodes with their attribute in
    insertion order, and edges in insertion order (which gives each node's
    successors in the order networkx iterates them). *)
Record DiGraph : Type := mkDiGraph {
  g_nodes : list (string * node_pkg);
  g_edges : list (string * string)
}.

Definition has_node (g : DiGraph) (n : string) : bool := dict_has n (g_nodes g).

Definition add_node (g : DiGraph) (n : string) (attr : node_pkg) : DiGraph :=
  mkDiGraph (dict_set n attr (g_nodes g)) (g_edges g).

(** [from_pkgs] only adds an edge between two nodes that are there. *)
Definition add_edge (g : DiGraph) (u v : string) : DiGraph :=
  mkDiGraph (g_nodes g)
    (if bool_decide ((u, v) ∈ g_edges g) then g_edges g else g_edges g ++ [(u, v)]).

Definition edge (g : DiGraph) (u v : string) : Prop := (u, v) ∈ g_edges g.

Definition successors (g : DiGraph) (u : string) : list string :=
  (filter (fun e => e.1 = u) (g_edges g)).*2.

(** Depth-first search with an explicit stack; [visited] grows at its head,
    so it is the pre-order read backwards. *)
Fixpoint dfs_visit (g : DiGraph) (fuel : nat) (stack visited : list string) : list string :=
  match fuel with
  | 0 => visited
  | S fuel' =>
      match stack with
      | [] => visited
      | v :: stack' =>
          if decide (v ∈ visited)
          then dfs_visit g fuel' stack' visited
          else dfs_visit g fuel' (successors g v ++ stack') (v :: visited)
      end
  end.

(** Every node that can be pushed pays for its own visit and for the pushes
    of its successors. *)
Definition dfs_weight (g : DiGraph) (universe visited : list string) : nat :=
  sum_list ((fun u => if decide (u ∈ visited) then 0 else S (length (successors g u)))
              <$> universe).

Definition dfs_fuel (g : DiGraph) (source : string) : nat :=
  2 + dfs_weight g (source :: (g_edges g).*2) [].

(** [list(nx.dfs_preorder_nodes(g, source))] *)
Definition dfs_preorder_nodes (g : DiGraph) (source : string) : list string :=
  reverse (dfs_visit g (dfs_fuel g source) [source] []).

(** [nx.find_cycle(g, orientation="original")], as far as [from_pkgs] looks
    at it: an edge that closes a cycle, or [None] for [NetworkXNoCycle]. *)
Definition find_cycle (g : DiGraph) : option (string * string) :=
  head (filter (fun e => e.1 ∈ dfs_preorder_nodes g e.2) (g_edges g)).

Definition has_cycle (g : DiGraph) : Prop := ∃ v, tc (edge g) v v.

Module PkgGraph.

Record t : Type := mk { g : DiGraph }.

(** One round of the inner loop of [from_pkgs]. *)
Definition add_dependency (pkgs : list (string * Package)) (pkg : Package)
    (g : DiGraph) (dep : string * DepConstraints) : result DiGraph :=
  let '(dep, specs) := dep in
  g' ← (if negb (has_node g dep)
        then
          if dict_has dep pkgs then Raise AssertionError
          else Ok (add_node g dep
                     (ThirdPartyNode (mkThirdParty dep (type pkg) [(name pkg, specs)])))
        else
          match dict_get dep (g_nodes g) with
          | Some (ThirdPartyNode dep_pkg) =>
              Ok (add_node g dep
                    (ThirdPartyNode
                       (mkThirdParty (tp_name dep_pkg) (tp_type dep_pkg)
                          (dict_set (name pkg) specs (invert_dependencies dep_pkg)))))
          | Some (LocalNode _) => Ok g
          | None => Raise (KeyError dep)
          end);
  Ok (add_edge g' (name pkg) dep).

(** The graph [from_pkgs] has built when it looks for a cycle. *)
Definition build (pkgs : list (string * Package)) : result DiGraph :=
  let g := foldl (fun g pkg => add_node g (name pkg) (LocalNode pkg))
             (mkDiGraph [] []) (pkgs.*2) in
  foldlM (fun g pkg => foldlM (add_dependency pkgs pkg) g (dependencies pkg))
    g (pkgs.*2).

Definition from_pkgs (pkgs : list (string * Package)) : result t :=
  g ← build pkgs;
  match find_cycle g with
  | Some cycles => Raise (CyclicDependencies cycles)
  | None => Ok (mk g)
  end.

Definition node_attr (G : t) (uid : string) : result node_pkg :=
  match dict_get uid (g_nodes (g G)) with
  | Some a => Ok a
  | None => Raise (KeyError uid)
  end.

Definition dependencies (G : t) (pkg_name : string) : result (list node_pkg) :=
  if negb (has_node (g G) pkg_name) then Raise (KeyError pkg_name)
  else
    match dfs_preorder_nodes (g G) pkg_name with
    | [] => Raise (OtherError "IndexError")
    | first :: nodes =>
        if decide (first = pkg_name)
        then mapM (node_attr G) nodes
        else Raise AssertionError
    end.

Definition third_party_dependencies (G : t) (pkg_name : string)
    : result (list ThirdPartyPackage) :=
  deps ← dependencies G pkg_name;
  Ok (omap (M := list)
        (fun a => match a with ThirdPartyNode tp => Some tp | _ => None end) deps).

Definition local_dependencies (G : t) (pkg_name : string) : result (list Package) :=
  deps ← dependencies G pkg_name;
  Ok (omap (M := list)
        (fun a => match a with LocalNode p => Some p | _ => None end) deps).

End PkgGraph.

(** The dictionary of local packages maps each package's name to it. *)
Definition keyed_by_name (pkgs : list (string * Package)) : Prop :=
  Forall (fun e => e.1 = name e.2) pkgs.

(** [u] is a local package that declares the dependency [v]. *)
Definition depends_on (pkgs : list (string * Package)) (u v : string) : Prop :=
  ∃ pkg, pkg ∈ pkgs.*2 ∧ name pkg = u ∧ v ∈ dict_keys (dependencies pkg).

(** Every node carries the package of its own name, and every edge ends in
    a node. *)
Definition well_formed (g : DiGraph) : Prop :=
  (∀ k a, dict_get k (g_nodes g) = Some a → node_name a = k)
  ∧ (∀ u v, edge g u v → v ∈ dict_keys (g_nodes g)).

(** ** The entry point *)

Section Main.
(** [version] is the installed version of pbt-simple;
    [get_latest_version] is the registry client's only method. *)
Context (version_running : string) (get_latest_version : string → option string).

Definition check_upgrade : M unit :=
  let latest_version := get_latest_version "pbt-simple" in
  match latest_version with
  | Some latest =>
      if decide (version_running ≠ latest)
      then logger WARNING (MsgOutdated latest version_running)
      else logger TRACE MsgUpToDate
  | None => logger TRACE MsgUpToDate
  end.

(** The group callback runs, then the chosen subcommand. *)
Definition cli (subcommand : M unit) : M unit :=
  check_upgrade;; subcommand.
End Main.

(** ** A small instance of the interfaces, to run the code on examples *)

Module Demo.

(** Version ranges over a one-digit major version: a lower bound and an
    optional upper bound, written [>=N], [<N] or [>=N,<M]. *)
Definition digit (c : ascii) : option nat :=
  let n := nat_of_ascii c in
  if bool_decide (48 ≤ n ≤ 57) then Some (n - 48) else None.

Definition show_digit (n : nat) : string :=
  String (ascii_of_nat (48 + n)) EmptyString.

Definition parse_clause (s : string) : option (nat * option nat) :=
  match s with
  | String ">" (String "=" (String d EmptyString)) => n ← digit d; Some (n, None)
  | String "<" (String d EmptyString) => n ← digit d; Some (0, Some n)
  | String ">" (String "=" (String d (String "," (String "<" (String e EmptyString))))) =>
      n ← digit d; m ← digit e; Some (n, Some m)
  | _ => None
  end.

Definition meet (a b : nat * option nat) : option (nat * option nat) :=
  let lo := a.1 `max` b.1 in
  let hi := match a.2, b.2 with
            | Some x, Some y => Some (x `min` y)
            | Some x, None => Some x
            | None, y => y
            end in
  match hi with
  | Some h => if bool_decide (lo < h) then Some (lo, hi) else None
  | None => Some (lo, hi)
  end.

Definition show_range (r : nat * option nat) : string :=
  match r with
  | (lo, None) => ">=" +:+ show_digit lo
  | (0, Some h) => "<" +:+ show_digit h
  | (lo, Some h) => ">=" +:+ show_digit lo +:+ ",<" +:+ show_digit h
  end.

Definition versions : VersionModel := {|
  VersionSpec := nat * option nat;
  parse_version_spec := fun s =>
    match parse_clause s with
    | Some r => Ok r
    | None => Raise (InvalidVersionSpec s)
    end;
  intersect := meet;
  to_pep508_string := show_range
|}.

Fixpoint show_toml (v : toml) : string :=
  match v with
  | TStr s => s
  | TArr _ xs => "[" +:+ String.concat ", " (map show_toml xs) +:+ "]"
  | TInline kv =>
      "{" +:+ String.concat ", "
                (map (fun e => default "" (fst e) +:+ " = " +:+ show_toml (snd e)) kv)
          +:+ "}"
  end.

Definition show_item (i : doc_item) : string :=
  match i with
  | DocNl => String "010" EmptyString
  | DocTable key _ tbl =>
      "[" +:+ key +:+ "] "
      +:+ String.concat "; " (map (fun e => fst e +:+ " = " +:+ show_toml (snd e)) tbl)
      +:+ String "010" EmptyString
  end.

Definition lock_for (manifest : string) : string := "locked: " +:+ manifest.

(** A stand-in for the packaging toolchain: it needs a manifest in the
    working directory, refuses to work in a directory named [/ws/broken],
    checks the lock against the manifest and writes a lock otherwise. *)
Definition toolchain (call : proc_call) (fs : FS) : bool * FS :=
  match fs !! (cwd call, "pyproject.toml") with
  | None => (false, fs)
  | Some manifest =>
      if String.prefix "poetry check" (cmd call)
      then (bool_decide (fs !! (cwd call, "poetry.lock") = Some (lock_for manifest)), fs)
      else if decide (cwd call = "/ws/broken")
      then (false, <[(cwd call, "poetry.lock") := "partial"]> fs)
      else (true, <[(cwd call, "poetry.lock") := lock_for manifest]> fs)
  end.

Definition config : PBTConfig := {|
  cfg_cwd := "/ws";
  ignore_directories := [];
  ignore_directory_names := [];
  python_virtualenvs_path := "/venvs";
  get_python_path := "/usr/bin/python3";
  pkg_cache_dir := fun pkg => "/ws/.cache/" +:+ name pkg
|}.

Definition plain (spec : string) : DepConstraint := mkDepConstraint spec None None None.

(** The workspace of the end-to-end scenario: [core] without dependencies,
    [api] depending on [core] and on [requests>=2]. *)
Definition core : Package :=
  mkPackage "core" "1.0.0" "/ws/core" ["core"] [] Standard.
Definition api : Package :=
  mkPackage "api" "0.3.0" "/ws/api" ["api"]
    [("core", [plain ">=1"]); ("requests", [plain ">=2"])] Standard.
Definition workspace : list (string * Package) := [("core", core); ("api", api)].

(** Two packages that disagree on [foo]. *)
Definition left : Package :=
  mkPackage "left" "1.0.0" "/ws/left" ["left"] [("foo", [plain ">=2"])] Standard.
Definition right : Package :=
  mkPackage "right" "1.0.0" "/ws/right" ["right"] [("foo", [plain "<1"])] Standard.
Definition clash : list (string * Package) := [("left", left); ("right", right)].

Definition externals (found : list (string * Package)) : Externals := {|
  dumps := fun doc => String.concat "" (map show_item doc);
  run_process := toolchain;
  venv_path := fun n _ root _ => root +:+ "/" +:+ n;
  os_pathsep := ":";
  os_environ := [("PATH", "/usr/bin")];
  PBTConfig_from_dir := fun _ _ => Ok config;
  discover_packages := fun _ _ _ _ _ => Ok found
|}.

Definition manifest_of (pkg : Package) : string := "real manifest of " +:+ name pkg.

(** The files of a workspace before any install: every package has its
    manifest, none has a lock. *)
Definition fresh (found : list (string * Package)) : World :=
  mkWorld (list_to_map ((fun e => ((location e.2, "pyproject.toml"), manifest_of e.2))
                          <$> found)) [] [].

(** A package the stand-in toolchain fails on, with a lock file of its own. *)
Definition broken : Package :=
  mkPackage "broken" "0.1.0" "/ws/broken" ["broken"]
    [("requests", [plain ">=2"])] Standard.

Definition broken_world : World :=
  mkWorld (<[("/ws/broken", "poetry.lock") := "real lock of broken"]>
             (files (fresh [("broken", broken)]))) [] [].

End Demo.


(** ** Further vocabulary *)

Section Calls.
Context `{EX : Externals}.

(** The virtual environment [install_poetry_package] works in. *)
Definition resolved_virtualenv (pkg : Package) (cfg : PBTConfig)
    (virtualenv : option string) : string :=
  match virtualenv with
  | Some v => v
  | None => venv_path (name pkg) (location pkg)
              (python_virtualenvs_path cfg) (get_python_path cfg)
  end.

(** One call of [exec] by [install_poetry_package]. *)
Definition poetry_call (pkg : Package) (virtualenv : string) (quiet : bool)
    (command : string) (capture : bool) : proc_call :=
  mkProc (command +:+ quiet_flag quiet) (location pkg) (env_of virtualenv) capture.

(** The files the process of a bare install finds: the real manifest and
    lock masked, the minimal manifest in place. *)
Definition bare_files (pkg : Package) (fs : FS) : FS :=
  <[(location pkg, "pyproject.toml") := dumps (bare_manifest pkg)]>
    (delete (location pkg, "poetry.lock") (delete (location pkg, "pyproject.toml") fs)).
End Calls.

(** ** Vocabulary of the dependency graph *)

(** The dependency declarations of the local packages, in the order the two
    loops of [from_pkgs] meet them. *)
Definition declared (pkgs : list Package) : list (Package * (string * DepConstraints)) :=
  pkg ← pkgs; (fun e => (pkg, e)) <$> dependencies pkg.

(** The declarations of one dependency name. *)
Definition declarations (pkgs : list Package) (dep : string)
    : list (Package * (string * DepConstraints)) :=
  filter (fun pe => pe.2.1 = dep) (declared pkgs).

(** [invert_dependencies] after the assignments
    [invert_dependencies[pkg.name] = specs] of the declarations in turn. *)
Definition inverted (decls : list (Package * (string * DepConstraints)))
    : list (string * DepConstraints) :=
  foldl (fun d pe => dict_set (name pe.1) pe.2.2 d) [] decls.

(** The node of a dependency name with the declarations [decls]: none
    without a declaration; otherwise a third-party package of the type of
    the package that declares it first. *)
Definition third_party_node (dep : string)
    (decls : list (Package * (string * DepConstraints))) : option node_pkg :=
  match decls with
  | [] => None
  | first :: _ => Some (ThirdPartyNode (mkThirdParty dep (type first.1) (inverted decls)))
  end.

(** [(self.g.nodes[pkg]["pkg"] for pkg in self.g.nodes)], as a list *)
Definition iter_pkg (G : PkgGraph.t) : result (list node_pkg) :=
  mapM (PkgGraph.node_attr G) (dict_keys (g_nodes (PkgGraph.g G))).

(** ** Vocabulary of the aggregation *)

(** Every package recorded as requiring a dependency is a key of the
    dictionary of local packages. *)
Definition users_known (packages : list (string * Package)) (st : aggregation) : Prop :=
  ∀ d users specs,
    dict_get d (thirdparty_pkgs st) = Some (users, specs) →
    ∀ n, n ∈ users → n ∈ dict_keys packages.

(** The error line of a conflict on a dependency, with the locations of the
    packages that require it. *)
Definition conflict_entry (conflict : string * list string) : level * message :=
  (ERROR, MsgIncompatibleDependency conflict.1 conflict.2).

Definition is_incompatibility (e : exn) : Prop :=
  ∃ why a b, e = IncompatibleDependencyError why a b.

(** The process behind [exec] only writes in its working directory. *)
Definition confined `{EX : Externals} : Prop :=
  ∀ call fs d f, d ≠ cwd call → (run_process call fs).2 !! (d, f) = fs !! (d, f).
(** * Properties *)

(** ** The start-up check *)

Lemma check_upgrade_run (running : string) (registry : string → option string) (w : World) :
  ∃ entry,
    check_upgrade running registry w
    = (Ok (), mkWorld (files w) (procs w) (logs w ++ [entry]))
    ∧ (entry.1 = WARNING ∨ entry.1 = TRACE)
    ∧ (entry.1 = WARNING ↔ ∃ latest, registry "pbt-simple" = Some latest ∧ latest ≠ running).
Proof.
  unfold check_upgrade.
  destruct (registry "pbt-simple") as [latest|] eqn:Hq.
  - destruct (decide (running ≠ latest)) as [Hne|Heq].
    + eexists; split; [reflexivity|]. simpl. split; [by left|].
      split; [|done]. intros _. exists latest. split; congruence.
    + eexists; split; [reflexivity|]. simpl. split; [by right|].
      split; [done|]. intros (l & Hl & Hne). destruct Heq. congruence.
  - eexists; split; [reflexivity|]. simpl. split; [by right|].
    split; [done|]. by intros (l & Hl & _).
Qed.

(** C9.  Whatever the registry client answers, a version string or nothing,
    [check_upgrade] returns normally and adds one log entry, a warning
    exactly when a version was answered that differs from the running one
    (a trace otherwise); the group callback therefore always goes on to run
    the requested subcommand, from the world the check left. *)
Theorem check_upgrade_never_aborts :
  ∀ (running : string) (registry : string → option string)
    (subcommand : M unit) (w : World),
    ∃ entry,
      check_upgrade running registry w
      = (Ok (), mkWorld (files w) (procs w) (logs w ++ [entry]))
      ∧ (entry.1 = WARNING ∨ entry.1 = TRACE)
      ∧ (entry.1 = WARNING
         ↔ ∃ latest, registry "pbt-simple" = Some latest ∧ latest ≠ running)
      ∧ cli running registry subcommand w
        = subcommand (mkWorld (files w) (procs w) (logs w ++ [entry])).
Proof.
  intros running registry subcommand w.
  destruct (check_upgrade_run running registry w) as (entry & Hrun & Hlv & Hwarn).
  exists entry. repeat split; try done; try apply Hwarn.
  unfold cli, mbind, M_bind. by rewrite Hrun.
Qed.

(** ** The generated manifests *)

Lemma needs_packages_entry_iff (pkg : Package) :
  needs_packages_entry pkg = true ↔ ¬ Forall (fun x => x = name pkg) (include pkg).
Proof.
  unfold needs_packages_entry. rewrite bool_decide_eq_true.
  induction (include pkg) as [|x l IH]; simpl.
  - split; [lia|]. intros H. destruct H. constructor.
  - rewrite Forall_cons. destruct (decide (x ≠ name pkg)) as [Hne|Heq].
    + split; [|lia]. intros _ [? _]. done.
    + apply dec_stable in Heq. simpl. rewrite IH. naive_solver.
Qed.

Lemma poetry_table_packages (pkg : Package) :
  dict_get "packages" (poetry_table pkg)
  = if needs_packages_entry pkg then Some (packages_entry pkg) else None.
Proof. unfold poetry_table. by destruct (needs_packages_entry pkg). Qed.

(** C7, as the code has it.  Both generated manifests carry the same
    [tool.poetry] table.  It has no [packages] entry exactly when every entry
    of the include list is the package's own name, which covers the list
    [[name]] but also the empty list; otherwise the entry is there and lists
    every entry of the include list, in order. *)
Theorem packages_entry_when_needed :
  ∀ (pkg : Package) (deps : list (string * DepConstraints)),
    manifest_table "tool.poetry" (bare_manifest pkg) = Some (poetry_table pkg)
    ∧ manifest_table "tool.poetry" (merged_manifest pkg deps) = Some (poetry_table pkg)
    ∧ (include pkg = [name pkg] → dict_get "packages" (poetry_table pkg) = None)
    ∧ (Forall (fun x => x = name pkg) (include pkg)
       → dict_get "packages" (poetry_table pkg) = None)
    ∧ (¬ Forall (fun x => x = name pkg) (include pkg)
       → dict_get "packages" (poetry_table pkg) = Some (packages_entry pkg)).
Proof.
  intros pkg deps. rewrite poetry_table_packages.
  pose proof (needs_packages_entry_iff pkg) as Hiff.
  split; [done|]. split; [done|].
  destruct (needs_packages_entry pkg); repeat split; try done.
  - intros Heq. destruct (proj1 Hiff eq_refl). rewrite Heq. by repeat constructor.
  - intros Hall. by destruct (proj1 Hiff eq_refl).
  - intros Hn. destruct Hn. apply dec_stable. intros Hn. by apply Hiff in Hn.
Qed.

(** C7, as the specification words it, fails: the empty include list is not
    [[name]], yet the manifests have no [packages] entry for it. *)
Lemma packages_entry_absent_for_empty_include :
  let pkg := mkPackage "core" "1.0.0" "/ws/core" [] [] Standard in
  include pkg ≠ [name pkg]
  ∧ manifest_table "tool.poetry" (bare_manifest pkg) = Some (poetry_table pkg)
  ∧ manifest_table "tool.poetry" (merged_manifest pkg []) = Some (poetry_table pkg)
  ∧ dict_get "packages" (poetry_table pkg) = None.
Proof. simpl. repeat split; done. Qed.

(** ** Dictionaries *)

Section DictFacts.
Context {V : Type}.
Implicit Types (d : list (string * V)) (k : string) (v : V).

Lemma dict_set_fresh k v d : k ∉ dict_keys d → dict_set k v d = d ++ [(k, v)].
Proof.
  unfold dict_keys. induction d as [|[k' v'] d IH]; simpl; [done|].
  intros Hk. apply not_elem_of_cons in Hk as [Hne Hk].
  destruct (decide (k = k')); [done|]. by rewrite IH.
Qed.

Lemma dict_keys_set_present k v d : k ∈ dict_keys d → dict_keys (dict_set k v d) = dict_keys d.
Proof.
  unfold dict_keys. induction d as [|[k' v'] d IH]; simpl.
  - by intros ?%elem_of_nil.
  - intros Hk. destruct (decide (k = k')) as [->|Hne]; [done|].
    simpl. f_equal. apply IH. apply elem_of_cons in Hk as [?|?]; done.
Qed.

Lemma dict_keys_set k v d :
  dict_keys (dict_set k v d)
  = if decide (k ∈ dict_keys d) then dict_keys d else dict_keys d ++ [k].
Proof.
  destruct (decide (k ∈ dict_keys d)) as [Hin|Hout].
  - by apply dict_keys_set_present.
  - rewrite dict_set_fresh by done. unfold dict_keys. by rewrite fmap_app.
Qed.

Lemma dict_set_length k v d :
  length (dict_set k v d)
  = if decide (k ∈ dict_keys d) then length d else S (length d).
Proof.
  rewrite <- !(length_fmap fst). fold (dict_keys (dict_set k v d)).
  rewrite dict_keys_set. destruct (decide _); [done|].
  rewrite length_app. simpl. unfold dict_keys. lia.
Qed.

Lemma dict_get_Some_elem k v d : dict_get k d = Some v → (k, v) ∈ d.
Proof.
  induction d as [|[k' v'] d IH]; simpl; [done|].
  destruct (decide (k = k')) as [->|Hne].
  - intros [= ->]. left.
  - intros H. right. by apply IH.
Qed.

Lemma dict_get_Some_key k v d : dict_get k d = Some v → k ∈ dict_keys d.
Proof.
  intros H%dict_get_Some_elem. unfold dict_keys. apply list_elem_of_fmap. by exists (k, v).
Qed.

Lemma dict_get_None k d : dict_get k d = None ↔ k ∉ dict_keys d.
Proof.
  unfold dict_keys. induction d as [|[k' v'] d IH]; simpl.
  - split; [intros _; apply not_elem_of_nil|done].
  - rewrite not_elem_of_cons. destruct (decide (k = k')) as [->|Hne].
    + split; [done|]. by intros [? _].
    + rewrite IH. naive_solver.
Qed.

Lemma dict_get_elem k v d : NoDup (dict_keys d) → (k, v) ∈ d → dict_get k d = Some v.
Proof.
  unfold dict_keys. induction d as [|[k' v'] d IH]; simpl.
  - by intros _ ?%elem_of_nil.
  - intros [Hk' Hnd]%NoDup_cons Hin.
    apply elem_of_cons in Hin as [[= -> ->]|Hin].
    + by rewrite decide_True.
    + destruct (decide (k = k')) as [->|Hne]; [|by apply IH].
      destruct Hk'. apply list_elem_of_fmap. by exists (k', v).
Qed.

Lemma dict_get_set_eq k v d : dict_get k (dict_set k v d) = Some v.
Proof.
  induction d as [|[k' v'] d IH]; simpl.
  - by rewrite decide_True.
  - destruct (decide (k = k')) as [->|Hne]; simpl.
    + by rewrite decide_True.
    + by rewrite decide_False.
Qed.

Lemma dict_get_set_ne k k' v d : k ≠ k' → dict_get k' (dict_set k v d) = dict_get k' d.
Proof.
  intros Hne. induction d as [|[k'' v''] d IH]; simpl.
  - by rewrite decide_False.
  - destruct (decide (k = k'')) as [->|Hne']; simpl.
    + by rewrite !decide_False.
    + by rewrite IH.
Qed.

Lemma dict_keys_app d d' : dict_keys (d ++ d') = dict_keys d ++ dict_keys d'.
Proof. unfold dict_keys. apply fmap_app. Qed.

Lemma dict_has_true k d : dict_has k d = true ↔ k ∈ dict_keys d.
Proof. unfold dict_has. apply bool_decide_eq_true. Qed.

Lemma dict_has_false k d : dict_has k d = false ↔ k ∉ dict_keys d.
Proof. unfold dict_has. apply bool_decide_eq_false. Qed.
End DictFacts.

(** ** find_common_specs *)

Lemma label_fold_length (l : DepConstraints) (d : list (string * DepConstraint)) :
  length (foldl (fun d x => dict_set (label x) x d) d l) ≤ length d + length l.
Proof.
  revert d. induction l as [|x l IH]; intros d; simpl; [lia|].
  specialize (IH (dict_set (label x) x d)). rewrite dict_set_length in IH.
  destruct (decide _); lia.
Qed.

Lemma label_fold_full (l : DepConstraints) (d : list (string * DepConstraint)) :
  length (foldl (fun d x => dict_set (label x) x d) d l) = length d + length l
  ↔ NoDup (labels l) ∧ (∀ k, k ∈ labels l → k ∉ dict_keys d).
Proof.
  revert d. induction l as [|x l IH]; intros d; simpl.
  - split; [|lia]. intros _. split; [constructor|]. by intros k ?%elem_of_nil.
  - pose proof (label_fold_length l (dict_set (label x) x d)) as Hle.
    rewrite dict_set_length in Hle.
    rewrite NoDup_cons.
    destruct (decide (label x ∈ dict_keys d)) as [Hin|Hout].
    + split; [lia|]. intros [_ Hdis]. destruct (Hdis (label x)); [left|done].
    + assert (length (dict_set (label x) x d) = S (length d)) as Hlen
        by (rewrite dict_set_length; by rewrite decide_False).
      assert (length d + S (length l) = length (dict_set (label x) x d) + length l) as ->
        by lia.
      rewrite IH. rewrite dict_keys_set, decide_False by done.
      split.
      * intros [Hnd Hdis]. split; [split; [|done]|].
        -- intros Hx. apply (Hdis _ Hx). apply elem_of_app. right. left.
        -- intros k [->|Hk]%elem_of_cons; [done|].
           intros Hkd. apply (Hdis _ Hk). apply elem_of_app. by left.
      * intros [[Hx Hnd] Hdis]. split; [done|].
        intros k Hk [Hkd|Hkx%list_elem_of_singleton]%elem_of_app.
        -- apply (Hdis k); [by right|done].
        -- by subst.
Qed.

Lemma label_fold_by_label (l : DepConstraints) (d : list (string * DepConstraint)) :
  NoDup (labels l) → (∀ k, k ∈ labels l → k ∉ dict_keys d) →
  foldl (fun d x => dict_set (label x) x d) d l = d ++ by_label l.
Proof.
  revert d. induction l as [|x l IH]; intros d; simpl.
  - intros _ _. by rewrite app_nil_r.
  - intros [Hx Hnd]%NoDup_cons Hdis.
    rewrite dict_set_fresh by (apply Hdis; left).
    rewrite IH; [by rewrite <- app_assoc|done|].
    intros k Hk Hin. rewrite dict_keys_app in Hin.
    apply elem_of_app in Hin as [Hkd|Hkx%list_elem_of_singleton].
    + apply (Hdis k); [by right|done].
    + simpl in Hkx. by subst.
Qed.

Lemma specs_by_label_length (l : DepConstraints) :
  length (specs_by_label l) = length l ↔ NoDup (labels l).
Proof.
  unfold specs_by_label.
  pose proof (label_fold_full l []) as H. simpl in H. rewrite H.
  split; [by intros [? _]|]. intros Hnd. split; [done|].
  intros k _. apply not_elem_of_nil.
Qed.

Lemma specs_by_label_NoDup (l : DepConstraints) :
  NoDup (labels l) → specs_by_label l = by_label l.
Proof.
  intros Hnd. unfold specs_by_label. rewrite label_fold_by_label; [done..|].
  intros k _. apply not_elem_of_nil.
Qed.

Lemma by_label_keys (l : DepConstraints) : dict_keys (by_label l) = labels l.
Proof.
  unfold dict_keys, by_label, labels. rewrite <- list_fmap_compose.
  by apply list_fmap_ext.
Qed.

Lemma key_set_by_label (d1 d2 : DepConstraints) :
  key_set (by_label d1) = key_set (by_label d2) ↔ same_labels d1 d2.
Proof.
  unfold key_set, same_labels. rewrite !by_label_keys. split.
  - intros Heq k. rewrite <- !(elem_of_list_to_set (C := gset string)). by rewrite Heq.
  - intros Hsame. apply set_eq. intros k. rewrite !elem_of_list_to_set. apply Hsame.
Qed.

Lemma by_label_get (l : DepConstraints) (x : DepConstraint) :
  NoDup (labels l) → x ∈ l → dict_get (label x) (by_label l) = Some x.
Proof.
  intros Hnd Hx. apply dict_get_elem; [by rewrite by_label_keys|].
  apply list_elem_of_fmap. by exists x.
Qed.

Section MergeFacts.
Context `{VM : VersionModel}.

Lemma parses_Ok (x : DepConstraint) :
  parses x → ∃ v, parse_version_spec (version_spec x) = Ok v.
Proof. unfold parses. destruct (parse_version_spec _); [eauto|done]. Qed.

(** What the loop over [specs.items()] comes to, when every label of the
    first side is a label of the second and every version text parses. *)
Lemma merge_entries_outcome (D1 D2 items d2 : DepConstraints) :
  NoDup (labels d2) →
  Forall parses items → Forall parses d2 →
  (∀ x, x ∈ items → label x ∈ labels d2) →
  (merge_entries D1 D2 (by_label d2) (by_label items)
     = Raise (IncompatibleDependencyError IncompatibleSpecs D1 D2)
   ∧ conflicting items d2)
  ∨ (∃ merged,
       merge_entries D1 D2 (by_label d2) (by_label items) = Ok merged
       ∧ Forall2 (fun x m => ∃ y, y ∈ d2 ∧ label y = label x ∧ merged_from x y m)
           items merged
       ∧ ¬ conflicting items d2).
Proof.
  intros Hnd Hitems Hd2. induction items as [|x items IH]; intros Hsub.
  - right. exists []. split; [done|]. split; [constructor|].
    by intros (x & y & ?%elem_of_nil & _).
  - apply Forall_cons in Hitems as [Hx Hitems].
    destruct (proj1 (list_elem_of_fmap _ _ _) (Hsub x ltac:(left))) as (y & Hlab & Hy).
    pose proof (by_label_get d2 y Hnd Hy) as Hget. rewrite <- Hlab in Hget.
    destruct (parses_Ok x Hx) as (vx & Hvx).
    destruct (parses_Ok y (proj1 (Forall_forall _ _) Hd2 y Hy)) as (vy & Hvy).
    simpl. rewrite Hget. simpl. rewrite Hvx, Hvy. simpl.
    destruct (intersect vx vy) as [v|] eqn:Hmeet.
    + destruct (IH Hitems) as [[Hraise Hconf]|(merged & Hok & Hall & Hnone)].
      { intros z Hz. apply Hsub. by right. }
      * left. simpl. rewrite Hraise. split; [done|].
        destruct Hconf as (a & b & Ha & Hb & Hab & Hc).
        exists a, b. repeat split; try done. by right.
      * right. simpl. rewrite Hok. simpl.
        exists (mkDepConstraint (to_pep508_string v) (Some (label x))
                  (version_spec_field x) (origin_spec x) :: merged).
        split; [done|]. split.
        -- constructor; [|done]. exists y. split; [done|]. split; [done|].
           by exists vx, vy, v.
        -- intros (a & b & Ha & Hb & Hab & Hc).
           apply elem_of_cons in Ha as [->|Ha].
           ++ assert (b = y) as ->.
              { pose proof (by_label_get d2 b Hnd Hb) as Hgb.
                rewrite <- Hab, Hget in Hgb. congruence. }
              destruct Hc as (vx' & vy' & Hx' & Hy' & Hnone').
              congruence.
           ++ apply Hnone. by exists a, b.
    + left. split; [done|]. exists x, y. split; [left|]. split; [done|].
      split; [done|]. by exists vx, vy.
Qed.

Lemma find_common_specs_duplicated (d1 d2 : DepConstraints) :
  duplicated d1 ∨ duplicated d2 →
  find_common_specs d1 d2 = Raise (IncompatibleDependencyError DuplicatedSpecs d1 d2).
Proof.
  intros Hdup. unfold find_common_specs.
  destruct (bool_decide (length (specs_by_label d1) = length d1)
            && bool_decide (length (specs_by_label d2) = length d2)) eqn:Hlen; [|done].
  apply andb_true_iff in Hlen as [H1%bool_decide_eq_true H2%bool_decide_eq_true].
  apply specs_by_label_length in H1, H2. by destruct Hdup.
Qed.

Lemma find_common_specs_unique (d1 d2 : DepConstraints) :
  NoDup (labels d1) → NoDup (labels d2) →
  find_common_specs d1 d2
  = if bool_decide (key_set (by_label d1) = key_set (by_label d2))
    then merge_entries d1 d2 (by_label d2) (by_label d1)
    else Raise (IncompatibleDependencyError DifferentNumberOfSpecs d1 d2).
Proof.
  intros H1 H2. unfold find_common_specs.
  rewrite !specs_by_label_NoDup by done.
  assert (∀ l, length (by_label l) = length l) as Hl by (intros; apply length_fmap).
  rewrite !Hl, !bool_decide_eq_true_2 by done.
  simpl. by destruct (bool_decide _).
Qed.
End MergeFacts.

Lemma duplicated_stable (l : DepConstraints) : ¬ duplicated l → NoDup (labels l).
Proof. unfold duplicated. apply dec_stable. Qed.

Lemma same_label_twice (l : DepConstraints) (x y : DepConstraint) :
  x ∈ l → y ∈ l → x ≠ y → label x = label y → duplicated l.
Proof.
  intros [i Hi]%list_elem_of_lookup [j Hj]%list_elem_of_lookup Hne Hlab Hnd.
  assert (i = j) as ->; [|congruence].
  apply (NoDup_lookup (labels l) i j (label x)); [done|..].
  - unfold labels. by rewrite list_lookup_fmap, Hi.
  - unfold labels. rewrite list_lookup_fmap, Hj. simpl. by rewrite Hlab.
Qed.

(** C4.  Given two requirement lists whose version texts parse,
    [find_common_specs] raises [IncompatibleDependencyError] exactly when a
    side repeats a label, or the two sides have different label sets, or two
    entries with the same label have a contradictory intersection; the three
    causes are reported in that order as duplicated specs, different number of
    specs and incompatible specs.  Otherwise it returns one merged entry per
    entry of the first side, in order, with that entry's label, spec-field
    name and origin metadata and the rendered intersection as version text. *)
Theorem find_common_specs_outcome :
  ∀ `{VM : VersionModel} (d1 d2 : DepConstraints),
    Forall parses (d1 ++ d2) →
    ((∃ why, find_common_specs d1 d2 = Raise (IncompatibleDependencyError why d1 d2))
     ↔ (duplicated d1 ∨ duplicated d2) ∨ ¬ same_labels d1 d2 ∨ conflicting d1 d2)
    ∧ (duplicated d1 ∨ duplicated d2 →
       find_common_specs d1 d2
       = Raise (IncompatibleDependencyError DuplicatedSpecs d1 d2))
    ∧ (¬ (duplicated d1 ∨ duplicated d2) → ¬ same_labels d1 d2 →
       find_common_specs d1 d2
       = Raise (IncompatibleDependencyError DifferentNumberOfSpecs d1 d2))
    ∧ (¬ (duplicated d1 ∨ duplicated d2) → same_labels d1 d2 → conflicting d1 d2 →
       find_common_specs d1 d2
       = Raise (IncompatibleDependencyError IncompatibleSpecs d1 d2))
    ∧ (¬ ((duplicated d1 ∨ duplicated d2) ∨ ¬ same_labels d1 d2 ∨ conflicting d1 d2) →
       ∃ merged,
         find_common_specs d1 d2 = Ok merged
         ∧ Forall2 (fun x m => ∃ y, y ∈ d2 ∧ label y = label x ∧ merged_from x y m)
             d1 merged).
Proof.
  intros VM d1 d2 [Hp1 Hp2]%Forall_app.
  destruct (decide (duplicated d1 ∨ duplicated d2)) as [Hdup|Hnodup].
  { rewrite (find_common_specs_duplicated d1 d2 Hdup).
    split; [split; [intros _; by left|intros _; by eexists]|].
    split; [done|].
    split; [intros Hn; by destruct Hn|].
    split; [intros Hn; by destruct Hn|].
    intros Hn. destruct Hn. by left. }
  assert (NoDup (labels d1)) as Hn1
    by (apply duplicated_stable; intros ?; apply Hnodup; by left).
  assert (NoDup (labels d2)) as Hn2
    by (apply duplicated_stable; intros ?; apply Hnodup; by right).
  rewrite (find_common_specs_unique d1 d2 Hn1 Hn2).
  destruct (bool_decide (key_set (by_label d1) = key_set (by_label d2))) eqn:Hkeys.
  - apply bool_decide_eq_true, key_set_by_label in Hkeys.
    destruct (merge_entries_outcome d1 d2 d1 d2 Hn2 Hp1 Hp2) as
      [[Hraise Hconf]|(merged & Hok & Hall & Hnone)].
    { intros x Hx. apply Hkeys. unfold labels. by apply list_elem_of_fmap_2. }
    + rewrite Hraise.
      split; [split; [intros _; by right; right|intros _; by eexists]|].
      split; [intros Hd; by destruct Hnodup|].
      split; [intros _ Hn; by destruct Hn|].
      split; [done|].
      intros Hn. destruct Hn. by right; right.
    + rewrite Hok.
      split; [split; [by intros [why ?]|intros [?|[?|?]]; done]|].
      split; [intros Hd; by destruct Hnodup|].
      split; [intros _ Hn; by destruct Hn|].
      split; [intros _ _ Hc; by destruct Hnone|].
      intros _. by exists merged.
  - apply bool_decide_eq_false in Hkeys. rewrite key_set_by_label in Hkeys.
    split; [split; [intros _; by right; left|intros _; by eexists]|].
    split; [intros Hd; by destruct Hnodup|].
    split; [done|].
    split; [intros _ Hs; by destruct Hkeys|].
    intros Hn. destruct Hn. by right; left.
Qed.

Lemma find_common_specs_outcome_witness :
  Forall (parses (VM := Demo.versions)) ([Demo.plain ">=1"] ++ [Demo.plain "<3"])
  ∧ ∃ merged,
      find_common_specs (VM := Demo.versions) [Demo.plain ">=1"] [Demo.plain "<3"]
      = Ok merged
      ∧ Forall2 (fun x m => ∃ y, y ∈ [Demo.plain "<3"] ∧ label y = label x
                                 ∧ merged_from (VM := Demo.versions) x y m)
          [Demo.plain ">=1"] merged.
Proof.
  assert (Forall (parses (VM := Demo.versions))
            ([Demo.plain ">=1"] ++ [Demo.plain "<3"])) as Hp
    by (repeat constructor).
  split; [exact Hp|].
  apply (find_common_specs_outcome (VM := Demo.versions) _ _ Hp).
  intros [[Hd|Hd]|[Hs|Hc]].
  - apply Hd. vm_compute. repeat constructor; by intros ?%elem_of_nil.
  - apply Hd. vm_compute. repeat constructor; by intros ?%elem_of_nil.
  - apply Hs. intros k. done.
  - destruct Hc as (x & y & ->%list_elem_of_singleton & ->%list_elem_of_singleton
                    & _ & vx & vy & Hx & Hy & Hnone).
    vm_compute in Hx, Hy. injection Hx as <-. injection Hy as <-. by vm_compute in Hnone.
Defined.

(** C10.  An absent label and the empty label are the same key: an
    unlabelled entry on one side merges with an empty-labelled entry on the
    other, whichever side each is on, and the two on the same side are a
    repeated label. *)
Theorem absent_label_is_empty_label :
  ∀ `{VM : VersionModel} (x y : DepConstraint),
    constraint x = None → constraint y = Some "" →
    (label x = "" ∧ label y = "")
    ∧ (∀ vx vy v,
         parse_version_spec (version_spec x) = Ok vx →
         parse_version_spec (version_spec y) = Ok vy →
         intersect vx vy = Some v →
         find_common_specs [x] [y]
         = Ok [mkDepConstraint (to_pep508_string v) (Some "")
                 (version_spec_field x) (origin_spec x)])
    ∧ (∀ vx vy v,
         parse_version_spec (version_spec x) = Ok vx →
         parse_version_spec (version_spec y) = Ok vy →
         intersect vy vx = Some v →
         find_common_specs [y] [x]
         = Ok [mkDepConstraint (to_pep508_string v) (Some "")
                 (version_spec_field y) (origin_spec y)])
    ∧ (∀ d d', x ∈ d → y ∈ d →
         find_common_specs d d'
         = Raise (IncompatibleDependencyError DuplicatedSpecs d d')
         ∧ find_common_specs d' d
           = Raise (IncompatibleDependencyError DuplicatedSpecs d' d)).
Proof.
  intros VM x y Hx Hy.
  assert (label x = "") as Hlx by (unfold label; by rewrite Hx).
  assert (label y = "") as Hly by (unfold label; by rewrite Hy).
  split; [done|]. split; [|split].
  - intros vx vy v Hvx Hvy Hv.
    unfold find_common_specs, specs_by_label. simpl. rewrite Hlx, Hly. simpl.
    rewrite Hvx, Hvy. simpl. by rewrite Hv.
  - intros vx vy v Hvx Hvy Hv.
    unfold find_common_specs, specs_by_label. simpl. rewrite Hlx, Hly. simpl.
    rewrite Hvx, Hvy. simpl. by rewrite Hv.
  - intros d d' Hxd Hyd.
    assert (duplicated d) as Hdup.
    { apply (same_label_twice d x y); [done..| |congruence]. intros ->. congruence. }
    split; apply find_common_specs_duplicated; eauto.
Qed.

Lemma absent_label_is_empty_label_witness :
  constraint (Demo.plain ">=1") = None
  ∧ constraint (mkDepConstraint "<3" (Some "") None None) = Some ""
  ∧ find_common_specs (VM := Demo.versions)
      [Demo.plain ">=1"] [mkDepConstraint "<3" (Some "") None None]
    = Ok [mkDepConstraint ">=1,<3" (Some "") None None].
Proof.
  split; [reflexivity|]. split; [reflexivity|].
  apply (proj1 (proj2 (absent_label_is_empty_label (VM := Demo.versions)
                         (Demo.plain ">=1") (mkDepConstraint "<3" (Some "") None None)
                         eq_refl eq_refl)) (1, None) (0, Some 3) (1, Some 3));
    reflexivity.
Defined.

(** ** Running computations *)

Lemma bind_run {A B} (m : M A) (k : A → M B) (w : World) :
  (m ≫= k) w
  = match m w with
    | (Ok a, w') => k a w'
    | (Raise e, w') => (Raise e, w')
    end.
Proof. reflexivity. Qed.

Lemma ret_run {A} (a : A) (w : World) : (mret a : M A) w = (Ok a, w).
Proof. reflexivity. Qed.

Lemma foldlM_app {A B} (f : A → B → M A) (a : A) (l1 l2 : list B) (w : World) :
  foldlM f a (l1 ++ l2) w = (foldlM f a l1 ≫= fun a' => foldlM f a' l2) w.
Proof.
  revert a w. induction l1 as [|x l1 IH]; intros a w; simpl; [done|].
  rewrite !bind_run. destruct (f a x w) as [[a'|e] w']; [|done].
  rewrite IH. by rewrite bind_run.
Qed.

Section Respects.
Context (R : World → World → Prop) `{!PreOrder R}.

Lemma respects_ret {A} (a : A) : respects R (mret a : M A).
Proof. intros w. simpl. reflexivity. Qed.

Lemma respects_raise {A} (e : exn) : respects R (raise e : M A).
Proof. intros w. simpl. reflexivity. Qed.

Lemma respects_lift {A} (r : result A) : respects R (lift r).
Proof. intros w. simpl. reflexivity. Qed.

Lemma respects_path_exists (p : path) : respects R (path_exists p).
Proof. intros w. simpl. reflexivity. Qed.

Lemma respects_bind {A B} (m : M A) (k : A → M B) :
  respects R m → (∀ a, respects R (k a)) → respects R (m ≫= k).
Proof.
  intros Hm Hk w. rewrite bind_run. specialize (Hm w).
  destruct (m w) as [[a|e] w']; simpl in *; [|done].
  etrans; [exact Hm|apply Hk].
Qed.

Lemma respects_if {A} (b : bool) (m1 m2 : M A) :
  respects R m1 → respects R m2 → respects R (if b then m1 else m2).
Proof. by destruct b. Qed.

Lemma respects_try_finally {A} (body : M A) (fin : M unit) :
  respects R body → respects R fin → respects R (try_finally body fin).
Proof.
  intros Hb Hf w. unfold try_finally. specialize (Hb w).
  destruct (body w) as [r w1]. specialize (Hf w1).
  destruct (fin w1) as [[[]|e] w2]; simpl in *; by etrans.
Qed.

Lemma respects_except {A} (body handler : M A) :
  respects R body → respects R handler →
  respects R (except_ExecProcessError body handler).
Proof.
  intros Hb Hh w. unfold except_ExecProcessError. specialize (Hb w).
  destruct (body w) as [[a|e] w1]; simpl in *; [done|].
  destruct e; try done. etrans; [exact Hb|apply Hh].
Qed.

Lemma respects_foldlM {A B} (f : A → B → M A) (a : A) (l : list B) :
  (∀ a x, respects R (f a x)) → respects R (foldlM f a l).
Proof.
  intros Hf. revert a. induction l as [|x l IH]; intros a; simpl.
  - apply respects_ret.
  - apply respects_bind; [apply Hf|]. intros a'. apply IH.
Qed.
End Respects.

#[local] Instance same_file_preorder (p : path) : PreOrder (same_file p).
Proof.
  split; [by intros w|]. intros w1 w2 w3 H12 H23. unfold same_file in *. congruence.
Qed.

#[local] Instance untouched_preorder : PreOrder untouched.
Proof.
  split; [by intros w|]. intros w1 w2 w3 [? ?] [? ?]. unfold untouched. split; congruence.
Qed.

#[local] Instance spawned_preorder (P : proc_call → Prop) : PreOrder (spawned P).
Proof.
  split.
  - intros w. exists []. by rewrite app_nil_r.
  - intros w1 w2 w3 (c1 & H1 & F1) (c2 & H2 & F2). exists (c1 ++ c2).
    split; [by rewrite H2, H1, app_assoc|]. by apply Forall_app.
Qed.

(** ** The toolchain delegation *)

Section Toolchain.
Context `{EX : Externals}.

Lemma logger_same_file p lv msg : respects (same_file p) (logger lv msg).
Proof. by intros w. Qed.

Lemma logger_untouched lv msg : respects untouched (logger lv msg).
Proof. by intros w. Qed.

Lemma logger_spawned P lv msg : respects (spawned P) (logger lv msg).
Proof. intros w. exists []. simpl. by rewrite app_nil_r. Qed.

Lemma exec_same_file p command dir capture vars :
  leaves_alone p → respects (same_file p) (exec command dir capture vars).
Proof.
  intros Hp w. unfold exec, same_file.
  specialize (Hp (mkProc command dir vars capture) (files w)).
  by destruct (run_process _ _) as [ok fs].
Qed.

Lemma exec_spawned (P : proc_call → Prop) command dir capture vars :
  P (mkProc command dir vars capture) →
  respects (spawned P) (exec command dir capture vars).
Proof.
  intros HP w. unfold exec. destruct (run_process _ _) as [ok fs]. simpl.
  exists [mkProc command dir vars capture]. split; [done|]. by constructor.
Qed.

Lemma install_poetry_package_respects (R : World → World → Prop) `{!PreOrder R}
    pkg cfg virtualenv quiet :
  (∀ lv msg, respects R (logger lv msg)) →
  (∀ command capture vars,
     command ∈ ["poetry check --lock" +:+ quiet_flag quiet;
                "poetry lock --no-update" +:+ quiet_flag quiet;
                "poetry install" +:+ quiet_flag quiet] →
     respects R (exec command (location pkg) capture vars)) →
  respects R (install_poetry_package pkg cfg virtualenv quiet).
Proof.
  intros Hlog Hexec. unfold install_poetry_package.
  apply (respects_bind R); [apply (respects_path_exists R)|]. intros has_lock.
  apply (respects_bind R).
  - apply (respects_if R); [|by apply (respects_ret R)].
    apply (respects_except R).
    + apply Hexec. set_solver.
    + apply (respects_bind R); [apply Hlog|]. intros _. apply Hexec. set_solver.
  - intros _. apply Hexec. set_solver.
Qed.

Lemma install_poetry_package_same_file p pkg cfg virtualenv quiet :
  leaves_alone p →
  respects (same_file p) (install_poetry_package pkg cfg virtualenv quiet).
Proof.
  intros Hp. apply install_poetry_package_respects; [apply _| |].
  - intros. apply logger_same_file.
  - intros. by apply exec_same_file.
Qed.

Lemma install_poetry_package_spawned pkg cfg virtualenv quiet :
  respects (spawned (toolchain_call pkg quiet))
    (install_poetry_package pkg cfg virtualenv quiet).
Proof.
  apply install_poetry_package_respects; [apply _| |].
  - intros. apply logger_spawned.
  - intros command capture vars Hc. by apply exec_spawned.
Qed.
End Toolchain.

(** ** The cached install *)

Lemma os_rename_run (src dst : path) (c : string) (w : World) :
  files w !! src = Some c →
  os_rename src dst w = (Ok (), set_files (<[dst := c]> (delete src (files w))) w).
Proof. intros H. unfold os_rename. by rewrite H. Qed.

Lemma shutil_copy_run (src dst : path) (c : string) (w : World) :
  files w !! src = Some c →
  shutil_copy src dst w = (Ok (), set_files (<[dst := c]> (files w)) w).
Proof. intros H. unfold shutil_copy. by rewrite H. Qed.

Lemma path_exists_run (p : path) (w : World) :
  path_exists p w = (Ok (bool_decide (is_Some (files w !! p))), w).
Proof. reflexivity. Qed.

Lemma exists_Some (fs : FS) (p : path) (c : string) :
  fs !! p = Some c → bool_decide (is_Some (fs !! p)) = true.
Proof. intros ->. by apply bool_decide_eq_true. Qed.

Lemma exists_None (fs : FS) (p : path) :
  fs !! p = None → bool_decide (is_Some (fs !! p)) = false.
Proof. intros ->. apply bool_decide_eq_false. by intros [? ?]. Qed.

Ltac look :=
  cbn [files set_files procs logs fst snd];
  repeat first
    [ rewrite lookup_insert_eq
    | rewrite lookup_insert_ne by congruence
    | rewrite lookup_delete_eq
    | rewrite lookup_delete_ne by congruence ].

Ltac decide_exists :=
  first [ rewrite bool_decide_eq_true_2 by eauto
        | rewrite bool_decide_eq_false_2 by (by intros [? ?]) ].

Ltac run :=
  repeat first
    [ rewrite bind_run
    | rewrite ret_run
    | rewrite path_exists_run
    | erewrite os_rename_run by (look; eassumption || reflexivity)
    | erewrite shutil_copy_run by (look; eassumption || reflexivity)
    | progress look
    | progress cbv beta iota ].

Section CachedInstall.
Context `{EX : Externals}.

Lemma stage_and_install_run pkg cfg virtualenv (w : World) (manifest text : string) :
  files w !! (location pkg, "pyproject.toml") = Some manifest →
  files w !! (pkg_cache_dir cfg pkg, "pyproject.modified.toml") = Some text →
  leaves_alone (pkg_cache_dir cfg pkg, "pyproject.origin.toml") →
  leaves_alone (pkg_cache_dir cfg pkg, "poetry.origin.lock") →
  let staged := (stage_and_install pkg cfg virtualenv w).2 in
  files staged !! (pkg_cache_dir cfg pkg, "pyproject.origin.toml") = Some manifest
  ∧ (∀ lock, files w !! (location pkg, "poetry.lock") = Some lock →
       files staged !! (pkg_cache_dir cfg pkg, "poetry.origin.lock") = Some lock).
Proof.
  intros Hman Hmod Hori Holock. unfold stage_and_install.
  set (cache := pkg_cache_dir cfg pkg) in *. set (loc := location pkg) in *.
  pose proof (install_poetry_package_same_file _ pkg cfg virtualenv false Hori) as Kori.
  pose proof (install_poetry_package_same_file _ pkg cfg virtualenv false Holock) as Kolock.
  unfold respects, same_file in Kori, Kolock.
  destruct (files w !! (loc, "poetry.lock")) as [lock|] eqn:Hlock;
  destruct (files w !! (cache, "poetry.modified.lock")) as [mlock|] eqn:Hmlock.
  all: cbv zeta; run; rewrite Hlock; decide_exists; run;
       rewrite Hmlock; decide_exists; run.
  all: rewrite Kori, Kolock; look; split; [done|].
  all: by intros ? [= <-].
Qed.

Lemma restore_run pkg cfg (w : World) (manifest : string) :
  files w !! (pkg_cache_dir cfg pkg, "pyproject.origin.toml") = Some manifest →
  ∃ w',
    restore pkg cfg w = (Ok (), w')
    ∧ files w' !! (location pkg, "pyproject.toml") = Some manifest
    ∧ (∀ lock, files w !! (pkg_cache_dir cfg pkg, "poetry.origin.lock") = Some lock →
         files w' !! (location pkg, "poetry.lock") = Some lock).
Proof.
  intros Hori. unfold restore.
  set (cache := pkg_cache_dir cfg pkg) in *. set (loc := location pkg) in *.
  destruct (files w !! (loc, "poetry.lock")) as [lock|] eqn:Hlock;
  destruct (files w !! (cache, "poetry.origin.lock")) as [olock|] eqn:Holock.
  all: cbv zeta; run; rewrite Hlock; decide_exists; run;
       rewrite Holock; decide_exists; run.
  all: eexists; split; [reflexivity|]; look; split; [done|].
  all: by intros ? [= <-].
Qed.

(** C3.  Take a package whose real manifest is in its directory, and a
    toolchain that leaves the two files staged aside in the cache directory
    alone.  Whatever the toolchain delegation does, return or raise, when
    [install_pkg_dependencies] is over the real manifest is back in the
    package directory with the content it had, and so is the real lock file
    if there was one. *)
Theorem install_pkg_dependencies_restores :
  ∀ (pkg : Package) (deps : list (string * DepConstraints))
    (cfg : PBTConfig) (virtualenv : option string) (w : World) (manifest : string),
    files w !! (location pkg, "pyproject.toml") = Some manifest →
    leaves_alone (pkg_cache_dir cfg pkg, "pyproject.origin.toml") →
    leaves_alone (pkg_cache_dir cfg pkg, "poetry.origin.lock") →
    ∃ outcome after,
      install_pkg_dependencies pkg deps cfg virtualenv w = (outcome, after)
      ∧ outcome = (stage_and_install pkg cfg virtualenv
                     (set_files (<[(pkg_cache_dir cfg pkg, "pyproject.modified.toml")
                                   := dumps (merged_manifest pkg deps)]> (files w)) w)).1
      ∧ files after !! (location pkg, "pyproject.toml") = Some manifest
      ∧ (∀ lock, files w !! (location pkg, "poetry.lock") = Some lock →
                 files after !! (location pkg, "poetry.lock") = Some lock).
Proof.
  intros pkg deps cfg virtualenv w manifest Hman Hori Holock.
  unfold install_pkg_dependencies. rewrite bind_run.
  unfold write_file at 1. cbv beta iota. unfold try_finally.
  set (w0 := set_files _ w).
  assert (files w0 !! (location pkg, "pyproject.toml") = Some manifest) as Hman0.
  { subst w0. look. done. }
  assert (files w0 !! (pkg_cache_dir cfg pkg, "pyproject.modified.toml")
          = Some (dumps (merged_manifest pkg deps))) as Hmod0.
  { subst w0. look. done. }
  destruct (stage_and_install_run pkg cfg virtualenv w0 _ _ Hman0 Hmod0 Hori Holock)
    as [Hstaged Hstagedlock].
  destruct (stage_and_install pkg cfg virtualenv w0) as [outcome staged].
  simpl in Hstaged, Hstagedlock.
  destruct (restore_run pkg cfg staged manifest Hstaged) as (after & -> & Hback & Hlockback).
  exists outcome, after. split; [done|]. split; [done|]. split; [done|].
  intros lock Hlock. apply Hlockback, Hstagedlock. subst w0. look. done.
Qed.
End CachedInstall.

Lemma demo_toolchain_leaves_cache_alone (found : list (string * Package))
    (dir file : string) :
  file ≠ "poetry.lock" →
  leaves_alone (EX := Demo.externals found) (dir, file).
Proof.
  intros Hfile call fs. simpl. unfold Demo.toolchain.
  destruct (fs !! (cwd call, "pyproject.toml")); [|done].
  destruct (String.prefix _ _); [done|].
  destruct (decide _); simpl; rewrite lookup_insert_ne; congruence.
Qed.

Lemma install_pkg_dependencies_restores_witness :
  files Demo.broken_world !! (location Demo.broken, "pyproject.toml")
  = Some "real manifest of broken"
  ∧ files Demo.broken_world !! (location Demo.broken, "poetry.lock")
    = Some "real lock of broken"
  ∧ ∃ outcome after,
      install_pkg_dependencies (EX := Demo.externals []) Demo.broken
        [("requests", [Demo.plain ">=2"])] Demo.config None Demo.broken_world
      = (outcome, after)
      ∧ outcome = (stage_and_install (EX := Demo.externals []) Demo.broken Demo.config None
                     (set_files (<[(pkg_cache_dir Demo.config Demo.broken,
                                    "pyproject.modified.toml")
                                   := dumps (Externals := Demo.externals [])
                                        (merged_manifest Demo.broken
                                           [("requests", [Demo.plain ">=2"])])]>
                                   (files Demo.broken_world)) Demo.broken_world)).1
      ∧ files after !! (location Demo.broken, "pyproject.toml")
        = Some "real manifest of broken"
      ∧ (∀ lock, files Demo.broken_world !! (location Demo.broken, "poetry.lock") = Some lock →
                 files after !! (location Demo.broken, "poetry.lock") = Some lock).
Proof.
  split; [by vm_compute|]. split; [by vm_compute|].
  apply (install_pkg_dependencies_restores (EX := Demo.externals [])).
  - by vm_compute.
  - by apply demo_toolchain_leaves_cache_alone.
  - by apply demo_toolchain_leaves_cache_alone.
Defined.

Example install_pkg_dependencies_successful_run :
  let '(outcome, after) :=
    install_pkg_dependencies (EX := Demo.externals Demo.workspace) Demo.api
      [("requests", [Demo.plain ">=2"])] Demo.config None (Demo.fresh Demo.workspace) in
  outcome = Ok ()
  ∧ files after !! ("/ws/api", "pyproject.toml") = Some "real manifest of api"
  ∧ files after !! ("/ws/api", "poetry.lock") = None
  ∧ is_Some (files after !! ("/ws/.cache/api", "poetry.modified.lock")).
Proof. vm_compute. repeat split; eauto. Qed.

Example install_pkg_dependencies_failing_run :
  let '(outcome, after) :=
    install_pkg_dependencies (EX := Demo.externals []) Demo.broken
      [("requests", [Demo.plain ">=2"])] Demo.config None Demo.broken_world in
  outcome = Raise (ExecProcessError "poetry install")
  ∧ files after !! ("/ws/broken", "pyproject.toml") = Some "real manifest of broken"
  ∧ files after !! ("/ws/broken", "poetry.lock") = Some "real lock of broken"
  ∧ files after !! ("/ws/.cache/broken", "poetry.modified.lock") = Some "partial".
Proof. by vm_compute. Qed.

(** ** Aggregation of the third-party requirements *)

Section Aggregation.
Context `{VM : VersionModel}.

Ltac aggregate_dep_cases :=
  unfold aggregate_dep;
  repeat match goal with
    | |- context [dict_has ?d ?p || ?b] =>
        let H := fresh "Hskip" in destruct (dict_has d p || b) eqn:H
    | |- context [match dict_get ?d ?tp with _ => _ end] =>
        let H := fresh "Hget" in destruct (dict_get d tp) as [[? ?]|] eqn:H
    | |- context [match find_common_specs ?a ?b with _ => _ end] =>
        let H := fresh "Hmerge" in destruct (find_common_specs a b) as [?|[]] eqn:H
    | |- context [(lift ?r ≫= _) _] =>
        rewrite bind_run; unfold lift at 1; destruct r
    | |- context [(logger ?l ?m ≫= _) _] =>
        rewrite bind_run; unfold logger at 1; cbv beta iota
    | |- context [if ?flag then mret _ else raise _] => destruct flag
    end.

Lemma aggregate_dep_untouched packages flag pkg st dep :
  respects untouched (aggregate_dep packages flag pkg st dep).
Proof.
  intros w. destruct dep as [d specs]. aggregate_dep_cases; by split.
Qed.

Lemma aggregate_untouched packages flag : respects untouched (aggregate packages flag).
Proof.
  unfold aggregate. apply (respects_foldlM untouched). intros st pkg.
  apply (respects_foldlM untouched). intros st' dep. apply aggregate_dep_untouched.
Qed.

Lemma skip_true (packages : list (string * Package)) (invalid : gset string) d :
  (dict_has d packages || bool_decide (d ∈ invalid)) = true →
  d ∈ dict_keys packages ∨ d ∈ invalid.
Proof.
  intros [H|H]%orb_true_iff; [left; by apply dict_has_true|right].
  by apply bool_decide_eq_true in H.
Qed.

Lemma skip_false (packages : list (string * Package)) (invalid : gset string) d :
  (dict_has d packages || bool_decide (d ∈ invalid)) = false →
  (d ∉ dict_keys packages) ∧ (d ∉ invalid).
Proof.
  intros [H1 H2]%orb_false_iff. split; [by apply dict_has_false|].
  by apply bool_decide_eq_false in H2.
Qed.

Lemma aggregate_dep_step packages flag pkg st d specs w st' w' :
  aggregate_dep packages flag pkg st (d, specs) w = (Ok st', w') →
  keeps_invalid st →
  keeps_invalid st'
  ∧ (∀ k, k ∈ dict_keys (thirdparty_pkgs st')
          ↔ k ∈ dict_keys (thirdparty_pkgs st) ∨ (k = d ∧ d ∉ dict_keys packages))
  ∧ (∀ k, k ∈ invalid_thirdparty_pkgs st →
          k ∈ invalid_thirdparty_pkgs st'
          ∧ dict_get k (thirdparty_pkgs st') = dict_get k (thirdparty_pkgs st)).
Proof.
  intros Hrun Hinv. revert Hrun. aggregate_dep_cases; intros [= <- <-]; simpl.
  - apply skip_true in Hskip. split; [done|]. split; [|done].
    intros k. split; [by left|]. intros [?|Hk]; [done|].
    destruct Hk as [-> Hd]. destruct Hskip as [?|?]; [done|by apply Hinv].
  - apply skip_false in Hskip as [Hlocal Hvalid].
    pose proof (dict_get_Some_key _ _ _ Hget) as Hkey.
    assert (∀ v v', dict_keys (dict_set d v (dict_set d v' (thirdparty_pkgs st)))
                    = dict_keys (thirdparty_pkgs st)) as Hkeys.
    { intros v v'. rewrite !dict_keys_set_present; [done..|].
      by rewrite dict_keys_set_present. }
    unfold keeps_invalid. simpl. rewrite Hkeys. split; [done|]. split.
    + intros k. split; [by left|]. intros [?|Hk]; [done|]. by destruct Hk as [-> ?].
    + intros k Hk. split; [done|].
      rewrite !dict_get_set_ne; [done|intros <-; done..].
  - apply skip_false in Hskip as [Hlocal Hvalid].
    pose proof (dict_get_Some_key _ _ _ Hget) as Hkey.
    unfold keeps_invalid. simpl. rewrite dict_keys_set_present by done. split; [|split].
    + intros k [->%elem_of_singleton|Hk]%elem_of_union; [done|by apply Hinv].
    + intros k. split; [by left|]. intros [?|Hk]; [done|]. by destruct Hk as [-> ?].
    + intros k Hk. split; [apply elem_of_union; by right|].
      rewrite dict_get_set_ne; [done|intros <-; done].
  - apply skip_false in Hskip as [Hlocal Hvalid].
    apply dict_get_None in Hget.
    unfold keeps_invalid. simpl. rewrite dict_set_fresh, dict_keys_app by done.
    split; [|split].
    + intros k Hk. apply elem_of_app. left. by apply Hinv.
    + intros k. rewrite elem_of_app. simpl. rewrite list_elem_of_singleton.
      split; [intros [?| ->]; [by left|by right]|].
      intros [?|Hk]; [by left|]. destruct Hk as [-> _]. by right.
    + intros k Hk. split; [done|].
      rewrite <- (dict_set_fresh d) by done.
      rewrite dict_get_set_ne; [done|]. intros <-. apply Hget. by apply Hinv.
Qed.

Lemma foldlM_invariant {A B} (J : list B → A → Prop) (f : A → B → M A) :
  (∀ pre x a w a' w', J pre a → f a x w = (Ok a', w') → J (pre ++ [x]) a') →
  ∀ l pre a w a' w',
    J pre a → foldlM f a l w = (Ok a', w') → J (pre ++ l) a'.
Proof.
  intros Hstep l. induction l as [|x l IH]; intros pre a w a' w' HJ Hrun.
  - simpl in Hrun. injection Hrun as <- <-. by rewrite app_nil_r.
  - simpl in Hrun. rewrite bind_run in Hrun.
    destruct (f a x w) as [[a1|e] w1] eqn:Hf; [|done].
    rewrite (cons_middle x pre l), app_assoc. eapply IH; [|exact Hrun].
    eapply Hstep; [exact HJ|exact Hf].
Qed.

(** After the loop, the names with an entry are the third-party names the
    workspace declares, and every name marked invalid has an entry. *)
Lemma aggregate_keys packages flag w st w' :
  aggregate packages flag w = (Ok st, w') →
  keeps_invalid st
  ∧ ∀ k, k ∈ dict_keys (thirdparty_pkgs st) ↔ third_party_name packages k.
Proof.
  unfold aggregate. intros Hrun.
  pose (J := fun (pre : list Package) (st : aggregation) =>
    keeps_invalid st
    ∧ ∀ k, k ∈ dict_keys (thirdparty_pkgs st)
           ↔ ∃ pkg, pkg ∈ pre ∧ k ∈ dict_keys (dependencies pkg)
                    ∧ k ∉ dict_keys packages).
  assert (J ([] ++ packages.*2) st) as [Hinv Hkeys]; [|by split].
  eapply (foldlM_invariant J); [|shelve|exact Hrun].
  Unshelve.
  - clear. intros pre pkg st w st' w' [Hinv Hkeys] Hinner.
    pose (K := fun (seen : list (string * DepConstraints)) (st : aggregation) =>
      keeps_invalid st
      ∧ ∀ k, k ∈ dict_keys (thirdparty_pkgs st)
             ↔ (∃ p, p ∈ pre ∧ k ∈ dict_keys (dependencies p)
                     ∧ k ∉ dict_keys packages)
               ∨ (k ∈ dict_keys seen ∧ k ∉ dict_keys packages)).
    assert (K ([] ++ dependencies pkg) st') as [Hinv' Hkeys'].
    { eapply (foldlM_invariant K); [|shelve|exact Hinner].
      Unshelve.
      - clear. intros seen [d specs] st w st' w' [Hinv Hkeys] Hstep.
        destruct (aggregate_dep_step _ _ _ _ _ _ _ _ _ Hstep Hinv) as (Hinv' & Hk & _).
        split; [done|]. intros k. rewrite Hk, Hkeys, dict_keys_app, elem_of_app.
        simpl. rewrite list_elem_of_singleton. naive_solver.
      - split; [done|]. intros k. rewrite Hkeys. split; [by left|].
        intros [?|Hk]; [done|]. destruct Hk as [Hk _]. by apply elem_of_nil in Hk. }
    split; [done|]. intros k. rewrite Hkeys'. simpl. split.
    + intros [(p & Hp & Hk & Hl)|[Hk Hl]].
      * exists p. split; [apply elem_of_app; by left|done].
      * exists pkg. split; [apply elem_of_app; right; left|done].
    + intros (p & [Hp| ->%list_elem_of_singleton]%elem_of_app & Hk & Hl).
      * left. by exists p.
      * by right.
  - split; [by intros k ?%not_elem_of_empty|].
    intros k. simpl. split; [by intros ?%elem_of_nil|].
    by intros (p & ?%elem_of_nil & _).
Qed.

Lemma merged_deps_keys st : dict_keys (merged_deps st) = dict_keys (thirdparty_pkgs st).
Proof.
  unfold merged_deps, dict_keys. rewrite <- list_fmap_compose. by apply list_fmap_ext.
Qed.

Lemma merged_deps_get st k :
  dict_get k (merged_deps st) = snd <$> dict_get k (thirdparty_pkgs st).
Proof.
  unfold merged_deps. induction (thirdparty_pkgs st) as [|[k' [users specs]] tp IH]; [done|].
  simpl. by destruct (decide (k = k')).
Qed.

Lemma mapM_result_ok {A B} (f : A → result B) (l : list A) :
  Forall (fun x => ∃ y, f x = Ok y) l → ∃ ys, mapM f l = Ok ys.
Proof.
  induction 1 as [|x l [y Hy] _ [ys Hys]]; [by exists []|].
  exists (y :: ys). simpl. rewrite Hy. simpl. by rewrite Hys.
Qed.

Lemma aggregate_dep_conflict packages pkg st d specs users old why a b w :
  d ∉ dict_keys packages →
  d ∉ invalid_thirdparty_pkgs st →
  dict_get d (thirdparty_pkgs st) = Some (users, old) →
  find_common_specs old specs = Raise (IncompatibleDependencyError why a b) →
  (∀ n, n ∈ users ∪ {[name pkg]} → n ∈ dict_keys packages) →
  ∃ st' w',
    aggregate_dep packages true pkg st (d, specs) w = (Ok st', w')
    ∧ untouched w w'
    ∧ d ∈ invalid_thirdparty_pkgs st'
    ∧ dict_get d (merged_deps st') = Some old.
Proof.
  intros Hlocal Hvalid Hget Hmerge Husers. unfold aggregate_dep.
  rewrite (proj2 (dict_has_false d packages) Hlocal), (bool_decide_eq_false_2 _ Hvalid).
  simpl. rewrite Hget, Hmerge, bind_run. unfold lift at 1.
  destruct (mapM_result_ok
              (fun pkgname => match dict_get pkgname packages with
                              | Some p => Ok (location p)
                              | None => Raise (KeyError pkgname)
                              end) (elements (users ∪ {[name pkg]}))) as [locations ->].
  { apply Forall_forall. intros n Hn%elem_of_elements%Husers.
    destruct (dict_get n packages) as [p|] eqn:Hp; [by eexists|].
    by apply dict_get_None in Hp. }
  rewrite bind_run. unfold logger at 1. cbv beta iota. rewrite ret_run.
  eexists _, _. split; [reflexivity|]. split; [by split|]. simpl. split; [set_solver|].
  rewrite merged_deps_get. simpl. by rewrite dict_get_set_eq.
Qed.

Lemma aggregate_dep_invalid packages flag pkg st d specs w :
  d ∈ invalid_thirdparty_pkgs st →
  aggregate_dep packages flag pkg st (d, specs) w = (Ok st, w).
Proof.
  intros Hd. unfold aggregate_dep. rewrite (bool_decide_eq_true_2 _ Hd).
  by rewrite orb_true_r.
Qed.

(** C2, as the code has it.  With the tolerance flag set, a requirement for
    [d] that cannot be merged into the entry of [d] marks [d] invalid and
    leaves the entry with the requirement merged so far; a later requirement
    for a name marked invalid changes nothing, and no later round changes the
    entry of such a name; so when the aggregation is over every name marked
    invalid still has its requirement in the merged set passed on. *)
Theorem tolerated_conflict_keeps_requirement :
  ∀ (packages : list (string * Package)),
    (∀ pkg st d specs users old why a b w,
       d ∉ dict_keys packages →
       d ∉ invalid_thirdparty_pkgs st →
       dict_get d (thirdparty_pkgs st) = Some (users, old) →
       find_common_specs old specs = Raise (IncompatibleDependencyError why a b) →
       (∀ n, n ∈ users ∪ {[name pkg]} → n ∈ dict_keys packages) →
       ∃ st' w',
         aggregate_dep packages true pkg st (d, specs) w = (Ok st', w')
         ∧ untouched w w'
         ∧ d ∈ invalid_thirdparty_pkgs st'
         ∧ dict_get d (merged_deps st') = Some old)
    ∧ (∀ flag pkg st d specs w,
         d ∈ invalid_thirdparty_pkgs st →
         aggregate_dep packages flag pkg st (d, specs) w = (Ok st, w))
    ∧ (∀ flag pkg st dep w st' w',
         keeps_invalid st →
         aggregate_dep packages flag pkg st dep w = (Ok st', w') →
         ∀ k, k ∈ invalid_thirdparty_pkgs st →
              k ∈ invalid_thirdparty_pkgs st'
              ∧ dict_get k (merged_deps st') = dict_get k (merged_deps st))
    ∧ (∀ flag w st w',
         aggregate packages flag w = (Ok st, w') →
         ∀ d, d ∈ invalid_thirdparty_pkgs st → d ∈ dict_keys (merged_deps st)).
Proof.
  intros packages. split; [|split; [|split]].
  - intros. by eapply aggregate_dep_conflict.
  - intros. by apply aggregate_dep_invalid.
  - intros flag pkg st [d specs] w st' w' Hinv Hstep k Hk.
    destruct (aggregate_dep_step _ _ _ _ _ _ _ _ _ Hstep Hinv) as (_ & _ & Hstable).
    destruct (Hstable k Hk) as [Hk' Hsame]. split; [done|].
    by rewrite !merged_deps_get, Hsame.
  - intros flag w st w' Hrun d Hd.
    destruct (aggregate_keys _ _ _ _ _ Hrun) as [Hinv _].
    rewrite merged_deps_keys. by apply Hinv.
Qed.

End Aggregation.

(** C2, as the specification words it, fails: [left] wants [foo>=2] and
    [right] wants [foo<1]; with the tolerance flag [foo] is marked invalid,
    and the merged set passed to the install of [left] still requires
    [foo>=2]. *)
Lemma tolerated_conflict_still_installed :
  find_common_specs (VM := Demo.versions) [Demo.plain ">=2"] [Demo.plain "<1"]
  = Raise (IncompatibleDependencyError IncompatibleSpecs
             [Demo.plain ">=2"] [Demo.plain "<1"])
  ∧ ∃ st wa,
      aggregate (VM := Demo.versions) Demo.clash true (Demo.fresh Demo.clash) = (Ok st, wa)
      ∧ "foo" ∈ invalid_thirdparty_pkgs st
      ∧ merged_deps st = [("foo", [Demo.plain ">=2"])]
      ∧ install (VM := Demo.versions) (EX := Demo.externals Demo.clash)
          "left" "." false true false (Demo.fresh Demo.clash)
        = (install_pkg_dependencies (EX := Demo.externals Demo.clash)
             Demo.left [("foo", [Demo.plain ">=2"])] Demo.config None;;
           install_siblings (EX := Demo.externals Demo.clash) Demo.clash "left" Demo.config)
            wa.
Proof.
  split; [by vm_compute|].
  eexists _, _. split; [vm_compute; reflexivity|].
  split; [by apply (bool_decide_unpack _)|].
  split; by vm_compute.
Qed.

(** ** The install command *)

Section InstallCommand.
Context `{VM : VersionModel} `{EX : Externals}.

Lemma install_run package dir ignore_pkg ignore_dep verbose w cfg packages :
  PBTConfig_from_dir dir (files w) = Ok cfg →
  discover_packages (cfg_cwd cfg) (ignore_directories cfg)
    (ignore_directory_names cfg) ignore_pkg (files w) = Ok packages →
  install package dir ignore_pkg ignore_dep verbose w
  = (aggregate packages ignore_dep ≫= install_packages packages package cfg) w.
Proof.
  intros Hcfg Hfound. unfold install. rewrite bind_run, Hcfg.
  by rewrite bind_run, Hfound.
Qed.

(** C1, as the code has it.  When configuration and discovery succeed, the
    aggregation returns and the target is a local package, the command runs
    the cached install of the target with the whole merged set and then
    installs the siblings; the merged set has an entry for exactly the
    dependency names that some local package declares and that are not local
    packages themselves, whichever package declares them. *)
Theorem install_uses_workspace_requirements :
  ∀ (package dir : string) (ignore_pkg ignore_dep verbose : bool) (w wa : World)
    (cfg : PBTConfig) (packages : list (string * Package)) (st : aggregation)
    (target : Package),
    PBTConfig_from_dir dir (files w) = Ok cfg →
    discover_packages (cfg_cwd cfg) (ignore_directories cfg)
      (ignore_directory_names cfg) ignore_pkg (files w) = Ok packages →
    aggregate packages ignore_dep w = (Ok st, wa) →
    dict_get package packages = Some target →
    install package dir ignore_pkg ignore_dep verbose w
    = (install_pkg_dependencies target (merged_deps st) cfg None;;
       install_siblings packages package cfg) wa
    ∧ (∀ d, d ∈ dict_keys (merged_deps st) ↔ third_party_name packages d).
Proof.
  intros package dir ignore_pkg ignore_dep verbose w wa cfg packages st target
    Hcfg Hfound Hagg Htarget.
  split.
  - rewrite (install_run _ _ _ _ _ _ _ _ Hcfg Hfound), bind_run, Hagg.
    unfold install_packages, getitem. by rewrite Htarget.
  - intros d. rewrite merged_deps_keys.
    by destruct (aggregate_keys _ _ _ _ _ Hagg) as [_ ->].
Qed.
End InstallCommand.

Lemma install_uses_workspace_requirements_witness :
  ∃ st wa,
    aggregate (VM := Demo.versions) Demo.workspace false (Demo.fresh Demo.workspace)
    = (Ok st, wa)
    ∧ dict_get "api" Demo.workspace = Some Demo.api
    ∧ install (VM := Demo.versions) (EX := Demo.externals Demo.workspace)
        "api" "." false false false (Demo.fresh Demo.workspace)
      = (install_pkg_dependencies (EX := Demo.externals Demo.workspace)
           Demo.api (merged_deps st) Demo.config None;;
         install_siblings (EX := Demo.externals Demo.workspace)
           Demo.workspace "api" Demo.config) wa
    ∧ (∀ d, d ∈ dict_keys (merged_deps st) ↔ third_party_name Demo.workspace d).
Proof.
  eexists _, _. split; [vm_compute; reflexivity|]. split; [reflexivity|].
  apply (install_uses_workspace_requirements (VM := Demo.versions)
           (EX := Demo.externals Demo.workspace) "api" "." false false false
           (Demo.fresh Demo.workspace) _ Demo.config Demo.workspace _ Demo.api);
    reflexivity.
Defined.

(** C1, as the specification words it, fails: [core] has no dependency at
    all, yet its merged manifest requires [requests], which only [api]
    declares. *)
Lemma install_passes_requirements_of_other_packages :
  dependencies Demo.core = []
  ∧ dict_get "requests" (dependencies Demo.api) = Some [Demo.plain ">=2"]
  ∧ ∃ st wa,
      aggregate (VM := Demo.versions) Demo.workspace false (Demo.fresh Demo.workspace)
      = (Ok st, wa)
      ∧ merged_deps st = [("requests", [Demo.plain ">=2"])]
      ∧ install (VM := Demo.versions) (EX := Demo.externals Demo.workspace)
          "core" "." false false false (Demo.fresh Demo.workspace)
        = (install_pkg_dependencies (EX := Demo.externals Demo.workspace)
             Demo.core [("requests", [Demo.plain ">=2"])] Demo.config None;;
           install_siblings (EX := Demo.externals Demo.workspace)
             Demo.workspace "core" Demo.config) wa
      ∧ files (install (VM := Demo.versions) (EX := Demo.externals Demo.workspace)
                 "core" "." false false false (Demo.fresh Demo.workspace)).2
          !! ("/ws/.cache/core", "pyproject.modified.toml")
        = Some (dumps (Externals := Demo.externals Demo.workspace)
                  (merged_manifest Demo.core [("requests", [Demo.plain ">=2"])])).
Proof.
  split; [reflexivity|]. split; [reflexivity|].
  eexists _, _. split; [vm_compute; reflexivity|].
  split; [by vm_compute|]. split; by vm_compute.
Qed.

(** ** The order of the command *)

Lemma spawned_weaken (P Q : proc_call → Prop) (w w' : World) :
  (∀ c, P c → Q c) → spawned P w w' → spawned Q w w'.
Proof.
  intros HPQ (calls & Hprocs & Hall). exists calls. split; [done|].
  by eapply Forall_impl.
Qed.

Lemma silent_spawned {A} (P : proc_call → Prop) (m : M A) :
  (∀ w, procs (m w).2 = procs w) → respects (spawned P) m.
Proof. intros Hm w. exists []. by rewrite Hm, app_nil_r. Qed.

Lemma os_rename_spawned P src dst : respects (spawned P) (os_rename src dst).
Proof. apply silent_spawned. intros w. unfold os_rename. by destruct (files w !! src). Qed.

Lemma shutil_copy_spawned P src dst : respects (spawned P) (shutil_copy src dst).
Proof. apply silent_spawned. intros w. unfold shutil_copy. by destruct (files w !! src). Qed.

Lemma write_file_spawned P p text : respects (spawned P) (write_file p text).
Proof. by apply silent_spawned. Qed.

Lemma mask_file_spawned {A} P p (body : M A) :
  respects (spawned P) body → respects (spawned P) (mask_file p body).
Proof.
  intros Hbody w. unfold mask_file.
  specialize (Hbody (set_files (delete p (files w)) w)).
  by destruct (body _) as [r w1].
Qed.

Section Order.
Context `{VM : VersionModel} `{EX : Externals}.

Lemma install_pkg_dependencies_spawned pkg deps cfg virtualenv :
  respects (spawned (toolchain_call pkg false))
    (install_pkg_dependencies pkg deps cfg virtualenv).
Proof.
  set (R := spawned (toolchain_call pkg false)).
  assert (∀ b (m : M unit), respects R m → respects R (if b : bool then m else mret ()))
    as Hif by (intros [] m Hm; [done|apply (respects_ret R)]).
  unfold install_pkg_dependencies.
  apply (respects_bind R); [apply write_file_spawned|]. intros _.
  apply (respects_try_finally R).
  - unfold stage_and_install.
    apply (respects_bind R); [apply os_rename_spawned|]. intros _.
    apply (respects_bind R); [apply (respects_path_exists R)|]. intros has_lock.
    apply (respects_bind R); [apply Hif, os_rename_spawned|]. intros _.
    apply (respects_bind R); [apply shutil_copy_spawned|]. intros _.
    apply (respects_bind R); [apply (respects_path_exists R)|]. intros has_modified.
    apply (respects_bind R); [apply Hif, shutil_copy_spawned|]. intros _.
    apply install_poetry_package_spawned.
  - unfold restore.
    apply (respects_bind R); [apply os_rename_spawned|]. intros _.
    apply (respects_bind R); [apply (respects_path_exists R)|]. intros has_lock.
    apply (respects_bind R); [apply Hif, os_rename_spawned|]. intros _.
    apply (respects_bind R); [apply (respects_path_exists R)|]. intros has_origin.
    apply Hif, os_rename_spawned.
Qed.

Lemma install_bare_pkg_spawned pkg cfg virtualenv :
  respects (spawned (toolchain_call pkg true)) (install_bare_pkg pkg cfg virtualenv).
Proof.
  unfold install_bare_pkg. do 2 apply mask_file_spawned.
  apply (respects_bind (spawned _)); [apply write_file_spawned|]. intros _.
  apply install_poetry_package_spawned.
Qed.

Lemma install_siblings_spawned packages package cfg :
  respects (spawned (sibling_call packages package))
    (install_siblings packages package cfg).
Proof.
  set (R := spawned (sibling_call packages package)).
  unfold install_siblings.
  apply (respects_bind R); [apply logger_spawned|]. intros _.
  apply (respects_bind R).
  { unfold getitem. destruct (dict_get _ _); [apply (respects_ret R)|apply (respects_raise R)]. }
  intros target.
  assert (∀ l acc, l ⊆ filter (fun pkg => name pkg ≠ package) (packages.*2) →
            respects R (foldlM (fun _ pkg =>
              install_bare_pkg pkg cfg
                (Some (venv_path (name target) (location target)
                         (python_virtualenvs_path cfg) (get_python_path cfg))))
              acc l)) as Hloop; [|by apply Hloop].
  induction l as [|pkg l IH]; intros acc Hsub; simpl; [apply (respects_ret R)|].
  apply (respects_bind R).
  - intros w. eapply spawned_weaken; [|apply install_bare_pkg_spawned].
    intros c Hc. exists pkg.
    assert (pkg ∈ filter (fun pkg => name pkg ≠ package) (packages.*2)) as Hin
      by (apply Hsub; left).
    apply list_elem_of_filter in Hin as [Hne Hin]. done.
  - intros acc'. apply IH. intros x Hx. apply Hsub. by right.
Qed.

(** C6.  When configuration and discovery succeed, the aggregation runs
    first and to its end without changing a file or starting a process.  If
    it raises, or if the target is not a local package, the command stops
    there, in the world the aggregation left.  Otherwise the cached install
    of the target runs next, starting only the toolchain in the directory of
    the target; if it raises the command stops; if it returns, everything
    started afterwards is a quiet toolchain call of the bare install of some
    other local package. *)
Theorem aggregation_then_target_then_siblings :
  ∀ (package dir : string) (ignore_pkg ignore_dep verbose : bool) (w : World)
    (cfg : PBTConfig) (packages : list (string * Package)),
    PBTConfig_from_dir dir (files w) = Ok cfg →
    discover_packages (cfg_cwd cfg) (ignore_directories cfg)
      (ignore_directory_names cfg) ignore_pkg (files w) = Ok packages →
    ∃ aggregated wa,
      aggregate packages ignore_dep w = (aggregated, wa)
      ∧ untouched w wa
      ∧ match aggregated with
        | Raise e =>
            install package dir ignore_pkg ignore_dep verbose w = (Raise e, wa)
        | Ok st =>
            match dict_get package packages with
            | None =>
                install package dir ignore_pkg ignore_dep verbose w
                = (Raise (KeyError package), wa)
            | Some target =>
                ∃ installed w1,
                  install_pkg_dependencies target (merged_deps st) cfg None wa
                  = (installed, w1)
                  ∧ spawned (toolchain_call target false) wa w1
                  ∧ match installed with
                    | Raise e =>
                        install package dir ignore_pkg ignore_dep verbose w
                        = (Raise e, w1)
                    | Ok _ =>
                        install package dir ignore_pkg ignore_dep verbose w
                        = install_siblings packages package cfg w1
                        ∧ spawned (sibling_call packages package) w1
                            (install_siblings packages package cfg w1).2
                    end
            end
        end.
Proof.
  intros package dir ignore_pkg ignore_dep verbose w cfg packages Hcfg Hfound.
  rewrite (install_run _ _ _ _ _ _ _ _ Hcfg Hfound), bind_run.
  pose proof (aggregate_untouched packages ignore_dep w) as Huntouched.
  destruct (aggregate packages ignore_dep w) as [[st|e] wa]; simpl in Huntouched.
  - exists (Ok st), wa. split; [done|]. split; [done|].
    unfold install_packages, getitem.
    destruct (dict_get package packages) as [target|]; [|done].
    rewrite bind_run, ret_run, bind_run.
    pose proof (install_pkg_dependencies_spawned target (merged_deps st) cfg None wa)
      as Htarget.
    destruct (install_pkg_dependencies target (merged_deps st) cfg None wa)
      as [[[]|e] w1]; simpl in Htarget.
    + exists (Ok ()), w1. split; [done|]. split; [done|]. split; [done|].
      apply install_siblings_spawned.
    + exists (Raise e), w1. by split.
  - exists (Raise e), wa. by split.
Qed.
End Order.

Lemma aggregation_then_target_then_siblings_witness :
  ∃ aggregated wa,
    aggregate (VM := Demo.versions) Demo.workspace false (Demo.fresh Demo.workspace)
    = (aggregated, wa)
    ∧ untouched (Demo.fresh Demo.workspace) wa
    ∧ is_ok aggregated = true
    ∧ procs (install (VM := Demo.versions) (EX := Demo.externals Demo.workspace)
               "api" "." false false false (Demo.fresh Demo.workspace)).2
      = [mkProc "poetry install" "/ws/api"
           (env_of (EX := Demo.externals Demo.workspace) "/venvs/api") false;
         mkProc "poetry install -q" "/ws/core"
           (env_of (EX := Demo.externals Demo.workspace) "/venvs/api") false].
Proof.
  destruct (aggregation_then_target_then_siblings
              (VM := Demo.versions) (EX := Demo.externals Demo.workspace)
              "api" "." false false false (Demo.fresh Demo.workspace)
              Demo.config Demo.workspace eq_refl eq_refl)
    as (aggregated & wa & Hagg & Huntouched & _).
  exists aggregated, wa. split; [exact Hagg|]. split; [exact Huntouched|].
  split; [|by vm_compute].
  vm_compute in Hagg. by injection Hagg as <- _.
Defined.

(** ** Depth-first search *)

Section Search.
Context (g : DiGraph).

Lemma elem_of_successors (u w : string) : w ∈ successors g u ↔ edge g u w.
Proof.
  unfold successors, edge. rewrite list_elem_of_fmap. split.
  - intros ([u' w'] & -> & [Hu Hin]%list_elem_of_filter). simpl in *. by subst.
  - intros Hin. exists (u, w). split; [done|]. by apply list_elem_of_filter.
Qed.

Lemma dfs_weight_cons (u : string) (universe visited : list string) :
  dfs_weight g (u :: universe) visited
  = (if decide (u ∈ visited) then 0 else S (length (successors g u)))
    + dfs_weight g universe visited.
Proof. reflexivity. Qed.

Lemma dfs_weight_mono (universe visited : list string) (v : string) :
  dfs_weight g universe (v :: visited) ≤ dfs_weight g universe visited.
Proof.
  induction universe as [|u universe IH]; [done|]. rewrite !dfs_weight_cons.
  destruct (decide (u ∈ v :: visited)) as [Hin|Hout];
    destruct (decide (u ∈ visited)) as [Hin'|Hout']; try lia.
  destruct Hout. by right.
Qed.

Lemma dfs_weight_visit (universe visited : list string) (v : string) :
  v ∈ universe → v ∉ visited →
  dfs_weight g universe (v :: visited) + S (length (successors g v))
  ≤ dfs_weight g universe visited.
Proof.
  intros Hv Hfresh. induction universe as [|u universe IH]; [by apply elem_of_nil in Hv|].
  pose proof (dfs_weight_mono universe visited v) as Hmono.
  rewrite !dfs_weight_cons.
  destruct (decide (u = v)) as [->|Hne].
  - rewrite decide_True by left. rewrite decide_False by done. lia.
  - apply elem_of_cons in Hv as [?|Hv]; [done|]. specialize (IH Hv).
    destruct (decide (u ∈ v :: visited)) as [Hin|Hout];
      destruct (decide (u ∈ visited)) as [Hin'|Hout']; try lia.
    destruct Hout. by right.
Qed.

Lemma dfs_visit_spec (universe : list string) :
  (∀ u w, edge g u w → w ∈ universe) →
  ∀ fuel stack visited,
    dfs_weight g universe visited + length stack < fuel →
    (∀ x, x ∈ stack → x ∈ universe) →
    NoDup visited →
    ∃ new,
      dfs_visit g fuel stack visited = new ++ visited
      ∧ NoDup (new ++ visited)
      ∧ (∀ x, x ∈ stack → x ∈ new ++ visited)
      ∧ (∀ x, x ∈ new → ∃ s, s ∈ stack ∧ rtc (edge g) s x)
      ∧ (∀ u w, u ∈ new → edge g u w → w ∈ new ++ visited)
      ∧ (∀ v rest, stack = v :: rest → v ∉ visited → ∃ new', new = new' ++ [v]).
Proof.
  intros Hclosed fuel. induction fuel as [|fuel IH]; intros stack visited Hfuel Hstack Hnd;
    [lia|].
  destruct stack as [|v stack]; simpl.
  { exists []. split; [done|]. split; [done|]. split; [by intros x ?%elem_of_nil|].
    split; [by intros x ?%elem_of_nil|]. split; [by intros u w ?%elem_of_nil|].
    by intros v rest ?. }
  destruct (decide (v ∈ visited)) as [Hseen|Hfresh].
  - destruct (IH stack visited) as (new & -> & Hnd' & Hin & Hreach & Hsucc & _).
    { simpl in Hfuel. lia. }
    { intros x Hx. apply Hstack. by right. }
    { done. }
    exists new. split; [done|]. split; [done|]. split; [|split; [|split]].
    + intros x [-> |Hx]%elem_of_cons; [apply elem_of_app; by right|by apply Hin].
    + intros x Hx. destruct (Hreach x Hx) as (s & Hs & Hsx). exists s. split; [by right|done].
    + done.
    + intros v' rest [= <- <-] ?. done.
  - destruct (IH (successors g v ++ stack) (v :: visited))
      as (new & -> & Hnd' & Hin & Hreach & Hsucc & _).
    { pose proof (dfs_weight_visit universe visited v (Hstack v ltac:(left)) Hfresh).
      rewrite length_app. simpl in Hfuel. lia. }
    { intros x [Hx%elem_of_successors|Hx]%elem_of_app;
        [by eapply Hclosed|apply Hstack; by right]. }
    { by constructor. }
    exists (new ++ [v]). rewrite <- !app_assoc. simpl.
    split; [done|]. split; [done|]. split; [|split; [|split]].
    + intros x [-> |Hx]%elem_of_cons.
      * apply elem_of_app. right. left.
      * apply Hin. apply elem_of_app. by right.
    + intros x [Hx| ->%list_elem_of_singleton]%elem_of_app.
      * destruct (Hreach x Hx) as (s & [Hs%elem_of_successors|Hs]%elem_of_app & Hsx).
        -- exists v. split; [left|]. by eapply rtc_l.
        -- exists s. split; [by right|done].
      * exists v. split; [left|done].
    + intros u w [Hu| ->%list_elem_of_singleton]%elem_of_app Hedge.
      * by eapply Hsucc.
      * apply Hin. apply elem_of_app. left. by apply elem_of_successors.
    + intros v' rest [= <- <-] _. by exists new.
Qed.

(** The pre-order from [source]: it starts with [source], repeats no node,
    and holds exactly the nodes that [source] reaches. *)
Lemma dfs_preorder_nodes_spec (source : string) :
  ∃ rest,
    dfs_preorder_nodes g source = source :: rest
    ∧ NoDup (source :: rest)
    ∧ ∀ x, x ∈ source :: rest ↔ rtc (edge g) source x.
Proof.
  unfold dfs_preorder_nodes, dfs_fuel.
  set (universe := source :: (g_edges g).*2).
  destruct (dfs_visit_spec universe) with
    (fuel := 2 + dfs_weight g universe []) (stack := [source]) (visited := @nil string)
    as (new & -> & Hnd & Hin & Hreach & Hsucc & Hlast).
  { intros u w Hedge. right. apply list_elem_of_fmap. by exists (u, w). }
  { change (length [source]) with 1. lia. }
  { intros x ->%list_elem_of_singleton. left. }
  { constructor. }
  destruct (Hlast source [] eq_refl) as [new' ->]; [apply not_elem_of_nil|].
  rewrite app_nil_r in *. rewrite reverse_app. simpl.
  exists (reverse new'). split; [done|]. split.
  - assert (source :: reverse new' ≡ₚ new' ++ [source]) as ->; [|done].
    rewrite reverse_Permutation. apply Permutation_cons_append.
  - intros x.
    assert (x ∈ source :: reverse new' ↔ x ∈ new' ++ [source]) as ->.
    { rewrite elem_of_cons, elem_of_app, elem_of_reverse, list_elem_of_singleton. tauto. }
    split.
    + intros Hx. destruct (Hreach x Hx) as (s & ->%list_elem_of_singleton & Hsx). done.
    + revert x. apply (rtc_ind_r (fun x => x ∈ new' ++ [source])).
      * apply elem_of_app. right. left.
      * intros y z _ Hyz Hy. by eapply Hsucc.
Qed.
End Search.

Lemma elem_of_dfs_preorder_nodes (g : DiGraph) (source x : string) :
  x ∈ dfs_preorder_nodes g source ↔ rtc (edge g) source x.
Proof. destruct (dfs_preorder_nodes_spec g source) as (rest & -> & _ & H). apply H. Qed.

Lemma tc_first_step {A} (R : relation A) (x y : A) :
  tc R x y → ∃ w, R x w ∧ rtc R w y.
Proof.
  intros [x' y' Hxy|x' w z Hxw Hwz].
  - by exists y'.
  - exists w. split; [done|]. by apply tc_rtc.
Qed.

Lemma tc_iff {A} (R S : relation A) (x y : A) :
  (∀ u v, R u v ↔ S u v) → tc R x y ↔ tc S x y.
Proof.
  intros HRS. split; induction 1 as [u v Huv|u v w Huv _ IH];
    solve [apply tc_once; by apply HRS | eapply tc_l; [by apply HRS|done]].
Qed.

Lemma find_cycle_Some (g : DiGraph) (e : string * string) :
  find_cycle g = Some e → edge g e.1 e.2 ∧ rtc (edge g) e.2 e.1.
Proof.
  unfold find_cycle. intros Hhead.
  assert (e ∈ filter (fun e => e.1 ∈ dfs_preorder_nodes g e.2) (g_edges g)) as Hin.
  { destruct (filter _ _) as [|e' l]; [done|]. injection Hhead as ->. left. }
  apply list_elem_of_filter in Hin as [Hreach Hedge].
  split; [by destruct e|]. by apply elem_of_dfs_preorder_nodes.
Qed.

Lemma find_cycle_None (g : DiGraph) : find_cycle g = None ↔ ¬ has_cycle g.
Proof.
  unfold find_cycle, has_cycle. split.
  - intros Hhead (v & Hcycle).
    apply tc_first_step in Hcycle as (w & Hvw & Hwv).
    assert ((v, w) ∈ filter (fun e => e.1 ∈ dfs_preorder_nodes g e.2) (g_edges g)) as Hin.
    { apply list_elem_of_filter. split; [by apply elem_of_dfs_preorder_nodes|done]. }
    destruct (filter _ _); [by apply elem_of_nil in Hin|done].
  - intros Hnone.
    destruct (filter _ _) as [|e l] eqn:Hfilter; [done|].
    destruct Hnone.
    assert (e ∈ filter (fun e => e.1 ∈ dfs_preorder_nodes g e.2) (g_edges g)) as Hin
      by (rewrite Hfilter; left).
    apply list_elem_of_filter in Hin as [Hreach%elem_of_dfs_preorder_nodes Hedge].
    exists e.1. eapply tc_rtc_r; [|exact Hreach]. apply tc_once. by destruct e.
Qed.

(** ** Building the graph *)

Lemma elem_of_dict_keys_set {V} (k k' : string) (v : V) (d : list (string * V)) :
  k' ∈ dict_keys (dict_set k v d) ↔ k' ∈ dict_keys d ∨ k' = k.
Proof.
  rewrite dict_keys_set. destruct (decide (k ∈ dict_keys d)) as [Hin|Hout].
  - split; [by left|]. intros [?| ->]; done.
  - rewrite elem_of_app, list_elem_of_singleton. tauto.
Qed.

Lemma foldlM_result_invariant {A B} (P : B → Prop) (J : list B → A → Prop)
    (f : A → B → result A) :
  (∀ pre x a a', P x → J pre a → f a x = Ok a' → J (pre ++ [x]) a') →
  ∀ l pre a a', Forall P l → J pre a → foldlM f a l = Ok a' → J (pre ++ l) a'.
Proof.
  intros Hstep l. induction l as [|x l IH]; intros pre a a' HP HJ Hrun.
  - simpl in Hrun. injection Hrun as <-. by rewrite app_nil_r.
  - apply Forall_cons in HP as [Hx HP]. simpl in Hrun.
    destruct (f a x) as [a1|e] eqn:Hf; [|done].
    rewrite (cons_middle x pre l), app_assoc. eapply IH; [done| |exact Hrun].
    by eapply Hstep.
Qed.

Lemma foldlM_result_ok {A B} (Q : A → Prop) (f : A → B → result A) :
  (∀ x a, Q a → ∃ a', f a x = Ok a' ∧ Q a') →
  ∀ l a, Q a → ∃ a', foldlM f a l = Ok a' ∧ Q a'.
Proof.
  intros Hstep l. induction l as [|x l IH]; intros a HQ; [by exists a|].
  destruct (Hstep x a HQ) as (a1 & Hf & HQ1). simpl. rewrite Hf. by apply IH.
Qed.

Lemma edge_add_edge (g : DiGraph) (u v x y : string) :
  edge (add_edge g u v) x y ↔ edge g x y ∨ (x = u ∧ y = v).
Proof.
  unfold edge, add_edge. simpl. destruct (bool_decide _) eqn:Hdec.
  - apply bool_decide_eq_true in Hdec. split; [by left|]. intros [?|[-> ->]]; done.
  - rewrite elem_of_app, list_elem_of_singleton. split; intros [?|H]; try by left.
    + right. by injection H.
    + right. by destruct H as [-> ->].
Qed.

Lemma add_dependency_spec pkgs pkg (g g' : DiGraph) (dep : string) specs :
  PkgGraph.add_dependency pkgs pkg g (dep, specs) = Ok g' →
  well_formed g →
  well_formed g'
  ∧ (∀ u v, edge g' u v ↔ edge g u v ∨ (u = name pkg ∧ v = dep))
  ∧ (∀ k, k ∈ dict_keys (g_nodes g) → k ∈ dict_keys (g_nodes g')).
Proof.
  intros Hrun [Hnames Htargets]. unfold PkgGraph.add_dependency in Hrun.
  assert (∀ attr, node_name attr = dep →
            let g1 := add_node g dep attr in
            well_formed (add_edge g1 (name pkg) dep)
            ∧ (∀ u v, edge (add_edge g1 (name pkg) dep) u v
                      ↔ edge g u v ∨ (u = name pkg ∧ v = dep))
            ∧ (∀ k, k ∈ dict_keys (g_nodes g) →
                    k ∈ dict_keys (g_nodes (add_edge g1 (name pkg) dep)))) as Hadd.
  { intros attr Hattr g1. split; [split|split].
    - intros k a. simpl. destruct (decide (k = dep)) as [->|Hne].
      + rewrite dict_get_set_eq. by intros [= <-].
      + rewrite dict_get_set_ne by done. apply Hnames.
    - intros u v [Huv|[-> ->]]%edge_add_edge; simpl; apply elem_of_dict_keys_set.
      + left. by eapply Htargets.
      + by right.
    - intros u v. by rewrite edge_add_edge.
    - intros k Hk. simpl. apply elem_of_dict_keys_set. by left. }
  destruct (has_node g dep) eqn:Hhas; simpl in Hrun.
  - destruct (dict_get dep (g_nodes g)) as [[p|dep_pkg]|] eqn:Hget; [| |done].
    + injection Hrun as <-. split; [split|split].
      * done.
      * intros u v [Huv|[-> ->]]%edge_add_edge; simpl; [by eapply Htargets|].
        by apply dict_has_true in Hhas.
      * intros u v. by rewrite edge_add_edge.
      * done.
    + injection Hrun as <-. apply Hadd. simpl. by apply Hnames in Hget.
  - destruct (dict_has dep pkgs); [done|]. injection Hrun as <-. by apply Hadd.
Qed.

Lemma add_dependency_ok pkgs pkg (g : DiGraph) (dep : string) specs :
  (∀ k, k ∈ dict_keys pkgs → k ∈ dict_keys (g_nodes g)) →
  ∃ g', PkgGraph.add_dependency pkgs pkg g (dep, specs) = Ok g'
        ∧ (∀ k, k ∈ dict_keys pkgs → k ∈ dict_keys (g_nodes g')).
Proof.
  intros Hlocal. unfold PkgGraph.add_dependency.
  destruct (has_node g dep) eqn:Hhas; simpl.
  - apply dict_has_true in Hhas.
    destruct (dict_get dep (g_nodes g)) as [[p|dep_pkg]|] eqn:Hget.
    + eexists. split; [done|]. done.
    + eexists. split; [done|]. intros k Hk. simpl. apply elem_of_dict_keys_set.
      left. by apply Hlocal.
    + by apply dict_get_None in Hget.
  - apply dict_has_false in Hhas.
    destruct (dict_has dep pkgs) eqn:Hdep.
    + apply dict_has_true in Hdep. destruct Hhas. by apply Hlocal.
    + eexists. split; [done|]. intros k Hk. simpl. apply elem_of_dict_keys_set.
      left. by apply Hlocal.
Qed.

Lemma add_local_nodes (l : list Package) (g : DiGraph) :
  well_formed g →
  let g' := foldl (fun g pkg => add_node g (name pkg) (LocalNode pkg)) g l in
  well_formed g'
  ∧ g_edges g' = g_edges g
  ∧ (∀ k, k ∈ dict_keys (g_nodes g') ↔ k ∈ dict_keys (g_nodes g) ∨ k ∈ name <$> l).
Proof.
  revert g. induction l as [|pkg l IH]; intros g Hwf; simpl.
  - split; [done|]. split; [done|]. intros k. split; [by left|].
    intros [?|?%elem_of_nil]; done.
  - destruct (IH (add_node g (name pkg) (LocalNode pkg))) as (Hwf' & Hedges & Hkeys).
    { destruct Hwf as [Hnames Htargets]. split.
      - intros k a. simpl. destruct (decide (k = name pkg)) as [->|Hne].
        + rewrite dict_get_set_eq. by intros [= <-].
        + rewrite dict_get_set_ne by done. apply Hnames.
      - intros u v Huv. simpl. apply elem_of_dict_keys_set. left. by eapply Htargets. }
    split; [done|]. split; [done|]. intros k. rewrite Hkeys. simpl.
    rewrite elem_of_dict_keys_set, elem_of_cons. tauto.
Qed.

Lemma build_spec pkgs (g : DiGraph) :
  PkgGraph.build pkgs = Ok g →
  well_formed g
  ∧ (∀ u v, edge g u v ↔ depends_on pkgs u v)
  ∧ (∀ pkg, pkg ∈ pkgs.*2 → name pkg ∈ dict_keys (g_nodes g)).
Proof.
  unfold PkgGraph.build. intros Hrun.
  destruct (add_local_nodes (pkgs.*2) (mkDiGraph [] [])) as (Hwf0 & Hedges0 & Hkeys0).
  { split; [done|]. by intros u v ?%elem_of_nil. }
  set (g0 := foldl _ _ _) in *.
  pose (J := fun (pre : list Package) (g : DiGraph) =>
    well_formed g
    ∧ (∀ u v, edge g u v
              ↔ ∃ pkg, pkg ∈ pre ∧ name pkg = u ∧ v ∈ dict_keys (dependencies pkg))
    ∧ (∀ k, k ∈ dict_keys (g_nodes g0) → k ∈ dict_keys (g_nodes g))).
  assert (J ([] ++ pkgs.*2) g) as (Hwf & Hedges & Hkeys).
  { eapply (foldlM_result_invariant (fun _ => True) J); [| |shelve|exact Hrun].
    Unshelve.
    - clear Hrun g. intros pre pkg g g' _ (Hwf & Hedges & Hkeys) Hinner.
      pose (K := fun (seen : list (string * DepConstraints)) (g1 : DiGraph) =>
        well_formed g1
        ∧ (∀ u v, edge g1 u v
                  ↔ (∃ p, p ∈ pre ∧ name p = u ∧ v ∈ dict_keys (dependencies p))
                    ∨ (u = name pkg ∧ v ∈ dict_keys seen))
        ∧ (∀ k, k ∈ dict_keys (g_nodes g0) → k ∈ dict_keys (g_nodes g1))).
      assert (K ([] ++ dependencies pkg) g') as (Hwf' & Hedges' & Hkeys').
      { eapply (foldlM_result_invariant (fun _ => True) K); [| |shelve|exact Hinner].
        Unshelve.
        - clear. intros seen [dep specs] g1 g2 _ (Hwf & Hedges & Hkeys) Hstep.
          destruct (add_dependency_spec _ _ _ _ _ _ Hstep Hwf) as (Hwf2 & Hedges2 & Hkeys2).
          split; [done|]. split; [|by intros k ?%Hkeys%Hkeys2].
          intros u v. rewrite Hedges2, Hedges, dict_keys_app, elem_of_app. simpl.
          rewrite list_elem_of_singleton. naive_solver.
        - by apply Forall_forall.
        - split; [done|]. split; [|done]. intros u v. rewrite Hedges.
          split; [by left|]. intros [?|[_ ?%elem_of_nil]]; done. }
      split; [done|]. split; [|done]. intros u v. rewrite Hedges'. simpl. split.
      + intros [(p & Hp & Hu & Hv)|[-> Hv]].
        * exists p. split; [apply elem_of_app; by left|done].
        * exists pkg. split; [apply elem_of_app; right; left|done].
      + intros (p & [Hp| ->%list_elem_of_singleton]%elem_of_app & Hu & Hv).
        * left. by exists p.
        * by right.
    - by apply Forall_forall.
    - split; [done|]. split; [|done]. intros u v. unfold edge. rewrite Hedges0. simpl.
      split; [by intros ?%elem_of_nil|]. by intros (p & ?%elem_of_nil & _). }
  split; [done|]. split; [exact Hedges|].
  intros pkg Hpkg. apply Hkeys, Hkeys0. right. by apply list_elem_of_fmap_2.
Qed.

Lemma keyed_by_name_keys pkgs :
  keyed_by_name pkgs → dict_keys pkgs = name <$> pkgs.*2.
Proof.
  unfold keyed_by_name, dict_keys. induction 1 as [|[k p] l Hk _ IH]; [done|].
  rewrite !fmap_cons. simpl in Hk. subst k. simpl. f_equal. exact IH.
Qed.

Lemma build_ok pkgs : keyed_by_name pkgs → ∃ g, PkgGraph.build pkgs = Ok g.
Proof.
  intros Hkeyed. unfold PkgGraph.build.
  destruct (add_local_nodes (pkgs.*2) (mkDiGraph [] [])) as (_ & _ & Hkeys0).
  { split; [done|]. by intros u v ?%elem_of_nil. }
  set (g0 := foldl _ _ _) in *.
  pose (Q := fun g : DiGraph => ∀ k, k ∈ dict_keys pkgs → k ∈ dict_keys (g_nodes g)).
  destruct (foldlM_result_ok Q
              (fun g pkg => foldlM (PkgGraph.add_dependency pkgs pkg) g (dependencies pkg)))
    with (l := pkgs.*2) (a := g0) as (g & Hg & _).
  - intros pkg g HQ. apply (foldlM_result_ok Q); [|done].
    intros [dep specs] g1 HQ1. by apply add_dependency_ok.
  - intros k Hk. apply Hkeys0. right. by rewrite <- keyed_by_name_keys.
  - by exists g.
Qed.

(** C5.  For a dictionary that maps each local package's name to it,
    [from_pkgs] raises the cyclic-dependency error when some node reaches
    itself along one or more "depends on" edges, whatever the length of the
    cycle, and the edge it reports lies on such a cycle; when no node does,
    it returns the graph, whose edges are exactly the "depends on" pairs. *)
Theorem from_pkgs_detects_cycles :
  ∀ (pkgs : list (string * Package)),
    keyed_by_name pkgs →
    ((∃ v, tc (depends_on pkgs) v v) →
       ∃ cycles,
         PkgGraph.from_pkgs pkgs = Raise (CyclicDependencies cycles)
         ∧ depends_on pkgs cycles.1 cycles.2
         ∧ rtc (depends_on pkgs) cycles.2 cycles.1)
    ∧ (¬ (∃ v, tc (depends_on pkgs) v v) →
         ∃ G,
           PkgGraph.from_pkgs pkgs = Ok G
           ∧ well_formed (PkgGraph.g G)
           ∧ (∀ u v, edge (PkgGraph.g G) u v ↔ depends_on pkgs u v)
           ∧ (∀ pkg, pkg ∈ pkgs.*2 → has_node (PkgGraph.g G) (name pkg) = true)).
Proof.
  intros pkgs Hkeyed. destruct (build_ok pkgs Hkeyed) as [g Hbuild].
  destruct (build_spec pkgs g Hbuild) as (Hwf & Hedges & Hlocal).
  assert (has_cycle g ↔ ∃ v, tc (depends_on pkgs) v v) as Hcyc.
  { unfold has_cycle. split; intros [v Hv]; exists v.
    - by apply (tc_iff (edge g) (depends_on pkgs) v v Hedges).
    - by apply (tc_iff (edge g) (depends_on pkgs) v v Hedges). }
  unfold PkgGraph.from_pkgs. rewrite Hbuild. simpl.
  destruct (find_cycle g) as [cycles|] eqn:Hfind.
  - split.
    + intros _. exists cycles. split; [done|].
      destruct (find_cycle_Some g cycles Hfind) as [Hedge Hback].
      split; [by apply Hedges|].
      eapply rtc_subrel; [|exact Hback]. intros u v. apply Hedges.
    + intros Hnone. destruct Hnone. apply Hcyc.
      destruct (find_cycle_Some g cycles Hfind) as [Hedge Hback].
      exists cycles.1. eapply tc_rtc_r; [by apply tc_once|done].
  - apply find_cycle_None in Hfind. split.
    + intros Hsome. by apply Hcyc in Hsome.
    + intros _. exists (PkgGraph.mk g). split; [done|]. split; [done|]. split; [done|].
      intros pkg Hpkg. apply dict_has_true. by apply Hlocal.
Qed.

Lemma from_pkgs_detects_cycles_witness :
  keyed_by_name Demo.workspace
  ∧ ∃ G,
      PkgGraph.from_pkgs Demo.workspace = Ok G
      ∧ well_formed (PkgGraph.g G)
      ∧ (∀ u v, edge (PkgGraph.g G) u v ↔ depends_on Demo.workspace u v)
      ∧ (∀ pkg, pkg ∈ Demo.workspace.*2 → has_node (PkgGraph.g G) (name pkg) = true).
Proof.
  assert (keyed_by_name Demo.workspace) as Hkeyed by (repeat constructor).
  split; [exact Hkeyed|].
  apply (proj2 (from_pkgs_detects_cycles Demo.workspace Hkeyed)).
  intros [v Hcycle].
  destruct (proj1 (from_pkgs_detects_cycles Demo.workspace Hkeyed) (ex_intro _ v Hcycle))
    as (cycles & Hraise & _).
  by vm_compute in Hraise.
Defined.

Example from_pkgs_mutual_dependency :
  PkgGraph.from_pkgs
    [("a", mkPackage "a" "1" "/ws/a" ["a"] [("b", [Demo.plain ">=1"])] Standard);
     ("b", mkPackage "b" "1" "/ws/b" ["b"] [("a", [Demo.plain ">=1"])] Standard)]
  = Raise (CyclicDependencies ("a", "b")).
Proof. by vm_compute. Qed.

Example from_pkgs_self_dependency :
  PkgGraph.from_pkgs
    [("a", mkPackage "a" "1" "/ws/a" ["a"] [("a", [Demo.plain ">=1"])] Standard)]
  = Raise (CyclicDependencies ("a", "a")).
Proof. by vm_compute. Qed.

(** ** Queries on the graph *)

Lemma from_pkgs_build pkgs (G : PkgGraph.t) :
  PkgGraph.from_pkgs pkgs = Ok G → PkgGraph.build pkgs = Ok (PkgGraph.g G).
Proof.
  unfold PkgGraph.from_pkgs. destruct (PkgGraph.build pkgs) as [g|e]; [|done]. simpl.
  destruct (find_cycle g); [done|]. by intros [= <-].
Qed.

Lemma node_attrs (G : PkgGraph.t) (nodes : list string) :
  well_formed (PkgGraph.g G) →
  (∀ x, x ∈ nodes → x ∈ dict_keys (g_nodes (PkgGraph.g G))) →
  ∃ deps,
    mapM (PkgGraph.node_attr G) nodes = Ok deps
    ∧ node_name <$> deps = nodes
    ∧ Forall (fun d => dict_get (node_name d) (g_nodes (PkgGraph.g G)) = Some d) deps.
Proof.
  intros [Hnames _]. induction nodes as [|x nodes IH]; intros Hin.
  - by exists [].
  - destruct IH as (deps & Hdeps & Hmap & Hall); [intros y Hy; apply Hin; by right|].
    destruct (dict_get x (g_nodes (PkgGraph.g G))) as [a|] eqn:Hget.
    + assert (PkgGraph.node_attr G x = Ok a) as Hx
        by (unfold PkgGraph.node_attr; by rewrite Hget).
      pose proof (Hnames x a Hget) as Hname.
      exists (a :: deps). split; [|split].
      * simpl. rewrite Hx. simpl. by rewrite Hdeps.
      * rewrite fmap_cons. by rewrite Hname, Hmap.
      * constructor; [by rewrite Hname|done].
    + apply dict_get_None in Hget. destruct Hget. apply Hin. left.
Qed.

Lemma third_party_elements (deps : list node_pkg) :
  ThirdPartyNode <$> omap (M := list)
    (fun a => match a with ThirdPartyNode tp => Some tp | _ => None end) deps
  = filter (fun d => is_third_party d = true) deps.
Proof.
  induction deps as [|[p|tp] deps IH]; [done| |].
  - rewrite filter_cons_False by done. done.
  - rewrite filter_cons_True by done. simpl. by rewrite <- IH.
Qed.

Lemma local_elements (deps : list node_pkg) :
  LocalNode <$> omap (M := list)
    (fun a => match a with LocalNode p => Some p | _ => None end) deps
  = filter (fun d => is_local d = true) deps.
Proof.
  induction deps as [|[p|tp] deps IH]; [done| |].
  - rewrite filter_cons_True by done. simpl. by rewrite <- IH.
  - rewrite filter_cons_False by done. done.
Qed.

(** C8.  In a graph built by [from_pkgs], for a node [p]: [dependencies]
    returns the packages of the depth-first pre-order from [p] without its
    first node [p]; these are, once each, exactly the nodes other than [p]
    that [p] reaches; [third_party_dependencies] and [local_dependencies]
    return the third-party and the local elements of that list in its order,
    and every element of the list is in exactly one of the two. *)
Theorem dependencies_are_the_reachable_nodes :
  ∀ (pkgs : list (string * Package)) (G : PkgGraph.t) (p : string),
    PkgGraph.from_pkgs pkgs = Ok G →
    has_node (PkgGraph.g G) p = true →
    ∃ deps tps ls,
      PkgGraph.dependencies G p = Ok deps
      ∧ dfs_preorder_nodes (PkgGraph.g G) p = p :: (node_name <$> deps)
      ∧ NoDup (node_name <$> deps)
      ∧ (∀ n, n ∈ node_name <$> deps ↔ rtc (edge (PkgGraph.g G)) p n ∧ n ≠ p)
      ∧ Forall (fun d => dict_get (node_name d) (g_nodes (PkgGraph.g G)) = Some d) deps
      ∧ PkgGraph.third_party_dependencies G p = Ok tps
      ∧ PkgGraph.local_dependencies G p = Ok ls
      ∧ ThirdPartyNode <$> tps = filter (fun d => is_third_party d = true) deps
      ∧ LocalNode <$> ls = filter (fun d => is_local d = true) deps
      ∧ (∀ d, d ∈ deps →
           (d ∈ ThirdPartyNode <$> tps ∧ d ∉ LocalNode <$> ls)
           ∨ (d ∈ LocalNode <$> ls ∧ d ∉ ThirdPartyNode <$> tps)).
Proof.
  intros pkgs G p Hfrom Hnode.
  destruct (build_spec pkgs _ (from_pkgs_build pkgs G Hfrom)) as (Hwf & _ & _).
  destruct (dfs_preorder_nodes_spec (PkgGraph.g G) p) as (rest & Hdfs & Hnd & Hreach).
  apply NoDup_cons in Hnd as [Hfirst Hnd].
  assert (∀ n, n ∈ rest ↔ rtc (edge (PkgGraph.g G)) p n ∧ n ≠ p) as Hrest.
  { intros n. rewrite <- Hreach, elem_of_cons. split.
    - intros Hn. split; [by right|]. by intros ->.
    - intros [[?|?] ?]; done. }
  destruct (node_attrs G rest Hwf) as (deps & Hdeps & Hmap & Hall).
  { intros x [Hpx Hne]%Hrest. apply rtc_inv_r in Hpx as [->|(u & _ & Hux)]; [done|].
    destruct Hwf as [_ Htargets]. by eapply Htargets. }
  assert (PkgGraph.dependencies G p = Ok deps) as Hrun.
  { unfold PkgGraph.dependencies. rewrite Hnode, Hdfs. simpl. by rewrite decide_True. }
  exists deps, (omap (M := list)
                  (fun a => match a with ThirdPartyNode tp => Some tp | _ => None end) deps),
    (omap (M := list) (fun a => match a with LocalNode q => Some q | _ => None end) deps).
  split; [done|]. split; [by rewrite Hmap|]. split; [by rewrite Hmap|].
  split; [by rewrite Hmap|]. split; [done|].
  split; [unfold PkgGraph.third_party_dependencies; by rewrite Hrun|].
  split; [unfold PkgGraph.local_dependencies; by rewrite Hrun|].
  split; [apply third_party_elements|]. split; [apply local_elements|].
  intros d Hd. rewrite third_party_elements, local_elements.
  rewrite !list_elem_of_filter. destruct d as [q|tp]; simpl.
  - right. split; [done|]. by intros [? _].
  - left. split; [done|]. by intros [? _].
Qed.

Lemma dependencies_are_the_reachable_nodes_witness :
  ∃ G deps tps ls,
    PkgGraph.from_pkgs Demo.workspace = Ok G
    ∧ has_node (PkgGraph.g G) "api" = true
    ∧ PkgGraph.dependencies G "api" = Ok deps
    ∧ node_name <$> deps = ["core"; "requests"]
    ∧ PkgGraph.third_party_dependencies G "api" = Ok tps
    ∧ PkgGraph.local_dependencies G "api" = Ok ls
    ∧ tp_name <$> tps = ["requests"]
    ∧ ls = [Demo.core].
Proof.
  destruct (PkgGraph.from_pkgs Demo.workspace) as [G|e] eqn:Hfrom; [|by vm_compute in Hfrom].
  assert (has_node (PkgGraph.g G) "api" = true) as Hnode.
  { vm_compute in Hfrom. injection Hfrom as <-. by vm_compute. }
  destruct (dependencies_are_the_reachable_nodes Demo.workspace G "api" Hfrom Hnode)
    as (deps & tps & ls & Hdeps & _ & _ & _ & _ & Htps & Hls & _).
  exists G, deps, tps, ls.
  vm_compute in Hfrom. injection Hfrom as <-.
  vm_compute in Hdeps. injection Hdeps as <-.
  vm_compute in Htps. injection Htps as <-.
  vm_compute in Hls. injection Hls as <-.
  repeat split; by vm_compute.
Defined.

(** * Further properties *)

(** ** What the toolchain delegation runs *)

Section Delegation.
Context `{EX : Externals}.

Lemma install_poetry_package_without_lock pkg cfg virtualenv quiet (w : World) :
  files w !! (location pkg, "poetry.lock") = None →
  install_poetry_package pkg cfg virtualenv quiet w
  = exec ("poetry install" +:+ quiet_flag quiet) (location pkg) false
      (env_of (resolved_virtualenv pkg cfg virtualenv)) w.
Proof.
  intros Hlock. unfold install_poetry_package.
  rewrite bind_run, path_exists_run, Hlock.
  rewrite (bool_decide_eq_false_2 (is_Some None)) by (by intros [? ?]).
  by rewrite bind_run, ret_run.
Qed.

Lemma install_poetry_package_trace :
  ∀ (pkg : Package) (cfg : PBTConfig) (virtualenv : option string) (quiet : bool)
    (w : World),
    let v := resolved_virtualenv pkg cfg virtualenv in
    let check := poetry_call pkg v quiet "poetry check --lock" true in
    let relock := poetry_call pkg v quiet "poetry lock --no-update" false in
    let inst := poetry_call pkg v quiet "poetry install" false in
    let out := install_poetry_package pkg cfg virtualenv quiet w in
    match files w !! (location pkg, "poetry.lock") with
    | None =>
        procs out.2 = procs w ++ [inst] ∧ logs out.2 = logs w
        ∧ files out.2 = (run_process inst (files w)).2
        ∧ (out.1 = Ok () ↔ (run_process inst (files w)).1 = true)
    | Some _ =>
        let checked := run_process check (files w) in
        if checked.1
        then procs out.2 = procs w ++ [check; inst] ∧ logs out.2 = logs w
             ∧ files out.2 = (run_process inst checked.2).2
             ∧ (out.1 = Ok () ↔ (run_process inst checked.2).1 = true)
        else
          let relocked := run_process relock checked.2 in
          logs out.2 = logs w ++ [(DEBUG, MsgLockInconsistent (name pkg))]
          ∧ if relocked.1
            then procs out.2 = procs w ++ [check; relock; inst]
                 ∧ files out.2 = (run_process inst relocked.2).2
                 ∧ (out.1 = Ok () ↔ (run_process inst relocked.2).1 = true)
            else procs out.2 = procs w ++ [check; relock]
                 ∧ files out.2 = relocked.2
                 ∧ out.1 = Raise (ExecProcessError
                                    ("poetry lock --no-update" +:+ quiet_flag quiet))
    end.
Proof.
  intros pkg cfg virtualenv quiet w. cbv zeta.
  remember (install_poetry_package pkg cfg virtualenv quiet w) as out eqn:Hout.
  unfold install_poetry_package in Hout. unfold poetry_call.
  fold (resolved_virtualenv pkg cfg virtualenv) in Hout.
  set (v := resolved_virtualenv pkg cfg virtualenv) in *.
  rewrite bind_run, path_exists_run in Hout.
  destruct (files w !! (location pkg, "poetry.lock")) as [lock|] eqn:Hlock.
  - rewrite (bool_decide_eq_true_2 _ (mk_is_Some _ _ eq_refl)), bind_run in Hout.
    unfold except_ExecProcessError, exec at 1 in Hout. cbv beta iota zeta in Hout.
    destruct (run_process _ (files w)) as [[] fs1] eqn:Hcheck; simpl in *.
    + unfold exec in Hout. simpl in Hout.
      destruct (run_process _ fs1) as [[] fs2]; subst out; simpl;
        rewrite <- app_assoc; repeat split; done.
    + rewrite bind_run in Hout. unfold logger at 1 in Hout. cbv beta iota in Hout.
      unfold exec at 1 in Hout. simpl in Hout.
      destruct (run_process _ fs1) as [[] fs2] eqn:Hrelock; simpl in *.
      * unfold exec in Hout. simpl in Hout.
        destruct (run_process _ fs2) as [[] fs3]; subst out; simpl;
          rewrite <- !app_assoc; repeat split; done.
      * subst out. simpl. rewrite <- app_assoc. done.
  - rewrite (bool_decide_eq_false_2 (is_Some None)) in Hout by (by intros [? ?]).
    rewrite bind_run, ret_run in Hout. unfold exec in Hout. simpl in Hout.
    destruct (run_process _ (files w)) as [[] fs1]; subst out; simpl; repeat split; done.
Qed.

Lemma install_bare_pkg_run :
  ∀ (pkg : Package) (cfg : PBTConfig) (virtualenv : option string) (w : World),
    let inst := poetry_call pkg (resolved_virtualenv pkg cfg virtualenv) true
                  "poetry install" false in
    let ran := run_process inst (bare_files pkg (files w)) in
    let out := install_bare_pkg pkg cfg virtualenv w in
    procs out.2 = procs w ++ [inst]
    ∧ logs out.2 = logs w
    ∧ out.1 = (if ran.1 then Ok ()
               else Raise (ExecProcessError ("poetry install" +:+ quiet_flag true)))
    ∧ files out.2 !! (location pkg, "pyproject.toml")
      = files w !! (location pkg, "pyproject.toml")
    ∧ files out.2 !! (location pkg, "poetry.lock")
      = files w !! (location pkg, "poetry.lock")
    ∧ (∀ p, p ≠ (location pkg, "pyproject.toml") → p ≠ (location pkg, "poetry.lock") →
            files out.2 !! p = ran.2 !! p).
Proof.
  intros pkg cfg virtualenv w. cbv zeta.
  remember (install_bare_pkg pkg cfg virtualenv w) as out eqn:Hout.
  unfold install_bare_pkg, mask_file in Hout. rewrite bind_run in Hout.
  unfold write_file at 1 in Hout. cbv beta iota in Hout.
  rewrite install_poetry_package_without_lock in Hout by (look; done).
  unfold exec in Hout. cbn [files set_files procs logs] in Hout.
  unfold poetry_call, bare_files.
  destruct (run_process _ _) as [ok fs] eqn:Hran. subst out.
  cbn [fst snd files set_files procs logs].
  split; [done|]. split; [done|]. split; [done|].
  rewrite (lookup_delete_ne (files w)) by congruence.
  destruct (files w !! (location pkg, "pyproject.toml")) as [manifest|];
    destruct (files w !! (location pkg, "poetry.lock")) as [lock|].
  all: split; [by look|]; split; [by look|].
  all: intros p Hman Hlock; by look.
Qed.
(** X1.  [install_poetry_package] checks the lock only when the package
    directory has one, regenerates it only after a failed check, logging
    that, and runs the install step last, unless the regeneration fails:
    then it raises that failure and the install step is not run. *)
Theorem install_poetry_package_calls :
  ∀ (pkg : Package) (cfg : PBTConfig) (virtualenv : option string) (quiet : bool)
    (w : World),
    let v := resolved_virtualenv pkg cfg virtualenv in
    let check := poetry_call pkg v quiet "poetry check --lock" true in
    let relock := poetry_call pkg v quiet "poetry lock --no-update" false in
    let inst := poetry_call pkg v quiet "poetry install" false in
    let out := install_poetry_package pkg cfg virtualenv quiet w in
    match files w !! (location pkg, "poetry.lock") with
    | None =>
        procs out.2 = procs w ++ [inst] ∧ logs out.2 = logs w
        ∧ files out.2 = (run_process inst (files w)).2
        ∧ (out.1 = Ok () ↔ (run_process inst (files w)).1 = true)
    | Some _ =>
        let checked := run_process check (files w) in
        if checked.1
        then procs out.2 = procs w ++ [check; inst] ∧ logs out.2 = logs w
             ∧ files out.2 = (run_process inst checked.2).2
             ∧ (out.1 = Ok () ↔ (run_process inst checked.2).1 = true)
        else
          let relocked := run_process relock checked.2 in
          logs out.2 = logs w ++ [(DEBUG, MsgLockInconsistent (name pkg))]
          ∧ if relocked.1
            then procs out.2 = procs w ++ [check; relock; inst]
                 ∧ files out.2 = (run_process inst relocked.2).2
                 ∧ (out.1 = Ok () ↔ (run_process inst relocked.2).1 = true)
            else procs out.2 = procs w ++ [check; relock]
                 ∧ files out.2 = relocked.2
                 ∧ out.1 = Raise (ExecProcessError
                                    ("poetry lock --no-update" +:+ quiet_flag quiet))
    end.
Proof. exact install_poetry_package_trace. Qed.

(** X2.  A bare install starts exactly one process, the quiet install step
    in the package's directory, on the minimal manifest and with no lock in
    place; it returns when that process exits with zero and raises its failure
    otherwise; afterwards
    the package's manifest and lock are what they were before, present or
    absent, and every other file is as the process left it. *)
Theorem install_bare_pkg_outcome :
  ∀ (pkg : Package) (cfg : PBTConfig) (virtualenv : option string) (w : World),
    let inst := poetry_call pkg (resolved_virtualenv pkg cfg virtualenv) true
                  "poetry install" false in
    let ran := run_process inst (bare_files pkg (files w)) in
    let out := install_bare_pkg pkg cfg virtualenv w in
    procs out.2 = procs w ++ [inst]
    ∧ logs out.2 = logs w
    ∧ out.1 = (if ran.1 then Ok ()
               else Raise (ExecProcessError ("poetry install" +:+ quiet_flag true)))
    ∧ files out.2 !! (location pkg, "pyproject.toml")
      = files w !! (location pkg, "pyproject.toml")
    ∧ files out.2 !! (location pkg, "poetry.lock")
      = files w !! (location pkg, "poetry.lock")
    ∧ (∀ p, p ≠ (location pkg, "pyproject.toml") → p ≠ (location pkg, "poetry.lock") →
            files out.2 !! p = ran.2 !! p).
Proof. exact install_bare_pkg_run. Qed.

Lemma install_bare_pkgs_run (cfg : PBTConfig) (v : string) (l : list Package) (w : World) :
  let call := fun pkg => poetry_call pkg v true "poetry install" false in
  let out := foldlM (fun _ pkg => install_bare_pkg pkg cfg (Some v)) () l w in
  ∃ done,
    done `prefix_of` l
    ∧ procs out.2 = procs w ++ (call <$> done)
    ∧ logs out.2 = logs w
    ∧ (out.1 = Ok () → done = l)
    ∧ (out.1 = Ok ()
       ∨ out.1 = Raise (ExecProcessError ("poetry install" +:+ quiet_flag true))).
Proof.
  cbv zeta. revert w. induction l as [|pkg l IH]; intros w.
  - exists []. simpl. rewrite app_nil_r. repeat split; try done. by left.
  - simpl. rewrite bind_run.
    destruct (install_bare_pkg_run pkg cfg (Some v) w) as (Hprocs & Hlogs & Hout & _).
    destruct (install_bare_pkg pkg cfg (Some v) w) as [r w1]. simpl in *.
    destruct (run_process _ _) as [[] fs]; simpl in Hout; subst r.
    + destruct (IH w1) as (done & Hpre & Hp & Hl & Hok & Hcase).
      exists (pkg :: done). split; [by apply prefix_cons|].
      split; [rewrite Hp, Hprocs, <- app_assoc; done|].
      split; [congruence|]. split; [|done]. intros H. by rewrite (Hok H).
    + exists [pkg]. split; [apply prefix_cons, prefix_nil|].
      split; [done|]. split; [done|]. split; [done|]. by right.
Qed.


Lemma install_poetry_package_env pkg cfg virtualenv quiet :
  respects (spawned (fun call => env call = env_of (resolved_virtualenv pkg cfg virtualenv)))
    (install_poetry_package pkg cfg virtualenv quiet).
Proof.
  intros w. pose proof (install_poetry_package_trace pkg cfg virtualenv quiet w) as H.
  cbv zeta in H. unfold spawned.
  destruct (files w !! (location pkg, "poetry.lock")).
  - destruct (run_process _ (files w)) as [[] fs1]; simpl in H.
    + destruct H as (-> & _). eexists. split; [done|]. by repeat constructor.
    + destruct H as (_ & H). destruct (run_process _ fs1) as [[] fs2]; simpl in H;
        destruct H as (-> & _); (eexists; split; [done|]; by repeat constructor).
  - destruct H as (-> & _). eexists. split; [done|]. by repeat constructor.
Qed.

Lemma install_pkg_dependencies_spawned_by (P : proc_call → Prop) pkg deps cfg virtualenv :
  respects (spawned P) (install_poetry_package pkg cfg virtualenv false) →
  respects (spawned P) (install_pkg_dependencies pkg deps cfg virtualenv).
Proof.
  intros Hipp. set (R := spawned P).
  assert (∀ b (m : M unit), respects R m → respects R (if b : bool then m else mret ()))
    as Hif by (intros [] m Hm; [done|apply (respects_ret R)]).
  unfold install_pkg_dependencies.
  apply (respects_bind R); [apply write_file_spawned|]. intros _.
  apply (respects_try_finally R).
  - unfold stage_and_install.
    apply (respects_bind R); [apply os_rename_spawned|]. intros _.
    apply (respects_bind R); [apply (respects_path_exists R)|]. intros has_lock.
    apply (respects_bind R); [apply Hif, os_rename_spawned|]. intros _.
    apply (respects_bind R); [apply shutil_copy_spawned|]. intros _.
    apply (respects_bind R); [apply (respects_path_exists R)|]. intros has_modified.
    apply (respects_bind R); [apply Hif, shutil_copy_spawned|]. intros _.
    apply Hipp.
  - unfold restore.
    apply (respects_bind R); [apply os_rename_spawned|]. intros _.
    apply (respects_bind R); [apply (respects_path_exists R)|]. intros has_lock.
    apply (respects_bind R); [apply Hif, os_rename_spawned|]. intros _.
    apply (respects_bind R); [apply (respects_path_exists R)|]. intros has_origin.
    apply Hif, os_rename_spawned.
Qed.

Lemma env_of_contents (v : string) :
  env_of v
  = (PassThrough <$> ["CC"; "CXX"; "LIBCLANG_PATH"; "LD_LIBRARY_PATH"; "C_INCLUDE_PATH";
                      "CPLUS_INCLUDE_PATH"; "CARGO_HOME"; "RUSTUP_HOME"])
    ++ [NewEnvVar "VIRTUAL_ENV" v;
        NewEnvVar "PATH" ((v +:+ "/bin") +:+ os_pathsep
                          +:+ default "" (dict_get "PATH" os_environ))].
Proof. reflexivity. Qed.

(** X4.  When the target is a local package, every process the install
    phase starts, for the target and for each sibling alike, gets the same
    environment: the pass-through variables without [PATH], [VIRTUAL_ENV]
    set to the virtual environment of the target, and a [PATH] that starts
    with that environment's [bin] directory. *)
Theorem install_in_target_virtualenv :
  ∀ (packages : list (string * Package)) (package : string) (cfg : PBTConfig)
    (st : aggregation) (target : Package) (w : World),
    dict_get package packages = Some target →
    let v := venv_path (name target) (location target)
               (python_virtualenvs_path cfg) (get_python_path cfg) in
    spawned (fun call => env call = env_of v) w
      (install_packages packages package cfg st w).2
    ∧ NewEnvVar "VIRTUAL_ENV" v ∈ env_of v
    ∧ NewEnvVar "PATH" ((v +:+ "/bin") +:+ os_pathsep
                        +:+ default "" (dict_get "PATH" os_environ)) ∈ env_of v
    ∧ (∀ value, NewEnvVar "PATH" value ∈ env_of v →
         value = (v +:+ "/bin") +:+ os_pathsep +:+ default "" (dict_get "PATH" os_environ))
    ∧ PassThrough "PATH" ∉ env_of v.
Proof.
  intros packages package cfg st target w Htarget v.
  split.
  2: { rewrite env_of_contents. simpl.
       split; [repeat first [left|right]|]. split; [repeat first [left|right]|].
       split; [intros value H|intros H].
       all: repeat (apply elem_of_cons in H as [H|H]; [by simplify_eq|]).
       all: by apply elem_of_nil in H. }
  set (R := spawned (fun call => env call = env_of v)).
  assert (respects R (install_pkg_dependencies target (merged_deps st) cfg None
                      ≫= fun _ => install_siblings packages package cfg)) as Hrest.
  { apply (respects_bind R).
    - apply install_pkg_dependencies_spawned_by.
      apply (install_poetry_package_env target cfg None false).
    - intros _ w0. unfold install_siblings.
      rewrite bind_run. unfold logger at 1. cbv beta iota.
      rewrite bind_run. unfold getitem. rewrite Htarget, ret_run.
      destruct (install_bare_pkgs_run cfg v
                  (filter (fun pkg => name pkg ≠ package) (packages.*2))
                  (mkWorld (files w0) (procs w0)
                     (logs w0 ++ [(INFO, MsgInstallingLocalPackages
                                           (name <$> filter (fun pkg => name pkg ≠ package)
                                                       (packages.*2)))])))
        as (done & _ & Hp & _).
      eexists. split; [exact Hp|]. apply Forall_fmap, Forall_forall. by intros pkg _. }
  unfold install_packages, getitem. rewrite Htarget, bind_run, ret_run. apply Hrest.
Qed.

End Delegation.


Lemma install_in_target_virtualenv_witness :
  dict_get "api" Demo.workspace = Some Demo.api
  ∧ spawned (fun call => env call = env_of (EX := Demo.externals Demo.workspace) "/venvs/api")
      (Demo.fresh Demo.workspace)
      (install_packages (EX := Demo.externals Demo.workspace) Demo.workspace "api"
         Demo.config (mkAgg [("requests", ({["api"]}, [Demo.plain ">=2"]))] ∅)
         (Demo.fresh Demo.workspace)).2
  ∧ NewEnvVar "VIRTUAL_ENV" "/venvs/api"
    ∈ env_of (EX := Demo.externals Demo.workspace) "/venvs/api"
  ∧ NewEnvVar "PATH" "/venvs/api/bin:/usr/bin"
    ∈ env_of (EX := Demo.externals Demo.workspace) "/venvs/api"
  ∧ (∀ value, NewEnvVar "PATH" value
              ∈ env_of (EX := Demo.externals Demo.workspace) "/venvs/api" →
       value = "/venvs/api/bin:/usr/bin")
  ∧ PassThrough "PATH" ∉ env_of (EX := Demo.externals Demo.workspace) "/venvs/api".
Proof.
  split; [reflexivity|].
  exact (install_in_target_virtualenv (EX := Demo.externals Demo.workspace) Demo.workspace
           "api" Demo.config (mkAgg [("requests", ({["api"]}, [Demo.plain ">=2"]))] ∅)
           Demo.api (Demo.fresh Demo.workspace) eq_refl).
Defined.

(** ** The file protocol of the cached install *)

Section Protocol.
Context `{EX : Externals}.

Lemma restore_run_full :
  ∀ (pkg : Package) (cfg : PBTConfig) (w : World),
    let cache := pkg_cache_dir cfg pkg in
    let loc := location pkg in
    match files w !! (cache, "pyproject.origin.toml") with
    | None =>
        restore pkg cfg w = (Raise (FileNotFoundError cache "pyproject.origin.toml"), w)
    | Some manifest =>
        ∃ w',
          restore pkg cfg w = (Ok (), w')
          ∧ procs w' = procs w ∧ logs w' = logs w
          ∧ files w' !! (loc, "pyproject.toml") = Some manifest
          ∧ files w' !! (loc, "poetry.lock") = files w !! (cache, "poetry.origin.lock")
          ∧ files w' !! (cache, "poetry.modified.lock")
            = match files w !! (loc, "poetry.lock") with
              | Some lock => Some lock
              | None => files w !! (cache, "poetry.modified.lock")
              end
          ∧ files w' !! (cache, "pyproject.origin.toml") = None
          ∧ files w' !! (cache, "poetry.origin.lock") = None
          ∧ (∀ p, p ∉ [(loc, "pyproject.toml"); (loc, "poetry.lock");
                       (cache, "poetry.modified.lock"); (cache, "pyproject.origin.toml");
                       (cache, "poetry.origin.lock")] →
                  files w' !! p = files w !! p)
    end.
Proof.
  intros pkg cfg w. cbv zeta. unfold restore.
  set (cache := pkg_cache_dir cfg pkg) in *. set (loc := location pkg) in *.
  destruct (files w !! (cache, "pyproject.origin.toml")) as [manifest|] eqn:Hori.
  - destruct (files w !! (loc, "poetry.lock")) as [lock|] eqn:Hlock;
    destruct (files w !! (cache, "poetry.origin.lock")) as [olock|] eqn:Holock.
    all: run; rewrite Hlock; decide_exists; run; rewrite Holock; decide_exists; run.
    all: eexists; split; [reflexivity|]; look.
    all: repeat (split; [done|]).
    all: intros p Hp; repeat (apply not_elem_of_cons in Hp as [? Hp]); by look.
  - rewrite bind_run. unfold os_rename at 1. by rewrite Hori.
Qed.

Lemma stage_and_install_staged pkg cfg virtualenv (w : World) (manifest text : string) :
  files w !! (location pkg, "pyproject.toml") = Some manifest →
  files w !! (pkg_cache_dir cfg pkg, "pyproject.modified.toml") = Some text →
  ∃ staged,
    stage_and_install pkg cfg virtualenv w
    = install_poetry_package pkg cfg virtualenv false staged
    ∧ procs staged = procs w ∧ logs staged = logs w
    ∧ files staged !! (location pkg, "pyproject.toml") = Some text
    ∧ files staged !! (location pkg, "poetry.lock")
      = files w !! (pkg_cache_dir cfg pkg, "poetry.modified.lock")
    ∧ files staged !! (pkg_cache_dir cfg pkg, "pyproject.origin.toml") = Some manifest
    ∧ files staged !! (pkg_cache_dir cfg pkg, "poetry.origin.lock")
      = match files w !! (location pkg, "poetry.lock") with
        | Some lock => Some lock
        | None => files w !! (pkg_cache_dir cfg pkg, "poetry.origin.lock")
        end.
Proof.
  intros Hman Hmod. unfold stage_and_install.
  set (cache := pkg_cache_dir cfg pkg) in *. set (loc := location pkg) in *.
  destruct (files w !! (loc, "poetry.lock")) as [lock|] eqn:Hlock;
  destruct (files w !! (cache, "poetry.modified.lock")) as [mlock|] eqn:Hmlock.
  all: cbv zeta; run; rewrite Hlock; decide_exists; run;
       rewrite Hmlock; decide_exists; run.
  all: eexists; split; [reflexivity|]; look; by repeat split.
Qed.
(** X5.  The [finally] block.  Without an origin manifest in the cache it
    raises [FileNotFoundError] and changes nothing.  With one it returns and
    starts no process: the origin manifest becomes the package's manifest;
    the lock in the package directory, if any, becomes the cached modified
    lock; the origin lock, if any, becomes the package's lock, which is
    absent otherwise; no origin file stays in the cache and no other file
    changes. *)
Theorem restore_outcome :
  ∀ (pkg : Package) (cfg : PBTConfig) (w : World),
    let cache := pkg_cache_dir cfg pkg in
    let loc := location pkg in
    match files w !! (cache, "pyproject.origin.toml") with
    | None =>
        restore pkg cfg w = (Raise (FileNotFoundError cache "pyproject.origin.toml"), w)
    | Some manifest =>
        ∃ w',
          restore pkg cfg w = (Ok (), w')
          ∧ procs w' = procs w ∧ logs w' = logs w
          ∧ files w' !! (loc, "pyproject.toml") = Some manifest
          ∧ files w' !! (loc, "poetry.lock") = files w !! (cache, "poetry.origin.lock")
          ∧ files w' !! (cache, "poetry.modified.lock")
            = match files w !! (loc, "poetry.lock") with
              | Some lock => Some lock
              | None => files w !! (cache, "poetry.modified.lock")
              end
          ∧ files w' !! (cache, "pyproject.origin.toml") = None
          ∧ files w' !! (cache, "poetry.origin.lock") = None
          ∧ (∀ p, p ∉ [(loc, "pyproject.toml"); (loc, "poetry.lock");
                       (cache, "poetry.modified.lock"); (cache, "pyproject.origin.toml");
                       (cache, "poetry.origin.lock")] →
                  files w' !! p = files w !! p)
    end.
Proof. exact restore_run_full. Qed.

(** X6.  When the package has its manifest, what the toolchain works on is
    the merged manifest in place of the real one, and as lock the modified
    lock cached by an earlier install, if any, never the package's own lock;
    the rest of [install_pkg_dependencies] is the delegation followed by the
    [finally] block. *)
Theorem cached_install_toolchain_input :
  ∀ (pkg : Package) (deps : list (string * DepConstraints)) (cfg : PBTConfig)
    (virtualenv : option string) (w : World) (manifest : string),
    files w !! (location pkg, "pyproject.toml") = Some manifest →
    ∃ staged,
      install_pkg_dependencies pkg deps cfg virtualenv w
      = try_finally (install_poetry_package pkg cfg virtualenv false) (restore pkg cfg) staged
      ∧ procs staged = procs w ∧ logs staged = logs w
      ∧ files staged !! (location pkg, "pyproject.toml")
        = Some (dumps (merged_manifest pkg deps))
      ∧ files staged !! (location pkg, "poetry.lock")
        = files w !! (pkg_cache_dir cfg pkg, "poetry.modified.lock").
Proof.
  intros pkg deps cfg virtualenv w manifest Hman.
  unfold install_pkg_dependencies. rewrite bind_run.
  unfold write_file at 1. cbv beta iota.
  set (w0 := set_files _ w).
  destruct (stage_and_install_staged pkg cfg virtualenv w0 manifest
              (dumps (merged_manifest pkg deps)))
    as (staged & Hrun & Hprocs & Hlogs & Hm & Hl & _).
  { subst w0. by look. }
  { subst w0. by look. }
  exists staged. split; [unfold try_finally; by rewrite Hrun|].
  split; [done|]. split; [done|]. split; [done|].
  rewrite Hl. subst w0. by look.
Qed.

(** X7.  When the package has its manifest and the toolchain leaves the two
    origin files in the cache alone, then whether the toolchain returns or
    raises: the outcome is the toolchain's; the lock it left in the package
    directory, if any, is the cached modified lock afterwards; the package's
    lock is its old one, or, if it had none, an origin lock that was lying
    in the cache; and no origin file stays in the cache. *)
Theorem cached_install_rotates_locks :
  ∀ (pkg : Package) (deps : list (string * DepConstraints)) (cfg : PBTConfig)
    (virtualenv : option string) (w : World) (manifest : string),
    files w !! (location pkg, "pyproject.toml") = Some manifest →
    leaves_alone (pkg_cache_dir cfg pkg, "pyproject.origin.toml") →
    leaves_alone (pkg_cache_dir cfg pkg, "poetry.origin.lock") →
    ∃ staged outcome left after,
      install_poetry_package pkg cfg virtualenv false staged = (outcome, left)
      ∧ install_pkg_dependencies pkg deps cfg virtualenv w = (outcome, after)
      ∧ files after !! (pkg_cache_dir cfg pkg, "poetry.modified.lock")
        = match files left !! (location pkg, "poetry.lock") with
          | Some lock => Some lock
          | None => files left !! (pkg_cache_dir cfg pkg, "poetry.modified.lock")
          end
      ∧ files after !! (location pkg, "poetry.lock")
        = match files w !! (location pkg, "poetry.lock") with
          | Some lock => Some lock
          | None => files w !! (pkg_cache_dir cfg pkg, "poetry.origin.lock")
          end
      ∧ files after !! (pkg_cache_dir cfg pkg, "pyproject.origin.toml") = None
      ∧ files after !! (pkg_cache_dir cfg pkg, "poetry.origin.lock") = None.
Proof.
  intros pkg deps cfg virtualenv w manifest Hman Hori Holock.
  unfold install_pkg_dependencies. rewrite bind_run.
  unfold write_file at 1. cbv beta iota.
  set (w0 := set_files _ w).
  destruct (stage_and_install_staged pkg cfg virtualenv w0 manifest
              (dumps (merged_manifest pkg deps)))
    as (staged & Hrun & _ & _ & _ & _ & Hso & Hsl).
  { subst w0. by look. }
  { subst w0. by look. }
  pose proof (install_poetry_package_same_file _ pkg cfg virtualenv false Hori staged) as Kori.
  pose proof (install_poetry_package_same_file _ pkg cfg virtualenv false Holock staged)
    as Kolock.
  unfold same_file in Kori, Kolock. unfold try_finally. rewrite Hrun.
  destruct (install_poetry_package pkg cfg virtualenv false staged)
    as [outcome left] eqn:Hip.
  simpl in Kori, Kolock. rewrite Hso in Kori. rewrite Hsl in Kolock.
  pose proof (restore_run_full pkg cfg left) as Hrestore. cbv zeta in Hrestore.
  rewrite Kori in Hrestore.
  destruct Hrestore as (after & -> & _ & _ & _ & Hlock & Hmlock & Hno & Hnol & _).
  exists staged, outcome, left, after.
  split; [done|]. split; [done|]. split; [done|]. split; [|done].
  rewrite Hlock, Kolock. subst w0. by look.
Qed.

(** X8.  A package directory without a manifest: the cached install starts
    no process and raises [FileNotFoundError].  With no origin manifest in
    the cache either, the error is the one of the [finally] block, naming
    the cache's origin manifest, and only the modified manifest has been
    written; with a stale origin manifest in the cache, the error names the
    package's manifest, and the stale file has become the package's
    manifest. *)
Theorem cached_install_without_manifest :
  ∀ (pkg : Package) (deps : list (string * DepConstraints)) (cfg : PBTConfig)
    (virtualenv : option string) (w : World),
    files w !! (location pkg, "pyproject.toml") = None →
    let out := install_pkg_dependencies pkg deps cfg virtualenv w in
    procs out.2 = procs w
    ∧ match files w !! (pkg_cache_dir cfg pkg, "pyproject.origin.toml") with
      | None =>
          out = (Raise (FileNotFoundError (pkg_cache_dir cfg pkg) "pyproject.origin.toml"),
                 set_files (<[(pkg_cache_dir cfg pkg, "pyproject.modified.toml")
                              := dumps (merged_manifest pkg deps)]> (files w)) w)
      | Some stale =>
          out.1 = Raise (FileNotFoundError (location pkg) "pyproject.toml")
          ∧ files out.2 !! (location pkg, "pyproject.toml") = Some stale
      end.
Proof.
  intros pkg deps cfg virtualenv w Hman. cbv zeta.
  remember (install_pkg_dependencies pkg deps cfg virtualenv w) as out eqn:Hout.
  unfold install_pkg_dependencies in Hout. rewrite bind_run in Hout.
  unfold write_file at 1 in Hout. cbv beta iota in Hout.
  set (w0 := set_files _ w) in Hout.
  assert (stage_and_install pkg cfg virtualenv w0
          = (Raise (FileNotFoundError (location pkg) "pyproject.toml"), w0)) as Hstage.
  { unfold stage_and_install. rewrite bind_run. unfold os_rename at 1.
    subst w0. look. by rewrite Hman. }
  unfold try_finally in Hout. rewrite Hstage in Hout.
  pose proof (restore_run_full pkg cfg w0) as Hrestore. cbv zeta in Hrestore.
  assert (files w0 !! (pkg_cache_dir cfg pkg, "pyproject.origin.toml")
          = files w !! (pkg_cache_dir cfg pkg, "pyproject.origin.toml")) as Hsame
    by (subst w0; by look).
  rewrite Hsame in Hrestore.
  destruct (files w !! (pkg_cache_dir cfg pkg, "pyproject.origin.toml")) as [stale|].
  - destruct Hrestore as (after & Hr & Hprocs & _ & Hm & _).
    rewrite Hr in Hout. subst out. simpl. by rewrite Hprocs.
  - rewrite Hrestore in Hout. by subst out.
Qed.
End Protocol.

Lemma cached_install_toolchain_input_witness :
  files Demo.broken_world !! (location Demo.broken, "pyproject.toml")
  = Some "real manifest of broken"
  ∧ ∃ staged,
      install_pkg_dependencies (EX := Demo.externals []) Demo.broken
        [("requests", [Demo.plain ">=2"])] Demo.config None Demo.broken_world
      = try_finally
          (install_poetry_package (EX := Demo.externals []) Demo.broken Demo.config None false)
          (restore Demo.broken Demo.config) staged
      ∧ procs staged = procs Demo.broken_world ∧ logs staged = logs Demo.broken_world
      ∧ files staged !! (location Demo.broken, "pyproject.toml")
        = Some (dumps (Externals := Demo.externals [])
                  (merged_manifest Demo.broken [("requests", [Demo.plain ">=2"])]))
      ∧ files staged !! (location Demo.broken, "poetry.lock")
        = files Demo.broken_world !! (pkg_cache_dir Demo.config Demo.broken,
                                      "poetry.modified.lock").
Proof.
  split; [by vm_compute|].
  apply (cached_install_toolchain_input (EX := Demo.externals []) Demo.broken
           [("requests", [Demo.plain ">=2"])] Demo.config None Demo.broken_world
           "real manifest of broken").
  by vm_compute.
Defined.

Lemma cached_install_rotates_locks_witness :
  files Demo.broken_world !! (location Demo.broken, "pyproject.toml")
  = Some "real manifest of broken"
  ∧ leaves_alone (EX := Demo.externals [])
      (pkg_cache_dir Demo.config Demo.broken, "pyproject.origin.toml")
  ∧ leaves_alone (EX := Demo.externals [])
      (pkg_cache_dir Demo.config Demo.broken, "poetry.origin.lock")
  ∧ ∃ staged outcome left after,
      install_poetry_package (EX := Demo.externals []) Demo.broken Demo.config None false
        staged = (outcome, left)
      ∧ install_pkg_dependencies (EX := Demo.externals []) Demo.broken
          [("requests", [Demo.plain ">=2"])] Demo.config None Demo.broken_world
        = (outcome, after)
      ∧ files after !! (pkg_cache_dir Demo.config Demo.broken, "poetry.modified.lock")
        = match files left !! (location Demo.broken, "poetry.lock") with
          | Some lock => Some lock
          | None => files left !! (pkg_cache_dir Demo.config Demo.broken,
                                   "poetry.modified.lock")
          end
      ∧ files after !! (location Demo.broken, "poetry.lock")
        = match files Demo.broken_world !! (location Demo.broken, "poetry.lock") with
          | Some lock => Some lock
          | None => files Demo.broken_world !! (pkg_cache_dir Demo.config Demo.broken,
                                                "poetry.origin.lock")
          end
      ∧ files after !! (pkg_cache_dir Demo.config Demo.broken, "pyproject.origin.toml") = None
      ∧ files after !! (pkg_cache_dir Demo.config Demo.broken, "poetry.origin.lock") = None.
Proof.
  assert (∀ file, file ≠ "poetry.lock" →
            leaves_alone (EX := Demo.externals [])
              (pkg_cache_dir Demo.config Demo.broken, file)) as Halone.
  { intros file Hfile. by apply demo_toolchain_leaves_cache_alone. }
  split; [by vm_compute|]. split; [by apply Halone|]. split; [by apply Halone|].
  apply (cached_install_rotates_locks (EX := Demo.externals []) Demo.broken
           [("requests", [Demo.plain ">=2"])] Demo.config None Demo.broken_world
           "real manifest of broken").
  - by vm_compute.
  - by apply Halone.
  - by apply Halone.
Defined.

Lemma cached_install_without_manifest_witness :
  files (mkWorld ∅ [] []) !! (location Demo.broken, "pyproject.toml") = None
  ∧ procs (install_pkg_dependencies (EX := Demo.externals []) Demo.broken
             [("requests", [Demo.plain ">=2"])] Demo.config None (mkWorld ∅ [] [])).2 = []
  ∧ install_pkg_dependencies (EX := Demo.externals []) Demo.broken
      [("requests", [Demo.plain ">=2"])] Demo.config None (mkWorld ∅ [] [])
    = (Raise (FileNotFoundError (pkg_cache_dir Demo.config Demo.broken)
                "pyproject.origin.toml"),
       mkWorld {[(pkg_cache_dir Demo.config Demo.broken, "pyproject.modified.toml")
                 := dumps (Externals := Demo.externals [])
                      (merged_manifest Demo.broken [("requests", [Demo.plain ">=2"])])]}
         [] []).
Proof.
  split; [reflexivity|].
  exact (cached_install_without_manifest (EX := Demo.externals []) Demo.broken
           [("requests", [Demo.plain ">=2"])] Demo.config None (mkWorld ∅ [] []) eq_refl).
Defined.

(** ** The nodes of the dependency graph *)

Lemma foldlM_result_app {A B} (f : A → B → result A) (a : A) (l1 l2 : list B) :
  foldlM f a (l1 ++ l2) = foldlM f a l1 ≫= fun a' => foldlM f a' l2.
Proof.
  revert a. induction l1 as [|x l1 IH]; intros a; simpl; [done|].
  destruct (f a x) as [a'|e]; simpl; [apply IH|done].
Qed.

Lemma foldlM_result_fmap {A B C} (f : A → B → result A) (h : C → B) (a : A) (l : list C) :
  foldlM f a (h <$> l) = foldlM (fun a x => f a (h x)) a l.
Proof.
  revert a. induction l as [|x l IH]; intros a; simpl; [done|].
  destruct (f a (h x)) as [a'|e]; simpl; [apply IH|done].
Qed.

Lemma foldlM_result_flatten {A B C} (f : B → A → C → result A) (deps : B → list C)
    (a : A) (l : list B) :
  foldlM (fun a b => foldlM (f b) a (deps b)) a l
  = foldlM (fun a bc => f bc.1 a bc.2) a (b ← l; (fun c => (b, c)) <$> deps b).
Proof.
  revert a. induction l as [|b l IH]; intros a; [done|].
  rewrite bind_cons, foldlM_result_app, foldlM_result_fmap.
  cbn [foldlM fst snd]. destruct (foldlM (f b) a (deps b)) as [a'|e]; simpl; [apply IH|done].
Qed.

Lemma dict_set_app_r {V} (k : string) (v : V) (d d' : list (string * V)) :
  k ∉ dict_keys d → dict_set k v (d ++ d') = d ++ dict_set k v d'.
Proof.
  unfold dict_keys. induction d as [|[k' v'] d IH]; intros Hk; [done|].
  rewrite fmap_cons in Hk. apply not_elem_of_cons in Hk as [Hne Hk]. simpl in *.
  rewrite decide_False by done. by rewrite IH.
Qed.

Lemma dict_get_app_l {V} (k : string) (d d' : list (string * V)) :
  k ∈ dict_keys d → dict_get k (d ++ d') = dict_get k d.
Proof.
  unfold dict_keys. induction d as [|[k' v'] d IH]; intros Hk; [by apply elem_of_nil in Hk|].
  rewrite fmap_cons in Hk. simpl in *. destruct (decide (k = k')); [done|].
  apply IH. by apply elem_of_cons in Hk as [?|?].
Qed.

Lemma dict_get_app_r {V} (k : string) (d d' : list (string * V)) :
  k ∉ dict_keys d → dict_get k (d ++ d') = dict_get k d'.
Proof.
  unfold dict_keys. induction d as [|[k' v'] d IH]; intros Hk; [done|].
  rewrite fmap_cons in Hk. apply not_elem_of_cons in Hk as [Hne Hk]. simpl in *.
  rewrite decide_False by done. by apply IH.
Qed.

Lemma dict_set_NoDup {V} (k : string) (v : V) (d : list (string * V)) :
  NoDup (dict_keys d) → NoDup (dict_keys (dict_set k v d)).
Proof.
  intros Hd. rewrite dict_keys_set. destruct (decide (k ∈ dict_keys d)); [done|].
  apply NoDup_app. split; [done|]. split; [|apply NoDup_singleton].
  intros x Hx ->%list_elem_of_singleton. done.
Qed.

Lemma local_nodes_graph (l : list Package) (g : DiGraph) :
  g_nodes (foldl (fun g pkg => add_node g (name pkg) (LocalNode pkg)) g l)
  = foldl (fun d p => dict_set (name p) (LocalNode p) d) (g_nodes g) l.
Proof. revert g. induction l as [|p l IH]; intros g; simpl; [done|]. by rewrite IH. Qed.

Lemma local_nodes_get (l : list Package) (d : list (string * node_pkg)) (n : string) :
  n ∈ name <$> l →
  ∃ p, p ∈ l ∧ name p = n
       ∧ dict_get n (foldl (fun d p => dict_set (name p) (LocalNode p) d) d l)
         = Some (LocalNode p).
Proof.
  induction l as [|q l IH] using rev_ind; [by intros ?%elem_of_nil|].
  rewrite fmap_app, foldl_app. simpl. intros Hn.
  destruct (decide (n = name q)) as [->|Hne].
  - exists q. split; [apply elem_of_app; right; left|]. split; [done|].
    apply dict_get_set_eq.
  - apply elem_of_app in Hn as [Hn|Hn%list_elem_of_singleton]; [|done].
    destruct (IH Hn) as (p & Hp & Hname & Hget). exists p.
    split; [apply elem_of_app; by left|]. split; [done|].
    rewrite dict_get_set_ne by done. exact Hget.
Qed.

Lemma local_nodes_NoDup (l : list Package) (d : list (string * node_pkg)) :
  NoDup (name <$> l) → (∀ n, n ∈ name <$> l → n ∉ dict_keys d) →
  foldl (fun d p => dict_set (name p) (LocalNode p) d) d l
  = d ++ ((fun p => (name p, LocalNode p)) <$> l).
Proof.
  revert d. induction l as [|p l IH]; intros d Hnd Hfresh; simpl.
  - by rewrite app_nil_r.
  - rewrite fmap_cons in Hnd. apply NoDup_cons in Hnd as [Hp Hnd].
    rewrite dict_set_fresh by (apply Hfresh; left).
    rewrite IH; [by rewrite <- app_assoc|done|].
    intros n Hn. rewrite dict_keys_app, elem_of_app. intros [Hd|Hd].
    + revert Hd. apply Hfresh. by right.
    + apply list_elem_of_singleton in Hd. simpl in Hd. by subst n.
Qed.

Lemma inverted_snoc (decls : list (Package * (string * DepConstraints)))
    (pe : Package * (string * DepConstraints)) :
  inverted (decls ++ [pe]) = dict_set (name pe.1) pe.2.2 (inverted decls).
Proof. unfold inverted. by rewrite foldl_app. Qed.

Lemma add_dependency_nodes pkgs (names : list string) (base : list (string * node_pkg))
    pkg (g g' : DiGraph) (d : string) specs
    (pre : list (Package * (string * DepConstraints))) :
  (∀ k, k ∈ dict_keys base ↔ k ∈ names) →
  (∀ n, n ∈ names → ∃ p, dict_get n base = Some (LocalNode p)) →
  PkgGraph.add_dependency pkgs pkg g (d, specs) = Ok g' →
  (∀ dep, dep ∉ names →
     dict_get dep (g_nodes g) = third_party_node dep (filter (fun pe => pe.2.1 = dep) pre)) →
  (∃ tps, g_nodes g = base ++ tps
          ∧ (∀ k, k ∈ dict_keys tps → k ∉ names) ∧ NoDup (dict_keys tps)) →
  (∀ dep, dep ∉ names →
     dict_get dep (g_nodes g')
     = third_party_node dep (filter (fun pe => pe.2.1 = dep) (pre ++ [(pkg, (d, specs))])))
  ∧ (∃ tps, g_nodes g' = base ++ tps
            ∧ (∀ k, k ∈ dict_keys tps → k ∉ names) ∧ NoDup (dict_keys tps)).
Proof.
  intros Hbase Hlocal Hrun HT (tps & HS & Htps & Hnd).
  unfold PkgGraph.add_dependency in Hrun.
  destruct (decide (d ∈ names)) as [Hd|Hd].
  - destruct (Hlocal d Hd) as [p Hp].
    assert (dict_get d (g_nodes g) = Some (LocalNode p)) as Hget.
    { rewrite HS, dict_get_app_l; [done|]. by apply Hbase. }
    assert (has_node g d = true) as Hhas
      by (apply dict_has_true; by eapply dict_get_Some_key).
    rewrite Hhas, Hget in Hrun. simpl in Hrun. injection Hrun as <-. simpl.
    split; [|by exists tps].
    intros dep Hdep. rewrite filter_app, filter_cons_False, filter_nil, app_nil_r.
    + by apply HT.
    + simpl. by intros ->.
  - assert (∀ attr,
              third_party_node d (filter (fun pe => pe.2.1 = d) (pre ++ [(pkg, (d, specs))]))
              = Some attr →
              let g1 := add_edge (add_node g d attr) (name pkg) d in
              (∀ dep, dep ∉ names →
                 dict_get dep (g_nodes g1)
                 = third_party_node dep
                     (filter (fun pe => pe.2.1 = dep) (pre ++ [(pkg, (d, specs))])))
              ∧ (∃ tps, g_nodes g1 = base ++ tps
                        ∧ (∀ k, k ∈ dict_keys tps → k ∉ names) ∧ NoDup (dict_keys tps)))
      as Hadd.
    { intros attr Hattr g1. subst g1. simpl. split.
      - intros dep Hdep. destruct (decide (dep = d)) as [->|Hne].
        + by rewrite dict_get_set_eq.
        + rewrite dict_get_set_ne by done.
          rewrite filter_app, filter_cons_False, filter_nil, app_nil_r by (simpl; congruence).
          by apply HT.
      - exists (dict_set d attr tps). split; [|split].
        + rewrite HS. apply dict_set_app_r. by rewrite Hbase.
        + intros k [Hk| ->]%elem_of_dict_keys_set; [by apply Htps|done].
        + by apply dict_set_NoDup. }
    pose proof (HT d Hd) as Hget.
    rewrite filter_app, filter_cons_True, filter_nil in Hadd by done.
    destruct (filter (fun pe => pe.2.1 = d) pre) as [|first rest] eqn:Hpre.
    + simpl in Hget. assert (has_node g d = false) as Hhas
        by (apply dict_has_false; by apply dict_get_None).
      rewrite Hhas in Hrun. simpl in Hrun.
      destruct (dict_has d pkgs); [done|]. injection Hrun as <-. by apply Hadd.
    + simpl in Hget. assert (has_node g d = true) as Hhas
        by (apply dict_has_true; by eapply dict_get_Some_key).
      rewrite Hhas, Hget in Hrun. simpl in Hrun. injection Hrun as <-.
      apply Hadd. simpl.
      change (first :: rest ++ [(pkg, (d, specs))]) with ((first :: rest) ++ [(pkg, (d, specs))]).
      by rewrite inverted_snoc.
Qed.

Lemma build_nodes pkgs (g : DiGraph) :
  PkgGraph.build pkgs = Ok g →
  let base := foldl (fun d p => dict_set (name p) (LocalNode p) d) [] (pkgs.*2) in
  (∀ dep, dep ∉ name <$> pkgs.*2 →
     dict_get dep (g_nodes g) = third_party_node dep (declarations (pkgs.*2) dep))
  ∧ (∃ tps, g_nodes g = base ++ tps
            ∧ (∀ k, k ∈ dict_keys tps → k ∉ name <$> pkgs.*2) ∧ NoDup (dict_keys tps)).
Proof.
  intros Hrun base. unfold PkgGraph.build in Hrun. rewrite foldlM_result_flatten in Hrun.
  set (names := name <$> pkgs.*2).
  assert (∀ k, k ∈ dict_keys base ↔ k ∈ names) as Hbase.
  { intros k. destruct (add_local_nodes (pkgs.*2) (mkDiGraph [] [])) as (_ & _ & Hkeys).
    { split; [done|]. by intros u v ?%elem_of_nil. }
    rewrite local_nodes_graph in Hkeys. simpl in Hkeys. subst base names.
    rewrite (Hkeys k). split; [|by right]. by intros [?%elem_of_nil|?]. }
  assert (∀ n, n ∈ names → ∃ p, dict_get n base = Some (LocalNode p)) as Hlocal.
  { intros n Hn. destruct (local_nodes_get (pkgs.*2) [] n Hn) as (p & _ & _ & Hp).
    by exists p. }
  pose (J := fun (pre : list (Package * (string * DepConstraints))) (g : DiGraph) =>
    (∀ dep, dep ∉ names →
       dict_get dep (g_nodes g)
       = third_party_node dep (filter (fun pe => pe.2.1 = dep) pre))
    ∧ (∃ tps, g_nodes g = base ++ tps
              ∧ (∀ k, k ∈ dict_keys tps → k ∉ names) ∧ NoDup (dict_keys tps))).
  assert (J ([] ++ declared (pkgs.*2)) g) as HJ.
  { eapply (foldlM_result_invariant (fun _ => True) J); [| |shelve|exact Hrun].
    Unshelve.
    - intros pre [pkg [d specs]] g1 g2 _ [HT HS] Hstep. simpl in Hstep.
      by apply (add_dependency_nodes pkgs names base pkg g1 g2 d specs pre).
    - by apply Forall_forall.
    - split.
      + intros dep Hdep. rewrite local_nodes_graph. simpl. fold base.
        apply dict_get_None. by rewrite Hbase.
      + exists []. rewrite local_nodes_graph, app_nil_r. simpl.
        split; [done|]. split; [by intros k ?%elem_of_nil|constructor]. }
  exact HJ.
Qed.

Lemma elem_of_declared (l : list Package) (pkg : Package) (e : string * DepConstraints) :
  (pkg, e) ∈ declared l ↔ pkg ∈ l ∧ e ∈ dependencies pkg.
Proof.
  unfold declared. rewrite list_elem_of_bind. split.
  - intros (q & (e' & [= -> ->] & He)%list_elem_of_fmap & Hq). done.
  - intros [Hpkg He]. exists pkg. split; [|done]. apply list_elem_of_fmap. by exists e.
Qed.

Lemma declarations_depends_on pkgs (dep : string) :
  declarations (pkgs.*2) dep ≠ [] ↔ ∃ u, depends_on pkgs u dep.
Proof.
  unfold declarations, depends_on. split.
  - intros Hne. destruct (filter _ _) as [|[pkg [d specs]] rest] eqn:Hfilter; [done|].
    assert ((pkg, (d, specs)) ∈ filter (fun pe => pe.2.1 = dep) (declared (pkgs.*2)))
      as [Hd [Hpkg He]%elem_of_declared]%list_elem_of_filter by (rewrite Hfilter; left).
    simpl in Hd. subst d. exists (name pkg), pkg. split; [done|]. split; [done|].
    apply list_elem_of_fmap. by exists (dep, specs).
  - intros (u & pkg & Hpkg & _ & ([d specs] & -> & He)%list_elem_of_fmap) Hnil.
    assert ((pkg, (d, specs)) ∈ filter (fun pe => pe.2.1 = (d, specs).1)
                                  (declared (pkgs.*2))) as Hin.
    { apply list_elem_of_filter. split; [done|]. by apply elem_of_declared. }
    rewrite Hnil in Hin. by apply elem_of_nil in Hin.
Qed.

Lemma elem_of_inverted_keys (decls : list (Package * (string * DepConstraints)))
    (u : string) :
  u ∈ dict_keys (inverted decls) ↔ ∃ pe, pe ∈ decls ∧ name pe.1 = u.
Proof.
  induction decls as [|pe decls IH] using rev_ind.
  - split; [by intros ?%elem_of_nil|]. by intros (pe & ?%elem_of_nil & _).
  - rewrite inverted_snoc, elem_of_dict_keys_set, IH. split.
    + intros [(pe' & Hpe' & Hname)| ->].
      * exists pe'. split; [apply elem_of_app; by left|done].
      * exists pe. split; [apply elem_of_app; right; left|done].
    + intros (pe' & [Hpe'| ->%list_elem_of_singleton]%elem_of_app & Hname).
      * left. by exists pe'.
      * by right.
Qed.

Lemma inverted_get (decls : list (Package * (string * DepConstraints)))
    (u : string) (specs : DepConstraints) :
  dict_get u (inverted decls) = Some specs →
  ∃ pe, pe ∈ decls ∧ name pe.1 = u ∧ pe.2.2 = specs.
Proof.
  induction decls as [|pe decls IH] using rev_ind; [done|].
  rewrite inverted_snoc. destruct (decide (u = name pe.1)) as [->|Hne].
  - rewrite dict_get_set_eq. intros [= <-]. exists pe.
    split; [apply elem_of_app; right; left|done].
  - rewrite dict_get_set_ne by done. intros (pe' & Hpe' & Hname)%IH.
    exists pe'. split; [apply elem_of_app; by left|done].
Qed.

Lemma from_pkgs_nodes pkgs (G : PkgGraph.t) :
  PkgGraph.from_pkgs pkgs = Ok G →
  (∀ n, n ∈ name <$> pkgs.*2 →
     ∃ p, p ∈ pkgs.*2 ∧ name p = n
          ∧ dict_get n (g_nodes (PkgGraph.g G)) = Some (LocalNode p))
  ∧ (∀ dep, dep ∉ name <$> pkgs.*2 →
       dict_get dep (g_nodes (PkgGraph.g G))
       = third_party_node dep (declarations (pkgs.*2) dep)).
Proof.
  intros Hfrom%from_pkgs_build.
  destruct (build_nodes pkgs _ Hfrom) as (HT & tps & HS & Htps & _).
  split; [|exact HT]. intros n Hn.
  destruct (local_nodes_get (pkgs.*2) [] n Hn) as (p & Hp & Hname & Hget).
  exists p. split; [done|]. split; [done|].
  rewrite HS, dict_get_app_l; [done|]. by eapply dict_get_Some_key.
Qed.

Lemma third_party_node_reading pkgs (G : PkgGraph.t) (dep : string)
    (tp : ThirdPartyPackage) :
  PkgGraph.from_pkgs pkgs = Ok G →
  dict_get dep (g_nodes (PkgGraph.g G)) = Some (ThirdPartyNode tp) →
  (dep ∉ name <$> pkgs.*2)
  ∧ tp_name tp = dep
  ∧ (∃ first, first ∈ pkgs.*2 ∧ dep ∈ dict_keys (dependencies first)
              ∧ tp_type tp = type first)
  ∧ (∀ u, u ∈ dict_keys (invert_dependencies tp) ↔ depends_on pkgs u dep)
  ∧ (∀ u specs, dict_get u (invert_dependencies tp) = Some specs →
       ∃ pkg, pkg ∈ pkgs.*2 ∧ name pkg = u ∧ (dep, specs) ∈ dependencies pkg).
Proof.
  intros Hfrom Hget. destruct (from_pkgs_nodes pkgs G Hfrom) as [Hlocal HT].
  assert (dep ∉ name <$> pkgs.*2) as Hdep.
  { intros (p & _ & _ & Hp)%Hlocal. congruence. }
  split; [done|]. rewrite (HT dep Hdep) in Hget. unfold third_party_node in Hget.
  assert (∀ pe, pe ∈ declarations (pkgs.*2) dep ↔
                pe.1 ∈ pkgs.*2 ∧ pe.2 ∈ dependencies pe.1 ∧ pe.2.1 = dep) as Hdecl.
  { intros [pkg e]. unfold declarations. rewrite list_elem_of_filter, elem_of_declared.
    simpl. tauto. }
  destruct (declarations (pkgs.*2) dep) as [|first rest] eqn:Hdecls; [done|].
  injection Hget as <-. simpl. split; [done|]. split; [|split].
  - destruct (Hdecl first) as [(H1 & H2 & H3) _]; [left|].
    exists first.1. split; [done|]. split; [|done].
    apply list_elem_of_fmap. by exists first.2.
  - intros u. rewrite elem_of_inverted_keys. unfold depends_on. split.
    + intros (pe & (H1 & H2 & H3)%Hdecl & Hname). exists pe.1.
      split; [done|]. split; [done|]. apply list_elem_of_fmap. by exists pe.2.
    + intros (pkg & Hpkg & Hname & (e & -> & He)%list_elem_of_fmap).
      exists (pkg, e). split; [|done]. by apply Hdecl.
  - intros u specs (pe & (H1 & H2 & H3)%Hdecl & Hname & Hspecs)%inverted_get.
    exists pe.1. split; [done|]. split; [done|].
    destruct pe as [pkg [d s]]. simpl in *. by subst.
Qed.

(** X9.  The nodes of a graph [from_pkgs] returns: the name of a local
    package carries a local package of that name, and any other name
    carries nothing when no package declares it, and otherwise the
    third-party package of that name whose type is the type of the package
    that declares it first and whose [invert_dependencies] is the result of
    assigning, declaration by declaration, the declared specs to the name of
    the declaring package. *)
Theorem from_pkgs_node_attributes :
  ∀ (pkgs : list (string * Package)) (G : PkgGraph.t),
    PkgGraph.from_pkgs pkgs = Ok G →
    (∀ n, n ∈ name <$> pkgs.*2 →
       ∃ p, p ∈ pkgs.*2 ∧ name p = n
            ∧ dict_get n (g_nodes (PkgGraph.g G)) = Some (LocalNode p))
    ∧ (∀ dep, dep ∉ name <$> pkgs.*2 →
         dict_get dep (g_nodes (PkgGraph.g G))
         = third_party_node dep (declarations (pkgs.*2) dep)).
Proof. exact from_pkgs_nodes. Qed.

Lemma from_pkgs_node_attributes_witness :
  ∃ G,
    PkgGraph.from_pkgs Demo.workspace = Ok G
    ∧ (∀ n, n ∈ ["core"; "api"] →
         ∃ p, p ∈ [Demo.core; Demo.api] ∧ name p = n
              ∧ dict_get n (g_nodes (PkgGraph.g G)) = Some (LocalNode p))
    ∧ (∀ dep, dep ∉ ["core"; "api"] →
         dict_get dep (g_nodes (PkgGraph.g G))
         = third_party_node dep (declarations [Demo.core; Demo.api] dep))
    ∧ dict_get "requests" (g_nodes (PkgGraph.g G))
      = Some (ThirdPartyNode
                (mkThirdParty "requests" Standard [("api", [Demo.plain ">=2"])])).
Proof.
  destruct (PkgGraph.from_pkgs Demo.workspace) as [G|e] eqn:Hfrom; [|by vm_compute in Hfrom].
  exists G. split; [done|].
  destruct (from_pkgs_node_attributes Demo.workspace G Hfrom) as [Hlocal Hthird].
  split; [exact Hlocal|]. split; [exact Hthird|].
  vm_compute in Hfrom. injection Hfrom as <-. by vm_compute.
Defined.

(** X10.  Reading a third-party node of a graph [from_pkgs] returns: it sits
    under its own name, which is no local package's name; its type is the
    type of a local package that declares it; the keys of its
    [invert_dependencies] are exactly the names of the local packages that
    declare it, and the specs under a key are specs that a package of that
    name declares for it. *)
Theorem third_party_node_records_declarers :
  ∀ (pkgs : list (string * Package)) (G : PkgGraph.t) (dep : string)
    (tp : ThirdPartyPackage),
    PkgGraph.from_pkgs pkgs = Ok G →
    dict_get dep (g_nodes (PkgGraph.g G)) = Some (ThirdPartyNode tp) →
    (dep ∉ name <$> pkgs.*2)
    ∧ tp_name tp = dep
    ∧ (∃ first, first ∈ pkgs.*2 ∧ dep ∈ dict_keys (dependencies first)
                ∧ tp_type tp = type first)
    ∧ (∀ u, u ∈ dict_keys (invert_dependencies tp) ↔ depends_on pkgs u dep)
    ∧ (∀ u specs, dict_get u (invert_dependencies tp) = Some specs →
         ∃ pkg, pkg ∈ pkgs.*2 ∧ name pkg = u ∧ (dep, specs) ∈ dependencies pkg).
Proof. exact third_party_node_reading. Qed.

Lemma third_party_node_records_declarers_witness :
  ∃ G tp,
    PkgGraph.from_pkgs Demo.workspace = Ok G
    ∧ dict_get "requests" (g_nodes (PkgGraph.g G)) = Some (ThirdPartyNode tp)
    ∧ ("requests" ∉ name <$> (Demo.workspace).*2)
    ∧ tp_name tp = "requests"
    ∧ (∃ first, first ∈ (Demo.workspace).*2 ∧ "requests" ∈ dict_keys (dependencies first)
                ∧ tp_type tp = type first)
    ∧ (∀ u, u ∈ dict_keys (invert_dependencies tp)
            ↔ depends_on Demo.workspace u "requests")
    ∧ (∀ u specs, dict_get u (invert_dependencies tp) = Some specs →
         ∃ pkg, pkg ∈ (Demo.workspace).*2 ∧ name pkg = u
                ∧ ("requests", specs) ∈ dependencies pkg).
Proof.
  destruct (PkgGraph.from_pkgs Demo.workspace) as [G|e] eqn:Hfrom; [|by vm_compute in Hfrom].
  exists G, (mkThirdParty "requests" Standard [("api", [Demo.plain ">=2"])]).
  split; [done|].
  assert (dict_get "requests" (g_nodes (PkgGraph.g G))
          = Some (ThirdPartyNode
                    (mkThirdParty "requests" Standard [("api", [Demo.plain ">=2"])])))
    as Hget.
  { pose proof Hfrom as Heq. vm_compute in Heq. injection Heq as <-. by vm_compute. }
  split; [exact Hget|].
  exact (third_party_node_records_declarers Demo.workspace G "requests" _ Hfrom Hget).
Defined.

(** ** Iterating over the graph *)

Lemma node_attr_entries (G : PkgGraph.t) (l : list (string * node_pkg)) :
  Forall (fun e => dict_get e.1 (g_nodes (PkgGraph.g G)) = Some e.2) l →
  mapM (PkgGraph.node_attr G) (dict_keys l) = Ok (l.*2).
Proof.
  induction 1 as [|[k a] l Hget _ IH]; [done|].
  assert (PkgGraph.node_attr G k = Ok a) as Hk
    by (unfold PkgGraph.node_attr; simpl in Hget; by rewrite Hget).
  unfold dict_keys in *. rewrite !fmap_cons. simpl. rewrite Hk. simpl. by rewrite IH.
Qed.

Lemma third_party_entries (l : list (string * node_pkg)) :
  Forall (fun e => ∃ tp, e.2 = ThirdPartyNode tp ∧ tp_name tp = e.1) l →
  ∃ tps, l.*2 = ThirdPartyNode <$> tps ∧ tp_name <$> tps = dict_keys l.
Proof.
  induction 1 as [|[k a] l (tp & Ha & Hname) _ (tps & Htps & Hnames)]; [by exists []|].
  simpl in Ha, Hname. subst a k. exists (tp :: tps). unfold dict_keys in *.
  rewrite !fmap_cons. cbn [fst snd]. by rewrite Htps, Hnames.
Qed.

Lemma iter_pkg_run pkgs (G : PkgGraph.t) :
  PkgGraph.from_pkgs pkgs = Ok G →
  NoDup (name <$> pkgs.*2) →
  ∃ tps,
    iter_pkg G = Ok ((LocalNode <$> pkgs.*2) ++ (ThirdPartyNode <$> tps))
    ∧ NoDup (tp_name <$> tps)
    ∧ (∀ d, d ∈ tp_name <$> tps ↔ (d ∉ name <$> pkgs.*2) ∧ ∃ u, depends_on pkgs u d).
Proof.
  intros Hfrom Hnd. pose proof (from_pkgs_build pkgs G Hfrom) as Hbuild.
  destruct (build_nodes pkgs _ Hbuild) as (HT & entries & HS & Hfresh & Hnd').
  rewrite local_nodes_NoDup in HS by (done || by intros n _ ?%elem_of_nil).
  rewrite app_nil_l in HS.
  assert (dict_keys ((fun p => (name p, LocalNode p)) <$> pkgs.*2) = name <$> pkgs.*2)
    as Hlocalkeys by (unfold dict_keys; by rewrite <- list_fmap_compose).
  assert (NoDup (dict_keys (g_nodes (PkgGraph.g G)))) as Hall.
  { rewrite HS, dict_keys_app, Hlocalkeys. apply NoDup_app. split; [done|].
    split; [|done]. intros k Hk Hk'. by apply (Hfresh k). }
  assert (Forall (fun e => ∃ tp, e.2 = ThirdPartyNode tp ∧ tp_name tp = e.1) entries)
    as Hthird.
  { apply Forall_forall. intros [k a] Hin. simpl.
    assert (k ∉ name <$> pkgs.*2) as Hk
      by (apply Hfresh, list_elem_of_fmap; by exists (k, a)).
    assert (dict_get k (g_nodes (PkgGraph.g G)) = Some a) as Hget.
    { apply dict_get_elem; [done|]. rewrite HS. apply elem_of_app. by right. }
    rewrite (HT k Hk) in Hget. unfold third_party_node in Hget.
    destruct (declarations (pkgs.*2) k); [done|]. injection Hget as <-. by eexists. }
  destruct (third_party_entries entries Hthird) as (tps & Htps & Hnames).
  exists tps. split; [|split].
  - unfold iter_pkg. rewrite node_attr_entries.
    + rewrite HS, fmap_app, Htps. do 2 f_equal. by rewrite <- list_fmap_compose.
    + apply Forall_forall. intros [k a] Hin. simpl. by apply dict_get_elem.
  - by rewrite Hnames.
  - intros d. rewrite Hnames, <- declarations_depends_on. split.
    + intros Hd. pose proof (Hfresh d Hd) as Hlocal. split; [done|].
      intros Hnil. pose proof (HT d Hlocal) as Hget. rewrite Hnil in Hget.
      simpl in Hget. apply dict_get_None in Hget. apply Hget.
      rewrite HS, dict_keys_app. apply elem_of_app. by right.
    + intros [Hlocal Hdecl]. pose proof (HT d Hlocal) as Hget.
      unfold third_party_node in Hget.
      destruct (declarations (pkgs.*2) d); [done|].
      apply dict_get_Some_key in Hget. rewrite HS, dict_keys_app, Hlocalkeys in Hget.
      by apply elem_of_app in Hget as [?|?].
Qed.

(** X11.  For local packages of distinct names, [iter_pkg] on the graph
    [from_pkgs] returns yields every local package first, in the order of
    the dictionary, and then third-party packages: one for every name that
    some local package declares and no local package bears. *)
Theorem iter_pkg_lists_local_packages_first :
  ∀ (pkgs : list (string * Package)) (G : PkgGraph.t),
    PkgGraph.from_pkgs pkgs = Ok G →
    NoDup (name <$> pkgs.*2) →
    ∃ tps,
      iter_pkg G = Ok ((LocalNode <$> pkgs.*2) ++ (ThirdPartyNode <$> tps))
      ∧ NoDup (tp_name <$> tps)
      ∧ (∀ d, d ∈ tp_name <$> tps ↔ (d ∉ name <$> pkgs.*2) ∧ ∃ u, depends_on pkgs u d).
Proof. exact iter_pkg_run. Qed.

Lemma iter_pkg_lists_local_packages_first_witness :
  ∃ G tps,
    PkgGraph.from_pkgs Demo.workspace = Ok G
    ∧ NoDup (name <$> (Demo.workspace).*2)
    ∧ iter_pkg G = Ok ((LocalNode <$> [Demo.core; Demo.api]) ++ (ThirdPartyNode <$> tps))
    ∧ NoDup (tp_name <$> tps)
    ∧ (∀ d, d ∈ tp_name <$> tps
            ↔ (d ∉ name <$> (Demo.workspace).*2) ∧ ∃ u, depends_on Demo.workspace u d).
Proof.
  destruct (PkgGraph.from_pkgs Demo.workspace) as [G|e] eqn:Hfrom; [|by vm_compute in Hfrom].
  assert (NoDup (name <$> (Demo.workspace).*2)) as Hnd.
  { apply (bool_decide_unpack _). by vm_compute. }
  destruct (iter_pkg_lists_local_packages_first Demo.workspace G Hfrom Hnd)
    as (tps & Hiter & Hnames & Hkeys).
  by exists G, tps.
Defined.

(** ** The dependency queries in terms of the declarations *)

Lemma from_pkgs_acyclic pkgs (G : PkgGraph.t) :
  PkgGraph.from_pkgs pkgs = Ok G → ∀ v, ¬ tc (depends_on pkgs) v v.
Proof.
  intros Hfrom v Hcycle. pose proof (from_pkgs_build pkgs G Hfrom) as Hbuild.
  destruct (build_spec pkgs _ Hbuild) as (_ & Hedges & _).
  unfold PkgGraph.from_pkgs in Hfrom. rewrite Hbuild in Hfrom. simpl in Hfrom.
  destruct (find_cycle (PkgGraph.g G)) eqn:Hfind; [done|].
  apply find_cycle_None in Hfind. apply Hfind. exists v.
  by apply (tc_iff (edge (PkgGraph.g G)) (depends_on pkgs) v v Hedges).
Qed.

Lemma dependencies_names pkgs (G : PkgGraph.t) (p : string) :
  PkgGraph.from_pkgs pkgs = Ok G →
  has_node (PkgGraph.g G) p = true →
  ∃ deps,
    PkgGraph.dependencies G p = Ok deps
    ∧ NoDup (node_name <$> deps)
    ∧ (∀ n, n ∈ node_name <$> deps ↔ tc (depends_on pkgs) p n)
    ∧ Forall (fun d => dict_get (node_name d) (g_nodes (PkgGraph.g G)) = Some d) deps.
Proof.
  intros Hfrom Hnode.
  destruct (build_spec pkgs _ (from_pkgs_build pkgs G Hfrom)) as (Hwf & Hedges & _).
  pose proof (from_pkgs_acyclic pkgs G Hfrom) as Hacyclic.
  destruct (dfs_preorder_nodes_spec (PkgGraph.g G) p) as (rest & Hdfs & Hnd & Hreach).
  apply NoDup_cons in Hnd as [Hfirst Hnd].
  assert (∀ n, n ∈ rest ↔ tc (depends_on pkgs) p n) as Hrest.
  { intros n. rewrite <- (tc_iff (edge (PkgGraph.g G)) (depends_on pkgs) p n Hedges). split.
    - intros Hn. assert (rtc (edge (PkgGraph.g G)) p n) as Hpn by (apply Hreach; by right).
      apply rtc_tc in Hpn as [->|Hpn]; done.
    - intros Hpn. assert (n ∈ p :: rest) as Hin by (by apply Hreach, tc_rtc).
      apply elem_of_cons in Hin as [->|Hin]; [|done].
      destruct (Hacyclic p).
      by apply (tc_iff (edge (PkgGraph.g G)) (depends_on pkgs) p p Hedges). }
  destruct (node_attrs G rest Hwf) as (deps & Hdeps & Hmap & Hall).
  { intros x Hx. assert (rtc (edge (PkgGraph.g G)) p x) as Hpx by (apply Hreach; by right).
    apply rtc_inv_r in Hpx as [->|(u & _ & Hux)]; [done|].
    destruct Hwf as [_ Htargets]. by eapply Htargets. }
  exists deps. rewrite Hmap. split; [|done].
  unfold PkgGraph.dependencies. rewrite Hnode, Hdfs. simpl. by rewrite decide_True.
Qed.

Lemma same_name_same_package (l : list Package) (p q : Package) :
  NoDup (name <$> l) → p ∈ l → q ∈ l → name p = name q → p = q.
Proof.
  induction l as [|x l IH]; [by intros _ ?%elem_of_nil|].
  rewrite fmap_cons, NoDup_cons. intros [Hx Hnd] Hp Hq Hname.
  apply elem_of_cons in Hp as [->|Hp]; apply elem_of_cons in Hq as [->|Hq].
  - done.
  - destruct Hx. rewrite Hname. by apply list_elem_of_fmap_2.
  - destruct Hx. rewrite <- Hname. by apply list_elem_of_fmap_2.
  - by apply IH.
Qed.

Lemma local_dependency_sound pkgs (G : PkgGraph.t) (deps : list node_pkg) (q : Package) :
  PkgGraph.from_pkgs pkgs = Ok G →
  Forall (fun d => dict_get (node_name d) (g_nodes (PkgGraph.g G)) = Some d) deps →
  LocalNode q ∈ deps → q ∈ pkgs.*2.
Proof.
  intros Hfrom Hall Hq. destruct (from_pkgs_nodes pkgs G Hfrom) as [Hlocal HT].
  rewrite Forall_forall in Hall. pose proof (Hall _ Hq) as Hget. simpl in Hget.
  destruct (decide (name q ∈ name <$> pkgs.*2)) as [Hin|Hout].
  - destruct (Hlocal _ Hin) as (p' & Hp' & _ & Hget'). congruence.
  - rewrite (HT _ Hout) in Hget. unfold third_party_node in Hget.
    by destruct (declarations (pkgs.*2) (name q)).
Qed.

Lemma dependency_closure pkgs (G : PkgGraph.t) (p : string) :
  PkgGraph.from_pkgs pkgs = Ok G →
  NoDup (name <$> pkgs.*2) →
  has_node (PkgGraph.g G) p = true →
  ∃ ls tps,
    PkgGraph.local_dependencies G p = Ok ls
    ∧ PkgGraph.third_party_dependencies G p = Ok tps
    ∧ (∀ q, q ∈ ls ↔ q ∈ pkgs.*2 ∧ tc (depends_on pkgs) p (name q))
    ∧ (∀ d, d ∈ tp_name <$> tps
            ↔ (d ∉ name <$> pkgs.*2) ∧ tc (depends_on pkgs) p d)
    ∧ NoDup (name <$> ls)
    ∧ NoDup (tp_name <$> tps)
    ∧ p ∉ name <$> ls.
Proof.
  intros Hfrom Hnd Hnode.
  destruct (dependencies_names pkgs G p Hfrom Hnode) as (deps & Hrun & Hnames & Hreach & Hall).
  destruct (from_pkgs_nodes pkgs G Hfrom) as [Hlocal HT].
  pose proof Hall as Hget. rewrite Forall_forall in Hget.
  set (ls := omap (M := list) (fun a => match a with LocalNode q => Some q | _ => None end)
               deps).
  set (tps := omap (M := list)
                (fun a => match a with ThirdPartyNode tp => Some tp | _ => None end) deps).
  assert (∀ q, q ∈ ls ↔ LocalNode q ∈ deps) as Hls.
  { intros q. unfold ls. rewrite list_elem_of_omap. split.
    - intros ([q'|tp] & Hin & [= <-]). done.
    - intros Hin. by exists (LocalNode q). }
  assert (∀ tp, tp ∈ tps ↔ ThirdPartyNode tp ∈ deps) as Htps.
  { intros tp. unfold tps. rewrite list_elem_of_omap. split.
    - intros ([q|tp'] & Hin & [= <-]). done.
    - intros Hin. by exists (ThirdPartyNode tp). }
  assert (name <$> ls = node_name <$> filter (fun d => is_local d = true) deps) as Hlnames.
  { rewrite <- local_elements, <- list_fmap_compose. done. }
  assert (tp_name <$> tps = node_name <$> filter (fun d => is_third_party d = true) deps)
    as Htnames.
  { rewrite <- third_party_elements, <- list_fmap_compose. done. }
  exists ls, tps.
  split; [unfold PkgGraph.local_dependencies; by rewrite Hrun|].
  split; [unfold PkgGraph.third_party_dependencies; by rewrite Hrun|].
  split; [|split; [|split; [|split]]].
  - intros q. rewrite Hls. split.
    + intros Hq. split; [by eapply local_dependency_sound|].
      apply Hreach. apply list_elem_of_fmap. by exists (LocalNode q).
    + intros [Hq Hpq]. apply Hreach in Hpq.
      apply list_elem_of_fmap in Hpq as (d & Hname & Hd).
      pose proof (Hget d Hd) as Hnode_d. rewrite <- Hname in Hnode_d.
      destruct (Hlocal (name q)) as (q' & Hq' & Hname' & Hget').
      { by apply list_elem_of_fmap_2. }
      rewrite (same_name_same_package _ q' q Hnd Hq' Hq Hname') in Hget'.
      assert (d = LocalNode q) as <- by congruence. done.
  - intros d. split.
    + intros (tp & -> & Htp%Htps)%list_elem_of_fmap.
      pose proof (Hget _ Htp) as Hnode_tp. simpl in Hnode_tp.
      destruct (third_party_node_reading pkgs G _ tp Hfrom Hnode_tp) as (Hout & _).
      split; [done|]. apply Hreach. apply list_elem_of_fmap. by exists (ThirdPartyNode tp).
    + intros [Hout Hpd]. apply Hreach in Hpd.
      apply list_elem_of_fmap in Hpd as (x & Hname & Hx).
      pose proof (Hget x Hx) as Hnode_x. rewrite <- Hname in Hnode_x.
      rewrite (HT d Hout) in Hnode_x. unfold third_party_node in Hnode_x.
      destruct (declarations (pkgs.*2) d) as [|first rest]; [done|].
      injection Hnode_x as Hx'. subst x. apply list_elem_of_fmap.
      eexists. split; [|by apply Htps]. done.
  - rewrite Hlnames. eapply sublist_NoDup; [exact Hnames|].
    apply fmap_sublist, sublist_filter.
  - rewrite Htnames. eapply sublist_NoDup; [exact Hnames|].
    apply fmap_sublist, sublist_filter.
  - intros (q & -> & Hq%Hls)%list_elem_of_fmap.
    apply (from_pkgs_acyclic pkgs G Hfrom (name q)). apply Hreach.
    apply list_elem_of_fmap. by exists (LocalNode q).
Qed.

Lemma local_dependencies_asymmetric pkgs (G : PkgGraph.t) (p : string)
    (q : Package) (ls ls' : list Package) :
  PkgGraph.from_pkgs pkgs = Ok G →
  PkgGraph.local_dependencies G p = Ok ls →
  q ∈ ls →
  PkgGraph.local_dependencies G (name q) = Ok ls' →
  name q ≠ p ∧ p ∉ name <$> ls'.
Proof.
  intros Hfrom Hp Hq Hq'.
  assert (∀ x l r, PkgGraph.local_dependencies G x = Ok l → r ∈ l →
                   tc (depends_on pkgs) x (name r)) as Hsound.
  { intros x l r Hrun Hr. unfold PkgGraph.local_dependencies in Hrun.
    destruct (has_node (PkgGraph.g G) x) eqn:Hnode.
    - destruct (dependencies_names pkgs G x Hfrom Hnode) as (deps & Hdeps & _ & Hreach & _).
      rewrite Hdeps in Hrun. simpl in Hrun. injection Hrun as <-.
      apply list_elem_of_omap in Hr as ([r'|tp] & Hin & [= ->]).
      apply Hreach. apply list_elem_of_fmap. by exists (LocalNode r).
    - unfold PkgGraph.dependencies in Hrun. by rewrite Hnode in Hrun. }
  pose proof (Hsound p ls q Hp Hq) as Hpq. split.
  - intros Heq. rewrite Heq in Hpq. by apply (from_pkgs_acyclic pkgs G Hfrom p).
  - intros (r & -> & Hr)%list_elem_of_fmap.
    pose proof (Hsound (name q) ls' r Hq' Hr) as Hqr.
    apply (from_pkgs_acyclic pkgs G Hfrom (name r)). by etrans.
Qed.

(** X12.  In a graph [from_pkgs] returns for local packages of distinct
    names, for a node [p]: [local_dependencies] returns exactly the local
    packages that [p] depends on through one or more declarations, and
    [third_party_dependencies] packages named exactly by the names that no
    local package bears and that [p] reaches through one or more
    declarations; no name is listed twice and [p] itself is never listed. *)
Theorem dependency_queries_follow_declarations :
  ∀ (pkgs : list (string * Package)) (G : PkgGraph.t) (p : string),
    PkgGraph.from_pkgs pkgs = Ok G →
    NoDup (name <$> pkgs.*2) →
    has_node (PkgGraph.g G) p = true →
    ∃ ls tps,
      PkgGraph.local_dependencies G p = Ok ls
      ∧ PkgGraph.third_party_dependencies G p = Ok tps
      ∧ (∀ q, q ∈ ls ↔ q ∈ pkgs.*2 ∧ tc (depends_on pkgs) p (name q))
      ∧ (∀ d, d ∈ tp_name <$> tps
              ↔ (d ∉ name <$> pkgs.*2) ∧ tc (depends_on pkgs) p d)
      ∧ NoDup (name <$> ls)
      ∧ NoDup (tp_name <$> tps)
      ∧ p ∉ name <$> ls.
Proof. exact dependency_closure. Qed.

Lemma dependency_queries_follow_declarations_witness :
  ∃ G ls tps,
    PkgGraph.from_pkgs Demo.workspace = Ok G
    ∧ NoDup (name <$> (Demo.workspace).*2)
    ∧ has_node (PkgGraph.g G) "api" = true
    ∧ PkgGraph.local_dependencies G "api" = Ok ls
    ∧ PkgGraph.third_party_dependencies G "api" = Ok tps
    ∧ (∀ q, q ∈ ls ↔ q ∈ (Demo.workspace).*2 ∧ tc (depends_on Demo.workspace) "api" (name q))
    ∧ (∀ d, d ∈ tp_name <$> tps
            ↔ (d ∉ name <$> (Demo.workspace).*2) ∧ tc (depends_on Demo.workspace) "api" d)
    ∧ NoDup (name <$> ls)
    ∧ NoDup (tp_name <$> tps)
    ∧ "api" ∉ name <$> ls.
Proof.
  destruct (PkgGraph.from_pkgs Demo.workspace) as [G|e] eqn:Hfrom; [|by vm_compute in Hfrom].
  assert (NoDup (name <$> (Demo.workspace).*2)) as Hnd.
  { apply (bool_decide_unpack _). by vm_compute. }
  assert (has_node (PkgGraph.g G) "api" = true) as Hnode.
  { pose proof Hfrom as Heq. vm_compute in Heq. injection Heq as <-. by vm_compute. }
  destruct (dependency_queries_follow_declarations Demo.workspace G "api" Hfrom Hnd Hnode)
    as (ls & tps & H).
  exists G, ls, tps. split; [done|]. split; [done|]. split; [done|]. exact H.
Defined.

(** X13.  In a graph [from_pkgs] returns, no package is among its own local
    dependencies, and no two packages are among each other's: if [q] is a
    local dependency of [p], then [q] is not [p] and [p] is not a local
    dependency of [q]. *)
Theorem local_dependencies_never_mutual :
  ∀ (pkgs : list (string * Package)) (G : PkgGraph.t) (p : string)
    (q : Package) (ls ls' : list Package),
    PkgGraph.from_pkgs pkgs = Ok G →
    PkgGraph.local_dependencies G p = Ok ls →
    q ∈ ls →
    PkgGraph.local_dependencies G (name q) = Ok ls' →
    name q ≠ p ∧ p ∉ name <$> ls'.
Proof. exact local_dependencies_asymmetric. Qed.

Lemma local_dependencies_never_mutual_witness :
  ∃ G,
    PkgGraph.from_pkgs Demo.workspace = Ok G
    ∧ PkgGraph.local_dependencies G "api" = Ok [Demo.core]
    ∧ Demo.core ∈ [Demo.core]
    ∧ PkgGraph.local_dependencies G (name Demo.core) = Ok []
    ∧ name Demo.core ≠ "api"
    ∧ "api" ∉ name <$> ([] : list Package).
Proof.
  destruct (PkgGraph.from_pkgs Demo.workspace) as [G|e] eqn:Hfrom; [|by vm_compute in Hfrom].
  assert (PkgGraph.local_dependencies G "api" = Ok [Demo.core]) as Hapi.
  { pose proof Hfrom as Heq. vm_compute in Heq. injection Heq as <-. by vm_compute. }
  assert (PkgGraph.local_dependencies G (name Demo.core) = Ok []) as Hcore.
  { pose proof Hfrom as Heq. vm_compute in Heq. injection Heq as <-. by vm_compute. }
  assert (Demo.core ∈ [Demo.core]) as Hin by left.
  exists G. split; [done|]. split; [done|]. split; [done|]. split; [done|].
  exact (local_dependencies_never_mutual Demo.workspace G "api" Demo.core [Demo.core] []
           Hfrom Hapi Hin Hcore).
Defined.

(** ** How the merge of two requirement lists fails *)

Section MergeFailures.
Context `{VM : VersionModel}.

Lemma merge_entries_raises (D1 D2 items d2 : DepConstraints) (e : exn) :
  (∀ x, x ∈ items → label x ∈ labels d2) →
  merge_entries D1 D2 (by_label d2) (by_label items) = Raise e →
  e = IncompatibleDependencyError IncompatibleSpecs D1 D2
  ∨ ∃ x, x ∈ items ++ d2 ∧ parse_version_spec (version_spec x) = Raise e.
Proof.
  revert e. induction items as [|x items IH]; intros e Hsub; [done|].
  assert (∃ y, y ∈ d2 ∧ dict_get (label x) (by_label d2) = Some y) as (y & Hy & Hget).
  { destruct (dict_get (label x) (by_label d2)) as [y|] eqn:Hget.
    - exists y. split; [|done].
      apply dict_get_Some_elem, list_elem_of_fmap in Hget as (z & [= _ ->] & Hz). done.
    - apply dict_get_None in Hget. rewrite by_label_keys in Hget.
      destruct Hget. apply Hsub. left. }
  change (by_label (x :: items)) with ((label x, x) :: by_label items).
  cbn [merge_entries]. unfold merge_entry at 1. rewrite Hget.
  destruct (parse_version_spec (version_spec x)) as [vx|ex] eqn:Hvx; simpl.
  2: { intros [= <-]. right. exists x. split; [left|done]. }
  destruct (parse_version_spec (version_spec y)) as [vy|ey] eqn:Hvy; simpl.
  2: { intros [= <-]. right. exists y.
       split; [right; apply elem_of_app; by right|done]. }
  destruct (intersect vx vy) as [v|]; simpl; [|intros [= <-]; by left].
  destruct (merge_entries D1 D2 (by_label d2) (by_label items)) as [news|e'] eqn:Hrest;
    simpl; [done|].
  intros [= <-]. destruct (IH e') as [?|(z & Hz & Hraise)]; [|done|by left|].
  - intros z Hz. apply Hsub. by right.
  - right. exists z. split; [by right|done].
Qed.

Lemma merge_entries_labels (D1 D2 items : DepConstraints)
    (anotherspecs : list (string * DepConstraint)) (merged : DepConstraints) :
  merge_entries D1 D2 anotherspecs (by_label items) = Ok merged →
  labels merged = labels items ∧ Forall (fun m => is_Some (constraint m)) merged.
Proof.
  revert merged. induction items as [|x items IH]; intros merged.
  - intros [= <-]. by split.
  - change (by_label (x :: items)) with ((label x, x) :: by_label items).
    cbn [merge_entries]. unfold merge_entry at 1.
    destruct (dict_get (label x) anotherspecs) as [y|]; [|done].
    destruct (parse_version_spec (version_spec x)) as [vx|]; simpl; [|done].
    destruct (parse_version_spec (version_spec y)) as [vy|]; simpl; [|done].
    destruct (intersect vx vy) as [v|]; simpl; [|done].
    destruct (merge_entries D1 D2 anotherspecs (by_label items)) as [news|]; simpl; [|done].
    intros [= <-]. destruct (IH news eq_refl) as [Hlabels Hsome].
    split; [unfold labels in *; rewrite !fmap_cons; by rewrite Hlabels|].
    constructor; [by eexists|done].
Qed.

Lemma find_common_specs_raises (d1 d2 : DepConstraints) (e : exn) :
  find_common_specs d1 d2 = Raise e →
  (∃ why, e = IncompatibleDependencyError why d1 d2)
  ∨ (∃ x, x ∈ d1 ++ d2 ∧ parse_version_spec (version_spec x) = Raise e).
Proof.
  destruct (decide (NoDup (labels d1))) as [H1|H1].
  2: { rewrite find_common_specs_duplicated by (by left). intros [= <-]. left. by eexists. }
  destruct (decide (NoDup (labels d2))) as [H2|H2].
  2: { rewrite find_common_specs_duplicated by (by right). intros [= <-]. left. by eexists. }
  rewrite find_common_specs_unique by done.
  destruct (bool_decide (key_set (by_label d1) = key_set (by_label d2))) eqn:Hkeys.
  2: { intros [= <-]. left. by eexists. }
  apply bool_decide_eq_true, key_set_by_label in Hkeys.
  intros [->|Hparse]%merge_entries_raises; [left; by eexists|by right|].
  intros x Hx. apply Hkeys. by apply list_elem_of_fmap_2.
Qed.

Lemma find_common_specs_returns (d1 d2 merged : DepConstraints) :
  find_common_specs d1 d2 = Ok merged →
  labels merged = labels d1
  ∧ NoDup (labels merged)
  ∧ Forall (fun m => is_Some (constraint m)) merged.
Proof.
  destruct (decide (NoDup (labels d1))) as [H1|H1].
  2: { by rewrite find_common_specs_duplicated by (by left). }
  destruct (decide (NoDup (labels d2))) as [H2|H2].
  2: { by rewrite find_common_specs_duplicated by (by right). }
  rewrite find_common_specs_unique by done.
  destruct (bool_decide (key_set (by_label d1) = key_set (by_label d2))); [|done].
  intros [Hlabels Hsome]%merge_entries_labels. by rewrite Hlabels.
Qed.
End MergeFailures.

(** X14.  [find_common_specs] never raises a [KeyError]: whatever it raises
    is an [IncompatibleDependencyError] carrying its two arguments, or the
    error [parse_version_spec] raised on the version text of one of their
    entries.  What it returns has the labels of the first argument in the
    order of the first argument, no label twice, and every entry carries
    its label as an explicit constraint, the empty one for an entry that
    had none. *)
Theorem find_common_specs_failures :
  ∀ `{VM : VersionModel} (d1 d2 : DepConstraints),
    (∀ e, find_common_specs d1 d2 = Raise e →
       (∃ why, e = IncompatibleDependencyError why d1 d2)
       ∨ (∃ x, x ∈ d1 ++ d2 ∧ parse_version_spec (version_spec x) = Raise e))
    ∧ (∀ merged, find_common_specs d1 d2 = Ok merged →
         labels merged = labels d1
         ∧ NoDup (labels merged)
         ∧ Forall (fun m => is_Some (constraint m)) merged).
Proof.
  intros VM d1 d2. split.
  - intros e. apply find_common_specs_raises.
  - intros merged. apply find_common_specs_returns.
Qed.

(** ** What the aggregation logs and how it fails *)

Lemma foldlM_world_invariant {A B} (P : B → Prop) (J : A → World → Prop)
    (f : A → B → M A) :
  (∀ x a w a' w', P x → J a w → f a x w = (Ok a', w') → J a' w') →
  ∀ l a w a' w',
    Forall P l → J a w → foldlM f a l w = (Ok a', w') → J a' w'.
Proof.
  intros Hstep l. induction l as [|x l IH]; intros a w a' w' Hl HJ Hrun.
  - simpl in Hrun. by injection Hrun as <- <-.
  - apply Forall_cons in Hl as [Hx Hl]. simpl in Hrun. rewrite bind_run in Hrun.
    destruct (f a x w) as [[a1|e] w1] eqn:Hf; [|done].
    eapply IH; [done| |exact Hrun]. by eapply Hstep.
Qed.

Lemma foldlM_world_raise {A B} (P : B → Prop) (J : A → World → Prop)
    (f : A → B → M A) :
  (∀ x a w a' w', P x → J a w → f a x w = (Ok a', w') → J a' w') →
  ∀ l a w e w',
    Forall P l → J a w → foldlM f a l w = (Raise e, w') →
    ∃ x a0 w0, x ∈ l ∧ J a0 w0 ∧ f a0 x w0 = (Raise e, w').
Proof.
  intros Hstep l. induction l as [|x l IH]; intros a w e w' Hl HJ Hrun; [done|].
  apply Forall_cons in Hl as [Hx Hl]. simpl in Hrun. rewrite bind_run in Hrun.
  destruct (f a x w) as [[a1|e1] w1] eqn:Hf.
  - destruct (IH a1 w1 e w' Hl) as (y & a0 & w0 & Hy & HJ0 & Hraise); [by eapply Hstep|done|].
    exists y, a0, w0. split; [by right|done].
  - injection Hrun as <- <-. exists x, a, w. split; [left|done].
Qed.

Lemma mapM_result_Forall {A B} (f : A → result B) (l : list A) (ys : list B) :
  mapM f l = Ok ys → Forall (fun y => ∃ x, x ∈ l ∧ f x = Ok y) ys.
Proof.
  revert ys. induction l as [|x l IH]; intros ys; simpl.
  - intros [= <-]. constructor.
  - destruct (f x) as [y|] eqn:Hy; simpl; [|done].
    destruct (mapM f l) as [ys'|]; simpl; [|done]. intros [= <-]. constructor.
    + exists x. split; [left|done].
    + eapply Forall_impl; [by apply IH|]. intros z (x' & Hx' & Hz).
      exists x'. split; [by right|done].
Qed.

Section AggregationLog.
Context `{VM : VersionModel}.

Lemma aggregate_dep_returns packages flag pkg st d specs w st' w' :
  aggregate_dep packages flag pkg st (d, specs) w = (Ok st', w') →
  (w' = w ∧ invalid_thirdparty_pkgs st' = invalid_thirdparty_pkgs st)
  ∨ (flag = true
     ∧ (d ∉ invalid_thirdparty_pkgs st)
     ∧ invalid_thirdparty_pkgs st' = {[d]} ∪ invalid_thirdparty_pkgs st
     ∧ ∃ locations,
         w' = mkWorld (files w) (procs w) (logs w ++ [conflict_entry (d, locations)])
         ∧ Forall (fun loc => ∃ p, p ∈ packages.*2 ∧ location p = loc) locations).
Proof.
  unfold aggregate_dep.
  destruct (dict_has d packages || bool_decide (d ∈ invalid_thirdparty_pkgs st)) eqn:Hskip.
  { rewrite ret_run. intros [= <- <-]. by left. }
  apply skip_false in Hskip as [Hlocal Hvalid].
  destruct (dict_get d (thirdparty_pkgs st)) as [[users old]|] eqn:Hget.
  2: { rewrite ret_run. intros [= <- <-]. by left. }
  destruct (find_common_specs old specs) as [common|e] eqn:Hmerge.
  { rewrite ret_run. intros [= <- <-]. by left. }
  destruct e as [why a b| | | | | | |]; try done.
  rewrite bind_run. unfold lift at 1.
  destruct (mapM _ (elements (users ∪ {[name pkg]}))) as [locations|e] eqn:Hlocs; [|done].
  rewrite bind_run. unfold logger at 1. cbv beta iota.
  destruct flag; [|done]. rewrite ret_run. intros [= <- <-]. right. simpl.
  split; [done|]. split; [done|]. split; [done|]. exists locations. split; [done|].
  eapply Forall_impl; [by eapply mapM_result_Forall|]. simpl.
  intros loc (n & _ & Hn). destruct (dict_get n packages) as [p|] eqn:Hp; [|done].
  injection Hn as <-. exists p. split; [|done].
  apply dict_get_Some_elem in Hp. apply list_elem_of_fmap. by exists (n, p).
Qed.

Lemma aggregate_dep_users packages flag pkg st d specs w st' w' :
  name pkg ∈ dict_keys packages →
  users_known packages st →
  aggregate_dep packages flag pkg st (d, specs) w = (Ok st', w') →
  users_known packages st'.
Proof.
  intros Hpkg Hknown. unfold aggregate_dep.
  assert (∀ users users' old specs' (tp : list (string * (gset string * DepConstraints))),
            (∀ n, n ∈ users' → n ∈ users ∨ n = name pkg) →
            (∀ k us sp, dict_get k tp = Some (us, sp) → ∀ n, n ∈ us → n ∈ dict_keys packages) →
            (dict_get d tp = Some (users, old) ∨ users = ∅) →
            ∀ k us sp, dict_get k (dict_set d (users', specs') tp) = Some (us, sp) →
                       ∀ n, n ∈ us → n ∈ dict_keys packages) as Hset.
  { intros users users' old specs' tp Husers Htp Hd k us sp.
    destruct (decide (k = d)) as [->|Hne].
    - rewrite dict_get_set_eq. intros [= <- <-] n [Hn| ->]%Husers; [|done].
      destruct Hd as [Hd| ->]; [by eapply Htp|]. by apply not_elem_of_empty in Hn.
    - rewrite dict_get_set_ne by done. apply Htp. }
  destruct (dict_has d packages || bool_decide (d ∈ invalid_thirdparty_pkgs st)) eqn:Hskip.
  { rewrite ret_run. by intros [= <- <-]. }
  destruct (dict_get d (thirdparty_pkgs st)) as [[users old]|] eqn:Hget.
  2: { rewrite ret_run. intros [= <- <-]. unfold users_known. simpl.
       apply (Hset ∅ {[name pkg]} [] specs); [|done|by right].
       intros n ->%elem_of_singleton. by right. }
  assert (∀ n, n ∈ users ∪ {[name pkg]} → n ∈ users ∨ n = name pkg) as Husers.
  { intros n [?| ->%elem_of_singleton]%elem_of_union; [by left|by right]. }
  assert (∀ k us sp,
            dict_get k (dict_set d (users ∪ {[name pkg]}, old) (thirdparty_pkgs st))
            = Some (us, sp) → ∀ n, n ∈ us → n ∈ dict_keys packages) as Htouched.
  { by apply (Hset users (users ∪ {[name pkg]}) old old); [| |left]. }
  destruct (find_common_specs old specs) as [common|e] eqn:Hmerge.
  { rewrite ret_run. intros [= <- <-]. unfold users_known. simpl.
    apply (Hset (users ∪ {[name pkg]}) (users ∪ {[name pkg]}) old common);
      [by left|done|left; apply dict_get_set_eq]. }
  destruct e as [why a b| | | | | | |]; try done.
  rewrite bind_run. unfold lift at 1.
  destruct (mapM _ (elements (users ∪ {[name pkg]}))) as [locations|e]; [|done].
  rewrite bind_run. unfold logger at 1. cbv beta iota.
  destruct flag; [|done]. rewrite ret_run. by intros [= <- <-].
Qed.

Lemma aggregate_dep_raises packages flag pkg st d specs w e w' :
  name pkg ∈ dict_keys packages →
  users_known packages st →
  aggregate_dep packages flag pkg st (d, specs) w = (Raise e, w') →
  (is_incompatibility e ∧ flag = false
   ∧ ∃ locations,
       w' = mkWorld (files w) (procs w) (logs w ++ [conflict_entry (d, locations)]))
  ∨ (¬ is_incompatibility e ∧ w' = w
     ∧ ∃ text, parse_version_spec text = Raise e).
Proof.
  intros Hpkg Hknown. unfold aggregate_dep.
  destruct (dict_has d packages || bool_decide (d ∈ invalid_thirdparty_pkgs st)) eqn:Hskip.
  { by rewrite ret_run. }
  destruct (dict_get d (thirdparty_pkgs st)) as [[users old]|] eqn:Hget.
  2: { by rewrite ret_run. }
  destruct (find_common_specs old specs) as [common|e0] eqn:Hmerge.
  { by rewrite ret_run. }
  assert (¬ is_incompatibility e0 → ∃ text, parse_version_spec text = Raise e0) as Hparse.
  { intros Hother. destruct (find_common_specs_raises old specs e0 Hmerge)
      as [(why & ->)|(x & _ & Hx)]; [|by eexists].
    destruct Hother. by eexists _, _, _. }
  destruct e0 as [why a b| | | | | | |].
  2-8: intros [= <- <-]; right;
       (split; [by intros (why & a & b & ?)|]); split; [done|]; by apply Hparse;
       intros (why & a & b & ?).
  rewrite bind_run. unfold lift at 1.
  destruct (mapM_result_ok
              (fun pkgname => match dict_get pkgname packages with
                              | Some p => Ok (location p)
                              | None => Raise (KeyError pkgname)
                              end) (elements (users ∪ {[name pkg]}))) as [locations ->].
  { apply Forall_forall. intros n Hn%elem_of_elements.
    assert (n ∈ dict_keys packages) as Hkey.
    { apply elem_of_union in Hn as [Hn| ->%elem_of_singleton]; [|done].
      by eapply Hknown. }
    destruct (dict_get n packages) as [p|] eqn:Hp; [by eexists|].
    by apply dict_get_None in Hp. }
  rewrite bind_run. unfold logger at 1. cbv beta iota.
  destruct flag; [by rewrite ret_run|]. intros [= <- <-]. left.
  split; [by eexists _, _, _|]. split; [done|]. by exists locations.
Qed.
End AggregationLog.

Section AggregationOutcome.
Context `{VM : VersionModel}.

Lemma aggregate_log packages flag w st w' :
  aggregate packages flag w = (Ok st, w') →
  ∃ conflicts,
    w' = mkWorld (files w) (procs w) (logs w ++ (conflict_entry <$> conflicts))
    ∧ NoDup (conflicts.*1)
    ∧ (∀ d, d ∈ conflicts.*1 ↔ d ∈ invalid_thirdparty_pkgs st)
    ∧ Forall (fun c => Forall (fun loc => ∃ p, p ∈ packages.*2 ∧ location p = loc) c.2)
        conflicts
    ∧ (flag = false → conflicts = []).
Proof.
  unfold aggregate. intros Hrun.
  pose (J := fun (st : aggregation) (w1 : World) =>
    ∃ conflicts,
      w1 = mkWorld (files w) (procs w) (logs w ++ (conflict_entry <$> conflicts))
      ∧ NoDup (conflicts.*1)
      ∧ (∀ d, d ∈ conflicts.*1 ↔ d ∈ invalid_thirdparty_pkgs st)
      ∧ Forall (fun c => Forall (fun loc => ∃ p, p ∈ packages.*2 ∧ location p = loc) c.2)
          conflicts
      ∧ (flag = false → conflicts = [])).
  assert (∀ pkg (dep : string * DepConstraints) st0 w0 st1 w1,
            J st0 w0 → aggregate_dep packages flag pkg st0 dep w0 = (Ok st1, w1) → J st1 w1)
    as Hstep.
  { intros pkg [d specs] st0 w0 st1 w1 (conflicts & -> & Hnd & Hin & Hlocs & Hflag) Hdep.
    apply aggregate_dep_returns in Hdep
      as [[-> Hsame]|(-> & Hvalid & Hadd & locations & -> & Hknown)].
    - exists conflicts. rewrite Hsame. done.
    - exists (conflicts ++ [(d, locations)]). simpl.
      split; [by rewrite fmap_app, app_assoc|]. split; [|split; [|split]].
      + rewrite fmap_app. apply NoDup_app. split; [done|]. split; [|apply NoDup_singleton].
        intros x Hx ->%list_elem_of_singleton. by apply Hvalid, Hin.
      + intros x. rewrite fmap_app, elem_of_app, Hadd, elem_of_union, Hin. simpl.
        rewrite list_elem_of_singleton, elem_of_singleton. tauto.
      + apply Forall_app. split; [done|]. by constructor.
      + done. }
  eapply (foldlM_world_invariant (fun _ => True) J); [| |shelve|exact Hrun].
  Unshelve.
  - intros pkg st0 w0 st1 w1 _ HJ Hinner.
    eapply (foldlM_world_invariant (fun _ => True) J); [| |exact HJ|exact Hinner].
    + intros dep st2 w2 st3 w3 _. apply Hstep.
    + by apply Forall_forall.
  - by apply Forall_forall.
  - exists []. simpl. rewrite app_nil_r. split; [by destruct w|].
    split; [constructor|]. split; [|done].
    intros d. split; [by intros ?%elem_of_nil|by intros ?%not_elem_of_empty].
Qed.

Lemma aggregate_raises packages flag w e w' :
  keyed_by_name packages →
  aggregate packages flag w = (Raise e, w') →
  (is_incompatibility e ∧ flag = false
   ∧ ∃ d locations, last (logs w') = Some (conflict_entry (d, locations)))
  ∨ (¬ is_incompatibility e ∧ ∃ text, parse_version_spec text = Raise e).
Proof.
  intros Hkeyed. unfold aggregate. intros Hrun.
  pose (J := fun (st : aggregation) (_ : World) => users_known packages st).
  pose (P := fun pkg : Package => name pkg ∈ dict_keys packages).
  assert (Forall P (packages.*2)) as Hall.
  { apply Forall_forall. intros pkg Hpkg. unfold P.
    rewrite (keyed_by_name_keys packages Hkeyed). by apply list_elem_of_fmap_2. }
  assert (∀ pkg (dep : string * DepConstraints) st0 w0 st1 w1,
            P pkg → J st0 w0 →
            aggregate_dep packages flag pkg st0 dep w0 = (Ok st1, w1) → J st1 w1) as Hstep.
  { intros pkg [d specs] st0 w0 st1 w1 Hpkg HJ Hdep. by eapply aggregate_dep_users. }
  destruct (foldlM_world_raise P J
              (fun st pkg => foldlM (aggregate_dep packages flag pkg) st (dependencies pkg)))
    with (l := packages.*2) (a := mkAgg [] ∅) (w := w) (e := e) (w' := w')
    as (pkg & st0 & w0 & Hpkg & HJ0 & Hinner); [| | |exact Hrun|].
  - intros pkg st0 w0 st1 w1 Hpkg HJ Hinner.
    eapply (foldlM_world_invariant (fun _ => True) J); [| |exact HJ|exact Hinner].
    + intros dep st2 w2 st3 w3 _. by apply Hstep.
    + by apply Forall_forall.
  - done.
  - by intros d users specs.
  - rewrite Forall_forall in Hall. pose proof (Hall pkg Hpkg) as Hname.
    destruct (foldlM_world_raise (fun _ => True) J (aggregate_dep packages flag pkg))
      with (l := dependencies pkg) (a := st0) (w := w0) (e := e) (w' := w')
      as ([d specs] & st1 & w1 & _ & HJ1 & Hdep); [| |done|exact Hinner|].
    + intros dep st2 w2 st3 w3 _. by apply Hstep.
    + by apply Forall_forall.
    + apply aggregate_dep_raises in Hdep
        as [(Hinc & -> & locations & ->)|(Hother & _ & Hparse)]; [| |done..].
      * left. split; [done|]. split; [done|]. exists d, locations. simpl.
        by rewrite last_snoc.
      * by right.
Qed.
End AggregationOutcome.

(** X15.  When the aggregation returns, it has started no process and
    changed no file, and what it has logged is one error line per
    dependency name it has marked invalid, no name twice, each line listing
    locations of local packages; without the tolerance flag it has logged
    nothing and marked nothing. *)
Theorem aggregate_logs_each_conflict_once :
  ∀ `{VM : VersionModel} (packages : list (string * Package)) (flag : bool)
    (w w' : World) (st : aggregation),
    aggregate packages flag w = (Ok st, w') →
    ∃ conflicts,
      w' = mkWorld (files w) (procs w) (logs w ++ (conflict_entry <$> conflicts))
      ∧ NoDup (conflicts.*1)
      ∧ (∀ d, d ∈ conflicts.*1 ↔ d ∈ invalid_thirdparty_pkgs st)
      ∧ Forall (fun c => Forall (fun loc => ∃ p, p ∈ packages.*2 ∧ location p = loc) c.2)
          conflicts
      ∧ (flag = false → conflicts = []).
Proof. intros VM packages flag w w' st. apply aggregate_log. Qed.

Lemma aggregate_logs_each_conflict_once_witness :
  ∃ st w' conflicts,
    aggregate (VM := Demo.versions) Demo.clash true (Demo.fresh Demo.clash) = (Ok st, w')
    ∧ w' = mkWorld (files (Demo.fresh Demo.clash)) (procs (Demo.fresh Demo.clash))
             (logs (Demo.fresh Demo.clash) ++ (conflict_entry <$> conflicts))
    ∧ NoDup (conflicts.*1)
    ∧ (∀ d, d ∈ conflicts.*1 ↔ d ∈ invalid_thirdparty_pkgs st)
    ∧ Forall (fun c => Forall (fun loc => ∃ p, p ∈ (Demo.clash).*2 ∧ location p = loc) c.2)
        conflicts
    ∧ (true = false → conflicts = [])
    ∧ length (logs w') = 1.
Proof.
  assert (length (logs (aggregate (VM := Demo.versions) Demo.clash true
                          (Demo.fresh Demo.clash)).2) = 1) as Hlogs
    by (by vm_compute).
  destruct (aggregate (VM := Demo.versions) Demo.clash true (Demo.fresh Demo.clash))
    as [[st|e] w'] eqn:Hrun; [|by vm_compute in Hrun].
  destruct (aggregate_logs_each_conflict_once Demo.clash true (Demo.fresh Demo.clash) w' st
              Hrun) as (conflicts & H1 & H2 & H3 & H4 & H5).
  exists st, w', conflicts. repeat (split; [done|]). exact Hlogs.
Defined.

(** X16.  For a dictionary that maps each local package's name to it, the
    aggregation fails in two ways only.  Either it raises an
    incompatibility, which happens only without the tolerance flag, and the
    last line of the log is then the error line of the conflict; or it
    raises an error that is no incompatibility and that
    [parse_version_spec] raised on some version text.  In particular the
    look-up of the locations of the requiring packages never raises a
    [KeyError]. *)
Theorem aggregate_failures :
  ∀ `{VM : VersionModel} (packages : list (string * Package)) (flag : bool)
    (w w' : World) (e : exn),
    keyed_by_name packages →
    aggregate packages flag w = (Raise e, w') →
    (is_incompatibility e ∧ flag = false
     ∧ ∃ d locations, last (logs w') = Some (conflict_entry (d, locations)))
    ∨ (¬ is_incompatibility e ∧ ∃ text, parse_version_spec text = Raise e).
Proof. intros VM packages flag w w' e. apply aggregate_raises. Qed.

Lemma aggregate_failures_witness :
  keyed_by_name Demo.clash
  ∧ ∃ e w',
      aggregate (VM := Demo.versions) Demo.clash false (Demo.fresh Demo.clash) = (Raise e, w')
      ∧ ((is_incompatibility e ∧ false = false
          ∧ ∃ d locations, last (logs w') = Some (conflict_entry (d, locations)))
         ∨ (¬ is_incompatibility e
            ∧ ∃ text, parse_version_spec (VersionModel := Demo.versions) text = Raise e))
      ∧ e = IncompatibleDependencyError IncompatibleSpecs
              [Demo.plain ">=2"] [Demo.plain "<1"].
Proof.
  assert (keyed_by_name Demo.clash) as Hkeyed by (repeat constructor).
  split; [done|].
  assert ((aggregate (VM := Demo.versions) Demo.clash false (Demo.fresh Demo.clash)).1
          = Raise (IncompatibleDependencyError IncompatibleSpecs
                     [Demo.plain ">=2"] [Demo.plain "<1"])) as Hraise
    by (by vm_compute).
  destruct (aggregate (VM := Demo.versions) Demo.clash false (Demo.fresh Demo.clash))
    as [[st|e] w'] eqn:Hrun; [done|].
  exists e, w'. split; [done|].
  split; [exact (aggregate_failures Demo.clash false (Demo.fresh Demo.clash) w' e
                   Hkeyed Hrun)|].
  simpl in Hraise. by injection Hraise as ->.
Defined.

(** ** The sibling phase and the manifests *)

Lemma install_bare_pkg_keeps `{EX : Externals} pkg cfg virtualenv (d f : string) :
  confined → f = "pyproject.toml" ∨ f = "poetry.lock" →
  respects (same_file (d, f)) (install_bare_pkg pkg cfg virtualenv).
Proof.
  intros Hconfined Hf w. unfold same_file.
  destruct (install_bare_pkg_run pkg cfg virtualenv w) as (_ & _ & _ & Hman & Hlock & Hother).
  destruct (decide (d = location pkg)) as [->|Hd].
  - by destruct Hf as [-> | ->].
  - rewrite Hother by congruence. rewrite Hconfined by done.
    unfold bare_files. by look.
Qed.

Lemma install_siblings_keeps `{EX : Externals} packages package cfg (d f : string) :
  confined → f = "pyproject.toml" ∨ f = "poetry.lock" →
  respects (same_file (d, f)) (install_siblings packages package cfg).
Proof.
  intros Hconfined Hf. set (R := same_file (d, f)). unfold install_siblings.
  apply (respects_bind R); [apply logger_same_file|]. intros _.
  apply (respects_bind R).
  - unfold getitem. destruct (dict_get package packages);
      [apply (respects_ret R)|apply (respects_raise R)].
  - intros target. apply (respects_foldlM R). intros _ pkg.
    by apply install_bare_pkg_keeps.
Qed.

(** X17.  When the toolchain only writes in its working directory, the
    sibling phase leaves the [pyproject.toml] and the [poetry.lock] of every
    directory as it found them, present or absent, whether it returns or
    raises. *)
Theorem install_siblings_keeps_manifests :
  ∀ `{EX : Externals} (packages : list (string * Package)) (package : string)
    (cfg : PBTConfig) (w : World) (d f : string),
    confined →
    f = "pyproject.toml" ∨ f = "poetry.lock" →
    files (install_siblings packages package cfg w).2 !! (d, f) = files w !! (d, f).
Proof.
  intros EX packages package cfg w d f Hconfined Hf.
  by apply (install_siblings_keeps packages package cfg d f).
Qed.

Lemma demo_toolchain_confined (found : list (string * Package)) :
  confined (EX := Demo.externals found).
Proof.
  intros call fs d f Hd. simpl. unfold Demo.toolchain.
  destruct (fs !! (cwd call, "pyproject.toml")); [|done].
  destruct (String.prefix _ _); [done|].
  destruct (decide _); simpl; rewrite lookup_insert_ne; congruence.
Qed.

Lemma install_siblings_keeps_manifests_witness :
  confined (EX := Demo.externals Demo.workspace)
  ∧ ("poetry.lock" = "pyproject.toml" ∨ "poetry.lock" = "poetry.lock")
  ∧ files (install_siblings (EX := Demo.externals Demo.workspace) Demo.workspace "api"
             Demo.config (Demo.fresh Demo.workspace)).2 !! ("/ws/core", "poetry.lock")
    = files (Demo.fresh Demo.workspace) !! ("/ws/core", "poetry.lock").
Proof.
  split; [apply demo_toolchain_confined|]. split; [by right|].
  apply (install_siblings_keeps_manifests (EX := Demo.externals Demo.workspace)).
  - apply demo_toolchain_confined.
  - by right.
Defined.
